(** * AutoBot (Mercari deal hunter): a shallow embedding of the discovery pipeline

    The development follows the Go sources:
    - [strconv] and [Mercari.jsonNumberToInt]: the tolerant numeric decoding
      of pkg/mercari/scanner.go;
    - [Mercari.classifyItem] and [Mercari.FilterItems]: the CLIP image filter;
    - [Store]: the SQLite dedup store of pkg/store/dedup.go;
    - [Bot]: searchWithRetry, scanBrand and runScanCycle of cmd/autobot;
    - [Config]: LoadConfig and GetPriceRange of config/config.go;
    - [Telegram]: the captions, the requests and the command listener of
      pkg/telegram.

    Everything the process receives from outside (HTTP replies, the clock,
    math/rand, goroutine completion order) is an explicit argument, so that
    every function below is a total, executable Rocq function. *)

From Stdlib Require Import ZArith Lia Ascii String.
From Stdlib Require Import Floats.PrimFloat Floats.SpecFloat Floats.FloatOps.
From Stdlib Require Import Floats.FloatAxioms.
From stdpp Require Import base option list gmap strings pretty.

Set Default Proof Using "Type".
Set Warnings "-inexact-float".
Local Open Scope Z_scope.

(* ===================================================================== *)
(** ** Go runtime values *)
(* ===================================================================== *)

Module Go.

Definition minInt64 : Z := - 2 ^ 63.
Definition maxInt64 : Z := 2 ^ 63 - 1.
Definition maxUint64 : Z := 2 ^ 64 - 1.

(** Two's-complement wrap-around of int64 arithmetic. *)
Definition wrap64 (z : Z) : Z := (z + 2 ^ 63) mod 2 ^ 64 - 2 ^ 63.

(** Saturation, as time.Time.Sub does on overflow. *)
Definition sat64 (z : Z) : Z := Z.max minInt64 (Z.min maxInt64 z).

(** [error] values: errors.New / fmt.Errorf without %w give an
    [errorString]; fmt.Errorf with a trailing ": %w" gives a [wrapError]
    whose text is the prefix. *)
Inductive error : Type :=
| errorString (s : string)
| wrapError (msg : string) (err : error).

(** errors.Unwrap *)
Definition Unwrap (e : error) : option error :=
  match e with
  | errorString _ => None
  | wrapError _ inner => Some inner
  end.

(** err.Error() *)
Fixpoint Error (e : error) : string :=
  match e with
  | errorString s => s
  | wrapError msg inner => msg +:+ ": " +:+ Error inner
  end.

(** time.Duration is an int64 count of nanoseconds. *)
Definition Nanosecond : Z := 1.
Definition Millisecond : Z := 1000000.
Definition Second : Z := 1000000000.
Definition Minute : Z := 60 * Second.

(** *** float64 values from exact ones *)

Definition roundHalfEven (p q : Z) : Z :=
  let d := p / q in
  match (2 * (p mod q)) ?= q with
  | Lt => d
  | Gt => d + 1
  | Eq => if Z.even d then d else d + 1
  end.

(** [p / q / 2^e] as a fraction of integers. *)
Definition scale2 (p q e : Z) : Z * Z :=
  if 0 <=? e then (p, q * 2 ^ e) else (p * 2 ^ (- e), q).

(** The binary64 value nearest to [p / q] (ties to even), as mantissa and
    exponent, and whether it overflows to infinity.  [0 < p], [0 < q]. *)
Definition nearest64 (p q : Z) : Z * Z * bool :=
  let e1 := Z.log2 p - Z.log2 q - 52 in
  let '(p1, q1) := scale2 p q e1 in
  let e2 := if p1 <? q1 * 2 ^ 52 then e1 - 1 else e1 in
  let e3 := Z.max e2 (- 1074) in
  let '(p3, q3) := scale2 p q e3 in
  let m := roundHalfEven p3 q3 in
  let '(m', e') := if m =? 2 ^ 53 then (2 ^ 52, e3 + 1) else (m, e3) in
  (m', e', 971 <? e').

(** The correctly rounded float64 of [p / q] with sign [neg], and whether
    it overflowed.  [0 <= p], [0 < q]. *)
Definition float64_of_ratio (neg : bool) (p q : Z) : float * bool :=
  if p =? 0 then (SF2Prim (S754_zero neg), false)
  else
    let '(m, e, ovf) := nearest64 p q in
    if ovf then (SF2Prim (S754_infinity neg), true)
    else match m with
         | Z.pos mp => (SF2Prim (S754_finite neg mp e), false)
         | _ => (SF2Prim (S754_zero neg), false)
         end.

(** float64(x) for an int64 [x]. *)
Definition float64_of_int (z : Z) : float :=
  fst (float64_of_ratio (z <? 0) (Z.abs z) 1).

(** Duration.Minutes: integer minutes plus the fractional rest, the
    quotient and remainder truncating toward zero. *)
Definition Minutes (d : Z) : float :=
  let min := Z.quot d Minute in
  let nsec := Z.rem d Minute in
  PrimFloat.add (float64_of_int min)
                (PrimFloat.div (float64_of_int nsec) (float64_of_int (60 * 1000000000))).

(** The seconds from year 1 to 1970, which time.Unix adds to its
    argument in an int64 that wraps. *)
Definition unixToInternal : Z := 62135596800.

(** time.Since(time.Unix(sec, 0)) at wall-clock reading [now] (Unix
    nanoseconds).  The instant is the one time.Unix stores, its seconds
    wrapped; Sub saturates. *)
Definition Since (now : Z) (sec : Z) : Z :=
  let usec := wrap64 (sec + unixToInternal) in
  sat64 (now - (usec - unixToInternal) * Second).

(** rand.Intn(n) on the raw draw [r]: a value in [0, n). *)
Definition Intn (r : Z) (n : Z) : Z := r mod n.

(** *** Strings and formatting *)

(** strings.ReplaceAll(s, old, new) for an [old] of one byte, as every
    call of this program has it: each occurrence of the byte, from left to
    right, becomes [new]. *)
Fixpoint ReplaceAll (s : string) (old : ascii) (new : string) : string :=
  match s with
  | EmptyString => EmptyString
  | String c rest =>
      if Ascii.eqb c old then new +:+ ReplaceAll rest old new
      else String c (ReplaceAll rest old new)
  end.

(** strings.HasPrefix *)
Definition HasPrefix (s prefix : string) : bool := String.prefix prefix s.

(** The verb %.0f of fmt on a float64: the integer nearest to the exact
    value, ties to even, with the sign kept on a negative zero; NaN and
    the infinities by name. *)
Definition fmtFloat0 (f : float) : string :=
  match Prim2SF f with
  | S754_nan => "NaN"
  | S754_infinity neg => if neg then "-Inf" else "+Inf"
  | S754_zero neg => if neg then "-0" else "0"
  | S754_finite neg m e =>
      let n := if 0 <=? e then Z.pos m * 2 ^ e else roundHalfEven (Z.pos m) (2 ^ (- e)) in
      (if neg then "-" else "") +:+ pretty n
  end.

(** *** Slices and text *)

(** copy(dst[off:], src): as many elements as fit. *)
Definition copy {A : Type} (dst : list A) (off : nat) (src : list A) : list A :=
  take off dst ++ take (length dst - off) src ++ drop (off + length src) dst.

(** l[i:j] *)
Definition slice {A : Type} (l : list A) (i j : nat) : list A := take (j - i) (drop i l).

Definition inRange (lo hi : nat) (c : ascii) : bool :=
  Nat.leb lo (nat_of_ascii c) && Nat.leb (nat_of_ascii c) hi.

(** utf8.ValidString: the bytes are a sequence of well-formed UTF-8
    encodings, each of one to four bytes. *)
Fixpoint ValidString (cs : list ascii) : bool :=
  match cs with
  | [] => true
  | c :: rest =>
      if inRange 0 127 c then ValidString rest
      else if inRange 194 223 c then
        match rest with
        | c1 :: rest1 => inRange 128 191 c1 && ValidString rest1
        | _ => false
        end
      else if inRange 224 239 c then
        match rest with
        | c1 :: c2 :: rest2 =>
            inRange (if inRange 224 224 c then 160 else 128)
                    (if inRange 237 237 c then 159 else 191) c1
            && inRange 128 191 c2 && ValidString rest2
        | _ => false
        end
      else if inRange 240 244 c then
        match rest with
        | c1 :: c2 :: c3 :: rest3 =>
            inRange (if inRange 240 240 c then 144 else 128)
                    (if inRange 244 244 c then 143 else 191) c1
            && inRange 128 191 c2 && inRange 128 191 c3 && ValidString rest3
        | _ => false
        end
      else false
  end.

End Go.

(* ===================================================================== *)
(** ** strconv *)
(* ===================================================================== *)

(** The parts of Go's strconv that json.Number.Int64, json.Number.Float64
    and jsonNumberToInt call.  [ParseInt] and [Atoi] are base 10 on a
    64-bit int.  Every function returns the value AND the error, as Go
    does: on a range error the value is the clamped bound, not zero. *)
Module strconv.

Inductive NumError := ErrSyntax | ErrRange.

Definition digitVal (c : ascii) : option Z :=
  let n := Z.of_nat (nat_of_ascii c) in
  if (48 <=? n) && (n <=? 57) then Some (n - 48) else None.

(** The digit loop of ParseUint(s, 10, 64): a non-digit is a syntax
    error; the loop leaves with a range error as soon as the next digit
    would overflow, without looking at the rest. *)
Fixpoint parseUintLoop (cs : list ascii) (n : Z) : Z * option NumError :=
  match cs with
  | [] => (n, None)
  | c :: cs' =>
      match digitVal c with
      | None => (0, Some ErrSyntax)
      | Some d =>
          if Go.maxUint64 / 10 + 1 <=? n then (Go.maxUint64, Some ErrRange)
          else
            let n1 := n * 10 + d in
            if Go.maxUint64 <? n1 then (Go.maxUint64, Some ErrRange)
            else parseUintLoop cs' n1
      end
  end.

Definition ParseUint (cs : list ascii) : Z * option NumError :=
  match cs with
  | [] => (0, Some ErrSyntax)
  | _ => parseUintLoop cs 0
  end.

Definition isPlus (c : ascii) : bool := Ascii.eqb c "+"%char.
Definition isMinus (c : ascii) : bool := Ascii.eqb c "-"%char.

(** ParseInt(s, 10, 64) *)
Definition ParseInt (s : string) : Z * option NumError :=
  match list_ascii_of_string s with
  | [] => (0, Some ErrSyntax)
  | (c :: rest) as all =>
      let neg := isMinus c in
      let body := if isPlus c || isMinus c then rest else all in
      match ParseUint body with
      | (_, Some ErrSyntax) => (0, Some ErrSyntax)
      | (un, _) =>
          let cutoff := 2 ^ 63 in
          if negb neg && (cutoff <=? un) then (cutoff - 1, Some ErrRange)
          else if neg && (cutoff <? un) then (- cutoff, Some ErrRange)
          else (if neg then - un else un, None)
      end
  end.

(** Atoi(s) is ParseInt(s, 10, 0) with a fast path for short inputs that
    computes the same value.  This is Atoi where int is 64 bits wide;
    [Mercari.Sized.Atoi] gives it for either width. *)
Definition Atoi (s : string) : Z * option NumError := ParseInt s.

(** *** ParseFloat on decimal spellings *)

(** The mantissa loop of readFloat: digits with at most one point.
    Returns the digits read as an integer, the number of digits after the
    point, whether a digit was seen, and the unread rest. *)
Fixpoint readMantissa (cs : list ascii) (sawdot : bool) (mant frac : Z) (sawdigits : bool)
  : Z * Z * bool * list ascii :=
  match cs with
  | [] => (mant, frac, sawdigits, [])
  | c :: cs' =>
      if Ascii.eqb c "."%char then
        if sawdot then (mant, frac, sawdigits, cs)
        else readMantissa cs' true mant frac sawdigits
      else
        match digitVal c with
        | Some d => readMantissa cs' sawdot (mant * 10 + d) (if sawdot then frac + 1 else frac) true
        | None => (mant, frac, sawdigits, cs)
        end
  end.

(** The exponent digits of readFloat; the exponent stops growing once it
    reaches 10000. *)
Fixpoint readExpDigits (cs : list ascii) (e : Z) : Z * list ascii :=
  match cs with
  | [] => (e, [])
  | c :: cs' =>
      match digitVal c with
      | Some d => readExpDigits cs' (if e <? 10000 then e * 10 + d else e)
      | None => (e, cs)
      end
  end.

Definition isE (c : ascii) : bool := Ascii.eqb c "e"%char || Ascii.eqb c "E"%char.

(** Optional exponent part: [None] when an exponent marker is not
    followed by a well-formed exponent. *)
Definition readExponent (cs : list ascii) : option (Z * list ascii) :=
  match cs with
  | c :: cs1 =>
      if isE c then
        let '(esign, cs2) :=
          match cs1 with
          | s :: cs2 => if isPlus s then (1, cs2) else if isMinus s then (-1, cs2) else (1, cs1)
          | [] => (1, cs1)
          end in
        match cs2 with
        | d :: _ =>
            match digitVal d with
            | Some _ => let '(e, rest) := readExpDigits cs2 0 in Some (e * esign, rest)
            | None => None
            end
        | [] => None
        end
      else Some (0, cs)
  | [] => Some (0, [])
  end.

(** ParseFloat(s, 64) on decimal floating-point spellings
    [sign digits [. digits] [e sign digits]], which include every JSON
    number: the correctly rounded binary64, and on overflow an infinity
    together with a range error.  The other spellings that Go accepts
    (hexadecimal floats, digits separated by underscores, and the words
    inf, infinity and nan) are read as syntax errors here; encoding/json
    stores none of them in a json.Number. *)
Definition ParseFloat (s : string) : float * option NumError :=
  match list_ascii_of_string s with
  | [] => (PrimFloat.zero, Some ErrSyntax)
  | (c :: rest) as all =>
      let neg := isMinus c in
      let body := if isPlus c || isMinus c then rest else all in
      let '(mant, frac, sawdigits, cs1) := readMantissa body false 0 0 false in
      if negb sawdigits then (PrimFloat.zero, Some ErrSyntax)
      else
        match readExponent cs1 with
        | Some (e, []) =>
            let exp10 := e - frac in
            let '(p, q) := if 0 <=? exp10 then (mant * 10 ^ exp10, 1) else (mant, 10 ^ (- exp10)) in
            let '(f, ovf) := Go.float64_of_ratio neg p q in
            (f, if ovf then Some ErrRange else None)
        | _ => (PrimFloat.zero, Some ErrSyntax)
        end
  end.

(** The conversion int(f) of a float64: truncation toward zero.  For a
    value outside int64, or NaN, Go leaves the result to the platform;
    amd64 yields the minimum int64. *)
Definition int_of_float64 (f : float) : Z :=
  match Prim2SF f with
  | S754_zero _ => 0
  | S754_finite s m e =>
      let mag := if 0 <=? e then Z.pos m * 2 ^ e else Z.pos m / 2 ^ (- e) in
      let v := if s then - mag else mag in
      if (Go.minInt64 <=? v) && (v <=? Go.maxInt64) then v else Go.minInt64
  | _ => Go.minInt64
  end.

End strconv.

(* ===================================================================== *)
(** ** pkg/mercari: listings, numeric decoding, the search client *)
(* ===================================================================== *)

Module Mercari.

Import Go.

(** Item: one listing.  [Created] and [Updated] are the Unix seconds
    handed to time.Unix. *)
Record Item := mkItem {
  ID : string;
  Name : string;
  Price : Z;
  Status : string;
  Description : string;
  ImageURLs : list string;
  Seller : string;
  Created : Z;
  Updated : Z;
  CategoryID : Z;
  BrandName : string;
  ItemURL : string;
}.

(** item.AgeMinutes() at clock reading [now]. *)
Definition AgeMinutes (now : Z) (item : Item) : float :=
  Minutes (Since now (Created item)).

(** json.Number is a string; Int64 and Float64 are strconv calls. *)
Definition Number := string.
Definition Int64 (n : Number) : Z * option strconv.NumError := strconv.ParseInt n.
Definition Float64 (n : Number) : float * option strconv.NumError := strconv.ParseFloat n.

(** jsonNumberToInt where int is 64 bits wide, so that int(v) is [v];
    [Sized.jsonNumberToInt] below gives it for either width. *)
Definition jsonNumberToInt (n : Number) : Z :=
  if String.eqb n "" then 0
  else
    match Int64 n with
    | (v, None) => v
    | (_, Some _) =>
        match Float64 n with
        | (f, None) => strconv.int_of_float64 f
        | (_, Some _) => fst (strconv.Atoi n)
        end
    end.

(** jsonNumberToInt64 *)
Definition jsonNumberToInt64 (n : Number) : Z :=
  if String.eqb n "" then 0
  else
    match Int64 n with
    | (v, None) => v
    | (_, Some _) =>
        match Float64 n with
        | (f, None) => strconv.int_of_float64 f
        | (_, Some _) => fst (strconv.ParseInt n)
        end
    end.

(** *** The width of int *)

(** Go's int has 64 bits on amd64 and arm64, and 32 bits on GOARCH=arm,
    the build of the README for a 32-bit Pi OS.  [jsonNumberToInt] above
    and [strconv.Atoi] are those of a 64-bit build.  [Sized] gives them
    for an int of [intSize] bits, with what they call that depends on the
    width; Int64, Float64 and jsonNumberToInt64 do not. *)
Module Sized.

Section Width.

Variable intSize : Z.

(** int(v) for an int64 [v]: the low [intSize] bits, as a signed
    number. *)
Definition toInt (v : Z) : Z :=
  (v + 2 ^ (intSize - 1)) mod 2 ^ intSize - 2 ^ (intSize - 1).

(** The digit loop of ParseUint(s, 10, bitSize), [maxVal] being
    2^bitSize - 1. *)
Fixpoint parseUintLoop (maxVal : Z) (cs : list ascii) (n : Z) : Z * option strconv.NumError :=
  match cs with
  | [] => (n, None)
  | c :: cs' =>
      match strconv.digitVal c with
      | None => (0, Some strconv.ErrSyntax)
      | Some d =>
          if Go.maxUint64 / 10 + 1 <=? n then (maxVal, Some strconv.ErrRange)
          else
            let n1 := n * 10 + d in
            if maxVal <? n1 then (maxVal, Some strconv.ErrRange)
            else parseUintLoop maxVal cs' n1
      end
  end.

(** ParseUint(s, 10, 0): the bit size 0 stands for the width of int. *)
Definition ParseUint (cs : list ascii) : Z * option strconv.NumError :=
  match cs with
  | [] => (0, Some strconv.ErrSyntax)
  | _ => parseUintLoop (2 ^ intSize - 1) cs 0
  end.

(** ParseInt(s, 10, 0) *)
Definition ParseInt (s : string) : Z * option strconv.NumError :=
  match list_ascii_of_string s with
  | [] => (0, Some strconv.ErrSyntax)
  | (c :: rest) as all =>
      let neg := strconv.isMinus c in
      let body := if strconv.isPlus c || strconv.isMinus c then rest else all in
      match ParseUint body with
      | (_, Some strconv.ErrSyntax) => (0, Some strconv.ErrSyntax)
      | (un, _) =>
          let cutoff := 2 ^ (intSize - 1) in
          if negb neg && (cutoff <=? un) then (cutoff - 1, Some strconv.ErrRange)
          else if neg && (cutoff <? un) then (- cutoff, Some strconv.ErrRange)
          else (if neg then - un else un, None)
      end
  end.

(** Atoi(s): int(i64) of ParseInt(s, 10, 0); the fast path for short
    inputs computes the same value. *)
Definition Atoi (s : string) : Z * option strconv.NumError :=
  let '(i64, err) := ParseInt s in (toInt i64, err).

(** What the platform yields for int(f) when the value does not fit, or
    is NaN: Go leaves it to the implementation. *)
Variable outOfRange : float -> Z.

(** The conversion int(f) of a float64: truncation toward zero. *)
Definition int_of_float64 (f : float) : Z :=
  match Prim2SF f with
  | S754_zero _ => 0
  | S754_finite s m e =>
      let mag := if 0 <=? e then Z.pos m * 2 ^ e else Z.pos m / 2 ^ (- e) in
      let v := if s then - mag else mag in
      if (- 2 ^ (intSize - 1) <=? v) && (v <? 2 ^ (intSize - 1)) then v else outOfRange f
  | _ => outOfRange f
  end.

(** jsonNumberToInt *)
Definition jsonNumberToInt (n : Number) : Z :=
  if String.eqb n "" then 0
  else
    match Int64 n with
    | (v, None) => toInt v
    | (_, Some _) =>
        match Float64 n with
        | (f, None) => int_of_float64 f
        | (_, Some _) => fst (Atoi n)
        end
    end.

End Width.

End Sized.

Record itemBrand := { brandID : Number; brandName : string }.

(** searchAPIItem, as encoding/json fills it. *)
Record searchAPIItem := {
  rawID : string;
  rawName : string;
  rawPrice : Number;
  rawStatus : string;
  rawCreated : Number;
  rawUpdated : Number;
  rawThumbnails : list string;
  rawItemType : string;
  rawBuyerID : string;
  rawSellerID : string;
  rawItemBrand : option itemBrand;
  rawItemConditionID : Number;
}.

Record searchAPIResponse := {
  apiItems : list searchAPIItem;
  metaNumFound : Number;
  metaNextPageToken : string;
  metaHasNext : bool;
}.

(** The loop body of Search that turns one raw item into an Item. *)
Definition convertItem (raw : searchAPIItem) : Item :=
  {| ID := rawID raw;
     Name := rawName raw;
     Price := jsonNumberToInt (rawPrice raw);
     Status := rawStatus raw;
     Description := "";
     ImageURLs := rawThumbnails raw;
     Seller := "";
     Created := jsonNumberToInt64 (rawCreated raw);
     Updated := jsonNumberToInt64 (rawUpdated raw);
     CategoryID := 0;
     BrandName := match rawItemBrand raw with Some b => brandName b | None => "" end;
     ItemURL := "https://jp.mercari.com/item/" +:+ rawID raw |}.

(** The cleaning function of truncate on a rune below 128: control
    characters other than newline, carriage return and tab go.  Every
    rune from 128 on stays. *)
Definition printable (c : ascii) : bool :=
  let n := nat_of_ascii c in
  negb (Nat.ltb n 32) || Nat.eqb n 10 || Nat.eqb n 13 || Nat.eqb n 9.

(** U+FFFD in UTF-8: what a byte that starts no well-formed encoding is
    read as, and written as. *)
Definition runeError : list ascii :=
  [ascii_of_nat 239; ascii_of_nat 191; ascii_of_nat 189].

(** strings.Map with the cleaning function, a rune at a time.  A
    well-formed encoding is copied, unless it is a control character to
    drop; a byte that starts none is one rune of its own, U+FFFD. *)
Fixpoint cleanRunes (cs : list ascii) : list ascii :=
  match cs with
  | [] => []
  | c :: rest =>
      if inRange 0 127 c then
        if printable c then c :: cleanRunes rest else cleanRunes rest
      else if inRange 194 223 c then
        match rest with
        | c1 :: rest1 =>
            if inRange 128 191 c1 then c :: c1 :: cleanRunes rest1
            else runeError ++ cleanRunes rest
        | _ => runeError ++ cleanRunes rest
        end
      else if inRange 224 239 c then
        match rest with
        | c1 :: c2 :: rest2 =>
            if inRange (if inRange 224 224 c then 160 else 128)
                       (if inRange 237 237 c then 159 else 191) c1
               && inRange 128 191 c2
            then c :: c1 :: c2 :: cleanRunes rest2
            else runeError ++ cleanRunes rest
        | _ => runeError ++ cleanRunes rest
        end
      else if inRange 240 244 c then
        match rest with
        | c1 :: c2 :: c3 :: rest3 =>
            if inRange (if inRange 240 240 c then 144 else 128)
                       (if inRange 244 244 c then 143 else 191) c1
               && inRange 128 191 c2 && inRange 128 191 c3
            then c :: c1 :: c2 :: c3 :: cleanRunes rest3
            else runeError ++ cleanRunes rest
        | _ => runeError ++ cleanRunes rest
        end
      else runeError ++ cleanRunes rest
  end.

(** truncate: clean, then cut at [maxLen] bytes. *)
Definition truncate (s : string) (maxLen : nat) : string :=
  let cleaned := cleanRunes (list_ascii_of_string s) in
  if Nat.ltb maxLen (length cleaned)
  then string_of_list_ascii (take maxLen cleaned) +:+ "..."
  else string_of_list_ascii cleaned.

(** Everything one call of Search meets outside the process, in the
    order the function checks it. *)
Inductive SearchExchange :=
| DPoPFailed (e : error)
| SearchMarshalFailed (e : error)
| SearchNewRequestFailed (e : error)
| SearchDoFailed (e : error)
| SearchReadFailed (e : error)
| SearchReceived (status : Z) (body : string) (decoded : error + searchAPIResponse).

Record SearchQuery := {
  qKeyword : string;
  qPriceMin : Z;
  qPriceMax : Z;
  qCategories : list Z;
  qLimit : Z;
}.

(** Scanner.Search *)
Definition Search (x : SearchExchange) : error + list Item :=
  match x with
  | DPoPFailed e => inl (wrapError "generating DPoP token" e)
  | SearchMarshalFailed e => inl (wrapError "marshal request" e)
  | SearchNewRequestFailed e => inl (wrapError "creating request" e)
  | SearchDoFailed e => inl (wrapError "search request failed" e)
  | SearchReadFailed e => inl (wrapError "reading response" e)
  | SearchReceived status body decoded =>
      if negb (status =? 200)
      then inl (errorString ("mercari API returned " +:+ pretty status +:+ ": " +:+ truncate body 300))
      else match decoded with
           | inl e => inl (wrapError "parsing response" e)
           | inr apiResp => inr (List.map convertItem (apiItems apiResp))
           end
  end.

(** Scanner.SearchWithFallback *)
Definition SearchWithFallback (q : SearchQuery) (x : SearchExchange) : error + list Item :=
  match Search x with
  | inl err => inl (wrapError ("search failed for '" +:+ qKeyword q +:+ "'") err)
  | inr items => inr items
  end.

(* =================================================================== *)
(** ** pkg/mercari: the CLIP image filter *)
(* =================================================================== *)

Record AIFilter := {
  apiKey : string;
  model : string;
  enabled : bool;
  keepLabels : list string;
  trashLabels : list string;
}.

(** NewAIFilter *)
Definition NewAIFilter (apiKey model : string) (enabled : bool) : AIFilter :=
  {| apiKey := apiKey;
     model := model;
     enabled := enabled && negb (String.eqb apiKey "") && negb (String.eqb apiKey "YOUR_HF_API_KEY");
     keepLabels :=
       [ "a hat or cap"; "a beanie"; "a jacket or coat"; "a leather jacket";
         "a sweater or knitwear"; "a shirt or top"; "pants or trousers"; "shorts";
         "a designer handbag"; "a leather bag"; "a luxury wallet"; "designer shoes";
         "leather shoes or boots"; "sunglasses"; "a watch"; "jewelry";
         "fashion accessories" ];
     trashLabels :=
       [ "an empty box"; "a cardboard box"; "a shopping bag"; "a paper bag";
         "a receipt"; "a blurry photo"; "a logo tag only"; "a dust bag only" ] |}.

(** clipRequest with its clipInputs flattened. *)
Record clipRequest := {
  Image : string;
  CandidateLabels : list string;
}.

Record clipResponse := {
  Labels : list string;
  Scores : list float;
}.

(** A response body, by what encoding/json makes of it for the two
    targets classifyItem tries in turn: [BodyObject] unmarshals into a
    clipResponse; [BodyArray] fails for a clipResponse and unmarshals
    into a []clipResponse; [BodyMalformed] fails for both. *)
Inductive Body :=
| BodyObject (r : clipResponse)
| BodyArray (rs : list clipResponse)
| BodyMalformed.

Definition unmarshalObject (b : Body) : option clipResponse :=
  match b with BodyObject r => Some r | _ => None end.

Definition unmarshalArray (b : Body) : option (list clipResponse) :=
  match b with BodyArray rs => Some rs | _ => None end.

(** The parsing block of classifyItem: the body as a single object, else
    as an array, of which the first element counts; [None] is its
    parse_error exit. *)
Definition parseResponse (body : Body) : option clipResponse :=
  match unmarshalObject body with
  | Some clipResp => Some clipResp
  | None =>
      match unmarshalArray body with
      | Some (first :: _) => Some first
      | _ => None
      end
  end.

(** What one pass through classifyItem meets, in the order the function
    checks it. *)
Inductive ClipExchange :=
| ClipMarshalFailed
| ClipNewRequestFailed
| ClipDoFailed
| ClipReadFailed (status : Z)
| ClipReceived (status : Z) (body : Body).

Inductive Event :=
| Post (req : clipRequest)
| Sleep (d : Z).

(** The constant 0.3 of classifyItem, as the float64 it denotes. *)
Definition threshold : float := 0x1.3333333333333p-2%float.

(** The final loop of classifyItem over the trash labels. *)
Definition isTrash (f : AIFilter) (topLabel : string) (topScore : float) : bool :=
  existsb (fun trashLabel => String.eqb topLabel trashLabel && PrimFloat.ltb threshold topScore)
          (trashLabels f).

(** classifyItem.  [net req n] is what the [n]-th request of this call
    chain meets.  The function calls itself after a 503, so it takes fuel;
    [None] is a chain that has not ended within the fuel.  Beside the
    returned triple it reports the requests sent and the sleeps taken. *)
Fixpoint classifyItem (fuel : nat) (f : AIFilter) (net : clipRequest -> nat -> ClipExchange)
         (n : nat) (item : Item) : option (bool * string * float * list Event) :=
  match fuel with
  | O => None
  | S fuel' =>
      match ImageURLs item with
      | [] => Some (true, "no_image", PrimFloat.zero, [])
      | imageURL :: _ =>
          let allLabels := keepLabels f ++ trashLabels f in
          let reqBody := {| Image := imageURL; CandidateLabels := allLabels |} in
          match net reqBody n with
          | ClipMarshalFailed => Some (true, "error", PrimFloat.zero, [])
          | ClipNewRequestFailed => Some (true, "error", PrimFloat.zero, [])
          | ClipDoFailed => Some (true, "error", PrimFloat.zero, [Post reqBody])
          | ClipReadFailed _ => Some (true, "error", PrimFloat.zero, [Post reqBody])
          | ClipReceived status body =>
              if negb (status =? 200) then
                if status =? 503 then
                  match classifyItem fuel' f net (S n) item with
                  | Some (k, l, s, evs) => Some (k, l, s, Post reqBody :: Sleep (20 * Second) :: evs)
                  | None => None
                  end
                else Some (true, "api_error", PrimFloat.zero, [Post reqBody])
              else
                match parseResponse body with
                | None => Some (true, "parse_error", PrimFloat.zero, [Post reqBody])
                | Some clipResp =>
                    match Labels clipResp, Scores clipResp with
                    | topLabel :: _, topScore :: _ =>
                        if isTrash f topLabel topScore
                        then Some (false, topLabel, topScore, [Post reqBody])
                        else Some (true, topLabel, topScore, [Post reqBody])
                    | _, _ => Some (true, "empty_result", PrimFloat.zero, [Post reqBody])
                    end
                end
          end
      end
  end.

(** The number of HTTP requests in an event log. *)
Fixpoint requests (evs : list Event) : nat :=
  match evs with
  | [] => 0
  | Post _ :: rest => S (requests rest)
  | Sleep _ :: rest => requests rest
  end.

(** The sleeps of an event log, in order. *)
Fixpoint sleeps (evs : list Event) : list Z :=
  match evs with
  | [] => []
  | Post _ :: rest => sleeps rest
  | Sleep d :: rest => d :: sleeps rest
  end.

(** The local [result] struct of FilterItems. *)
Record result := {
  index : nat;
  keep : bool;
  label : string;
  score : float;
}.

Definition zeroResult : result :=
  {| index := 0; keep := false; label := ""; score := PrimFloat.zero |}.

(** What is stored into results[i] for [item]: by the dispatch loop when
    the item has no image, by the goroutine of index [i] otherwise.
    [net i] is the network as that goroutine meets it. *)
Definition slotResult (fuel : nat) (f : AIFilter) (net : nat -> clipRequest -> nat -> ClipExchange)
           (i : nat) (item : Item) : option result :=
  match ImageURLs item with
  | [] => Some {| index := i; keep := true; label := "no_image"; score := PrimFloat.zero |}
  | _ :: _ =>
      match classifyItem fuel f (net i) 0 item with
      | Some (k, l, s, _) => Some {| index := i; keep := k; label := l; score := s |}
      | None => None
      end
  end.

(** The store results[i] = ... for an index of [items]. *)
Definition writeSlot (fuel : nat) (f : AIFilter) (net : nat -> clipRequest -> nat -> ClipExchange)
           (items : list Item) (results : list result) (i : nat) : option (list result) :=
  match items !! i with
  | Some item =>
      match slotResult fuel f net i item with
      | Some r => Some (<[i := r]> results)
      | None => None
      end
  | None => Some results
  end.

(** One store, on a [results] that is lost once a classification has not
    ended. *)
Definition storeStep (fuel : nat) (f : AIFilter) (net : nat -> clipRequest -> nat -> ClipExchange)
           (items : list Item) (acc : option (list result)) (i : nat) : option (list result) :=
  match acc with
  | Some results => writeSlot fuel f net items results i
  | None => None
  end.

(** All stores into [results], in the order [order] in which they
    happen.  Goroutines finish in any order, so [order] is any
    arrangement of the indices (the semaphore only bounds how many are in
    flight, three, not the order); wg.Wait returns once all are done, and
    never when one classification does not end. *)
Definition runWorkers (fuel : nat) (f : AIFilter) (net : nat -> clipRequest -> nat -> ClipExchange)
           (items : list Item) (order : list nat) : option (list result) :=
  foldl (storeStep fuel f net items) (Some (replicate (length items) zeroResult)) order.

(** The collecting loop: for i, r := range results. *)
Fixpoint collectKept (items : list Item) (i : nat) (results : list result) : list Item :=
  match results with
  | [] => []
  | r :: rs =>
      if keep r
      then match items !! i with
           | Some item => item :: collectKept items (S i) rs
           | None => collectKept items (S i) rs
           end
      else collectKept items (S i) rs
  end.

(** FilterItems under a given completion order of the stores. *)
Definition FilterItemsSched (fuel : nat) (f : AIFilter) (net : nat -> clipRequest -> nat -> ClipExchange)
           (order : list nat) (items : list Item) : option (list Item) :=
  if negb (enabled f) then Some items
  else
    match items with
    | [] => Some items
    | _ :: _ =>
        match runWorkers fuel f net items order with
        | Some results => Some (collectKept items 0 results)
        | None => None
        end
    end.

(** FilterItems with the stores taken in index order. *)
Definition FilterItems (fuel : nat) (f : AIFilter) (net : nat -> clipRequest -> nat -> ClipExchange)
           (items : list Item) : option (list Item) :=
  FilterItemsSched fuel f net (seq 0 (length items)) items.

(** *** Vocabulary of the filter's properties *)

(** The model-loading signal: a reply with status 503. *)
Definition loading (x : ClipExchange) : bool :=
  match x with
  | ClipReceived status _ => status =? 503
  | _ => false
  end.

(** A pass that ends in an error: a request that could not be built or
    sent, a body that could not be read, a status other than 200 and 503, a
    body that parses neither way, or a result without labels or scores. *)
Definition classifierError (x : ClipExchange) : bool :=
  match x with
  | ClipMarshalFailed | ClipNewRequestFailed | ClipDoFailed | ClipReadFailed _ => true
  | ClipReceived status body =>
      if status =? 200 then
        match parseResponse body with
        | None => true
        | Some clipResp =>
            match Labels clipResp, Scores clipResp with
            | _ :: _, _ :: _ => false
            | _, _ => true
            end
        end
      else negb (status =? 503)
  end.

Definition diagnosticLabels : list string :=
  ["error"; "api_error"; "parse_error"; "empty_result"].

(** A pass whose reply ranks a reject-set label first with a score above
    the threshold. *)
Definition rejecting (f : AIFilter) (x : ClipExchange) : bool :=
  match x with
  | ClipReceived status body =>
      (status =? 200) &&
      match parseResponse body with
      | Some clipResp =>
          match Labels clipResp, Scores clipResp with
          | topLabel :: _, topScore :: _ =>
              bool_decide (topLabel ∈ trashLabels f) && PrimFloat.ltb threshold topScore
          | _, _ => false
          end
      | None => false
      end
  | _ => false
  end.

(** The request classifyItem sends for an image. *)
Definition requestFor (f : AIFilter) (imageURL : string) : clipRequest :=
  {| Image := imageURL; CandidateLabels := keepLabels f ++ trashLabels f |}.

(** What the stores put into [results], position by position. *)
Fixpoint slotsFrom (fuel : nat) (f : AIFilter) (net : nat -> clipRequest -> nat -> ClipExchange)
         (i : nat) (items : list Item) : option (list result) :=
  match items with
  | [] => Some []
  | item :: rest =>
      match slotResult fuel f net i item with
      | Some r =>
          match slotsFrom fuel f net (S i) rest with
          | Some rs => Some (r :: rs)
          | None => None
          end
      | None => None
      end
  end.

(** The filter as a plain pass over the list, one decision per position. *)
Fixpoint filterFrom (fuel : nat) (f : AIFilter) (net : nat -> clipRequest -> nat -> ClipExchange)
         (i : nat) (items : list Item) : option (list Item) :=
  match items with
  | [] => Some []
  | item :: rest =>
      match slotResult fuel f net i item with
      | Some r =>
          match filterFrom fuel f net (S i) rest with
          | Some keptRest => Some (if keep r then item :: keptRest else keptRest)
          | None => None
          end
      | None => None
      end
  end.

(* =================================================================== *)
(** ** pkg/mercari: helpers of the token generator *)
(* =================================================================== *)

(** padTo32, on bytes as integers from 0 to 255. *)
Definition padTo32 (b : list Z) : list Z :=
  if (32 <=? length b)%nat then slice b 0 32
  else
    let padded := replicate 32 0 in
    copy padded (32 - length b) b.

(** The digits of the verb %x. *)
Definition ldigits : string := "0123456789abcdef".

Definition hexDigit (n : Z) : ascii :=
  match String.get (Z.to_nat n) ldigits with
  | Some c => c
  | None => "0"%char
  end.

(** The verb %x on a byte slice: two digits per byte.  Each width of
    generateUUID is twice the length of its slice, so that it adds
    nothing. *)
Fixpoint hexBytes (bs : list Z) : string :=
  match bs with
  | [] => ""
  | b :: rest => String (hexDigit (Z.shiftr b 4)) (String (hexDigit (Z.land b 15)) (hexBytes rest))
  end.

(** generateUUID.  [rnd] are the bytes rand.Read wrote into the buffer:
    all sixteen, or fewer when it failed, which the function ignores. *)
Definition generateUUID (rnd : list Z) : string :=
  let b := replicate 16 0 in
  let b := copy b 0 rnd in
  let b := <[6%nat := Z.lor (Z.land (default 0 (b !! 6%nat)) 15) 64]> b in
  let b := <[8%nat := Z.lor (Z.land (default 0 (b !! 8%nat)) 63) 128]> b in
  hexBytes (slice b 0 4) +:+ "-" +:+ hexBytes (slice b 4 6) +:+ "-" +:+ hexBytes (slice b 6 8)
    +:+ "-" +:+ hexBytes (slice b 8 10) +:+ "-" +:+ hexBytes (slice b 10 16).

(** *** Vocabulary of the helpers' properties *)

(** The number a byte string spells, most significant byte first. *)
Definition bigEndian (bs : list Z) : Z := fold_left (fun acc b => acc * 256 + b) bs 0.

(** A lower-case hexadecimal digit. *)
Definition isHex (c : ascii) : bool :=
  inRange 48 57 c || inRange 97 102 c.

End Mercari.

(* ===================================================================== *)
(** ** pkg/store: the dedup store *)
(* ===================================================================== *)

Module Store.

Import Go.

(** One row of seen_items; the id is the primary key. *)
Record SeenRecord := {
  brand : string;
  name : string;
  price : Z;
  seen_at : Z;
}.

(** The database behind the handle: the seen_items table, and the error
    every statement meets while the storage cannot be used. *)
Record DedupStore := {
  seen_items : gmap string SeenRecord;
  fault : option error;
}.

(** SELECT COUNT( * ) FROM seen_items WHERE id = ? *)
Definition queryCountID (s : DedupStore) (itemID : string) : error + Z :=
  match fault s with
  | Some e => inl e
  | None => inr (match seen_items s !! itemID with Some _ => 1 | None => 0 end)
  end.

(** HasSeen *)
Definition HasSeen (s : DedupStore) (itemID : string) : bool :=
  match queryCountID s itemID with
  | inl _ => false
  | inr count => 0 <? count
  end.

(** INSERT OR IGNORE INTO seen_items ... *)
Definition insertOrIgnore (tbl : gmap string SeenRecord) (itemID : string) (r : SeenRecord)
  : gmap string SeenRecord :=
  match tbl !! itemID with
  | Some _ => tbl
  | None => <[itemID := r]> tbl
  end.

(** MarkSeen at clock reading [now]: the returned error and the store
    afterwards. *)
Definition MarkSeen (s : DedupStore) (itemID brand name : string) (price : Z) (now : Z)
  : option error * DedupStore :=
  match fault s with
  | Some e => (Some (wrapError "marking item seen" e), s)
  | None =>
      (None,
       {| seen_items := insertOrIgnore (seen_items s) itemID
                          {| brand := brand; name := name; price := price; seen_at := now |};
          fault := None |})
  end.

(** The rows of seen_items that carry a given id. *)
Definition rowsWithID (tbl : gmap string SeenRecord) (itemID : string)
  : list (string * SeenRecord) :=
  List.filter (fun kr => String.eqb (fst kr) itemID) (map_to_list tbl).

(** Count *)
Definition Count (s : DedupStore) : Z :=
  match fault s with
  | Some _ => 0
  | None => Z.of_nat (size (seen_items s))
  end.

(** cleanup at clock reading [now]: rows older than seven days go. *)
Definition cleanup (s : DedupStore) (now : Z) : DedupStore :=
  match fault s with
  | Some _ => s
  | None =>
      let cutoff := now - 7 * 24 * 3600 * Second in
      {| seen_items := filter (fun kr => Is_true (cutoff <=? seen_at (snd kr))) (seen_items s);
         fault := None |}
  end.

(** What the statements that NewDedupStore runs before cleanup meet, in
    order: each of the four PRAGMAs and CREATE TABLE IF NOT EXISTS, each
    with the error it returns, if any.  The storage may fail or recover
    from one statement to the next. *)
Record Startup := {
  pragmaErrs : list (option error);
  createErr : option error;
}.

(** NewDedupStore at clock reading [now].  [opened] is what sql.Open
    yields: an error, or the database behind the handle as the DELETE of
    cleanup and the statements after it meet it.  A PRAGMA that fails is
    only logged, so [pragmaErrs] does not enter the result; a CREATE
    TABLE that fails ends the call; cleanup runs last, and when its
    DELETE fails the store is returned all the same. *)
Definition NewDedupStore (opened : error + DedupStore) (met : Startup) (now : Z)
  : error + DedupStore :=
  match opened with
  | inl err => inl (wrapError "opening sqlite db" err)
  | inr db =>
      match createErr met with
      | Some err => inl (wrapError "creating table" err)
      | None => inr (cleanup db now)
      end
  end.

(** The seven days of cleanup, in nanoseconds. *)
Definition sevenDays : Z := 7 * 24 * 3600 * Second.

End Store.

(* ===================================================================== *)
(** ** pkg/telegram and config *)
(* ===================================================================== *)

Module Telegram.

Import Go.

Record DealItem := {
  Name : string;
  Price : Z;
  BrandName : string;
  ImageURL : string;
  ItemURL : string;
  AgeMin : float;
}.

(** What leaves for the Bot API: a deal as a photo with caption, a deal
    as a text message, or the scan summary. *)
Inductive Outgoing :=
| sendPhoto (deal : DealItem)
| sendMessage (deal : DealItem)
| sendSummary (totalFound totalNew totalSent : nat).

(** What doRequest meets. *)
Inductive DoExchange :=
| TgPostFailed (e : error)
| TgReadFailed (e : error)
| TgParseFailed (e : error)
| TgReplied (ok : bool) (description : string).

(** What sendPhoto or sendMessage meets: a request that cannot be
    marshalled, or what doRequest meets. *)
Inductive TgExchange :=
| TgMarshalFailed (e : error)
| TgRequest (x : DoExchange).

(** doRequest *)
Definition doRequest (x : DoExchange) : option error :=
  match x with
  | TgPostFailed e => Some (wrapError "telegram request failed" e)
  | TgReadFailed e => Some (wrapError "reading telegram response" e)
  | TgParseFailed e => Some (wrapError "parsing telegram response" e)
  | TgReplied ok description =>
      if ok then None else Some (errorString ("telegram API error: " +:+ description))
  end.

(** sendPhoto and sendMessage (the scan summary is a sendMessage). *)
Definition send (o : Outgoing) (x : TgExchange) : option error :=
  match x with
  | TgMarshalFailed e =>
      match o with
      | sendPhoto _ => Some (wrapError "marshaling photo request" e)
      | _ => Some (wrapError "marshaling message request" e)
      end
  | TgRequest x' => doRequest x'
  end.

(** SendDeal: the request it makes. *)
Definition dealRequest (deal : DealItem) : Outgoing :=
  if negb (String.eqb (ImageURL deal) "") then sendPhoto deal else sendMessage deal.

(** *** The command listener *)

Record chat := {
  ID : Z;
}.

Record message := {
  Chat : option chat;
  Text : string;
}.

Record update := {
  UpdateID : Z;
  Message : option message;
}.

(** telegramResponse as getUpdates reads it; [Result] is what
    json.Unmarshal makes of the raw result field. *)
Record telegramResponse := {
  OK : bool;
  Description : string;
  Result : error + list update;
}.

(** What getUpdates meets: a GET that fails, or a reply with its status
    and what the decoder makes of its body. *)
Inductive UpdatesExchange :=
| GetFailed (e : error)
| GetReceived (status : Z) (decoded : error + telegramResponse).

(** getUpdates *)
Definition getUpdates (offset : Z) (x : UpdatesExchange) : list update * Z * option error :=
  match x with
  | GetFailed err => ([], offset, Some err)
  | GetReceived status decoded =>
      if negb (status =? 200)
      then ([], offset, Some (errorString ("bad status: " +:+ pretty status)))
      else
        match decoded with
        | inl err => ([], offset, Some err)
        | inr tgResp =>
            if negb (OK tgResp)
            then ([], offset, Some (errorString ("api error: " +:+ Description tgResp)))
            else
              match Result tgResp with
              | inl err => ([], offset, Some err)
              | inr updates =>
                  (updates,
                   match last updates with
                   | Some up => wrap64 (UpdateID up + 1)
                   | None => offset
                   end,
                   None)
              end
        end
  end.

(** What the loop of ListenForCommands does with one update: it skips
    it, answers it with the status, or panics on the chat that is not
    there. *)
Inductive Verdict := Skip | Answer | NilChat.

Definition command (chatID : string) (up : update) : Verdict :=
  match Message up with
  | None => Skip
  | Some m =>
      if String.eqb (Text m) "" then Skip
      else
        match Chat m with
        | None => NilChat
        | Some c =>
            if negb (String.eqb (pretty (ID c)) chatID) then Skip
            else if HasPrefix (Text m) "/check" || HasPrefix (Text m) "/status" then Answer
            else Skip
        end
  end.

(** The state of the listener: the offset, how many polls and calls of
    getStatus it has made, the status messages it has sent and the sleeps
    it has taken, both oldest first. *)
Record Listener := {
  offset : Z;
  polls : nat;
  statusCalls : nat;
  replies : list string;
  naps : list Z;
}.

(** for _, up := range updates; [None] is the panic. *)
Fixpoint handleUpdates (chatID : string) (getStatus : nat -> string)
         (updates : list update) (st : Listener) : option Listener :=
  match updates with
  | [] => Some st
  | up :: rest =>
      match command chatID up with
      | Skip => handleUpdates chatID getStatus rest st
      | Answer =>
          let statusMsg := getStatus (statusCalls st) in
          handleUpdates chatID getStatus rest
            {| offset := offset st; polls := polls st; statusCalls := S (statusCalls st);
               replies := replies st ++ [statusMsg]; naps := naps st |}
      | NilChat => None
      end
  end.

(** One pass through the default branch of the loop.  [net n offset] is
    what the [n]-th poll meets. *)
Definition pollOnce (chatID : string) (getStatus : nat -> string)
           (net : nat -> Z -> UpdatesExchange) (st : Listener) : option Listener :=
  let '(updates, newOffset, err) := getUpdates (offset st) (net (polls st) (offset st)) in
  match err with
  | Some _ =>
      Some {| offset := offset st; polls := S (polls st); statusCalls := statusCalls st;
              replies := replies st; naps := naps st ++ [5 * Second] |}
  | None =>
      match handleUpdates chatID getStatus updates
              {| offset := newOffset; polls := S (polls st); statusCalls := statusCalls st;
                 replies := replies st; naps := naps st |} with
      | Some st' =>
          Some {| offset := offset st'; polls := polls st'; statusCalls := statusCalls st';
                  replies := replies st'; naps := naps st' ++ [1 * Second] |}
      | None => None
      end
  end.

(** The loop of ListenForCommands over the [rounds] passes that find
    stopChan open. *)
Fixpoint listenLoop (chatID : string) (getStatus : nat -> string)
         (net : nat -> Z -> UpdatesExchange) (rounds : nat) (st : Listener) : option Listener :=
  match rounds with
  | O => Some st
  | S rounds' =>
      match pollOnce chatID getStatus net st with
      | Some st' => listenLoop chatID getStatus net rounds' st'
      | None => None
      end
  end.

(** ListenForCommands: the loop from offset 0. *)
Definition ListenForCommands (chatID : string) (getStatus : nat -> string)
           (net : nat -> Z -> UpdatesExchange) (rounds : nat) : option Listener :=
  listenLoop chatID getStatus net rounds
    {| offset := 0; polls := 0; statusCalls := 0; replies := []; naps := [] |}.

(** The updates a poll hands to the loop. *)
Definition polled (offset : Z) (x : UpdatesExchange) : list update :=
  match getUpdates offset x with
  | (updates, _, None) => updates
  | (_, _, Some _) => []
  end.

(** How many of the updates are answered. *)
Definition answered (chatID : string) (updates : list update) : nat :=
  length (List.filter (fun up => match command chatID up with Answer => true | _ => false end)
                      updates).

(** What a poll delivers, read off the exchange: the updates of a reply
    with status 200 whose body decodes, says ok and carries a result that
    unmarshals; nothing otherwise. *)
Definition delivered (x : UpdatesExchange) : option (list update) :=
  match x with
  | GetReceived status (inr tgResp) =>
      match Result tgResp with
      | inr updates => if (status =? 200) && OK tgResp then Some updates else None
      | inl _ => None
      end
  | _ => None
  end.

(** The exchanges that the passes of the loop meet, one per pass. *)
Fixpoint met (chatID : string) (getStatus : nat -> string)
         (net : nat -> Z -> UpdatesExchange) (rounds : nat) (st : Listener)
  : list UpdatesExchange :=
  match rounds with
  | O => []
  | S rounds' =>
      net (polls st) (offset st) ::
      match pollOnce chatID getStatus net st with
      | Some st' => met chatID getStatus net rounds' st'
      | None => []
      end
  end.

(** *** Formatting *)

(** escapeHTML *)
Definition escapeHTML (s : string) : string :=
  let s := ReplaceAll s "&" "&amp;" in
  let s := ReplaceAll s "<" "&lt;" in
  let s := ReplaceAll s ">" "&gt;" in
  s.

(** The loop of formatPrice over the bytes of the decimal spelling, of
    length [len], from index [i] on. *)
Fixpoint groupLoop (len i : nat) (cs : list ascii) : list ascii :=
  match cs with
  | [] => []
  | c :: rest =>
      if (0 <? i)%nat && ((len - i) mod 3 =? 0)%nat
      then ","%char :: c :: groupLoop len (S i) rest
      else c :: groupLoop len (S i) rest
  end.

(** formatPrice; the verb %d is [pretty]. *)
Definition formatPrice (price : Z) : string :=
  let s := pretty price in
  if (String.length s <=? 3)%nat then s
  else string_of_list_ascii (groupLoop (String.length s) 0 (list_ascii_of_string s)).

Definition newline : string := String "010"%char "".
Definition quote : string := String "034"%char "".

(** formatDealCaption *)
Definition formatDealCaption (deal : DealItem) : string :=
  let sb := "" in
  let sb := sb +:+ ("🔥 <b>" +:+ escapeHTML (Name deal) +:+ "</b>" +:+ newline) in
  let sb := sb +:+ ("💰 ¥" +:+ formatPrice (Price deal) +:+ newline) in
  let sb := if negb (String.eqb (BrandName deal) "")
            then sb +:+ ("🏷 " +:+ escapeHTML (BrandName deal) +:+ newline)
            else sb in
  let sb := sb +:+ ("📦 Posted " +:+ fmtFloat0 (AgeMin deal) +:+ " min ago" +:+ newline) in
  let sb := sb +:+ ("🔗 <a href=" +:+ quote +:+ ItemURL deal +:+ quote +:+ ">View on Mercari</a>") in
  sb.

(** *** Vocabulary of the formatting properties *)

(** What escapeHTML makes of one byte. *)
Definition escapeByte (c : ascii) : string :=
  if Ascii.eqb c "&" then "&amp;"
  else if Ascii.eqb c "<" then "&lt;"
  else if Ascii.eqb c ">" then "&gt;"
  else String c "".

(** The decimal digit [d] as a byte. *)
Definition digit (d : Z) : ascii := pretty_N_char (Z.to_N d).

(** The three decimal digits of a number below one thousand. *)
Definition threeDigits (n : Z) : string :=
  String (digit (n / 100 mod 10)) (String (digit (n / 10 mod 10)) (String (digit (n mod 10)) "")).

(** A byte of a decimal spelling: a digit or the minus sign. *)
Definition signOrDigit (c : ascii) : bool :=
  Ascii.eqb c "-" || (Nat.leb 48 (nat_of_ascii c) && Nat.leb (nat_of_ascii c) 57).

(** The grouping loop seen from the bytes that are left: a comma goes
    before a byte when the bytes left, that one included, are a multiple
    of three. *)
Fixpoint grouped (cs : list ascii) : list ascii :=
  match cs with
  | [] => []
  | c :: rest =>
      if (length cs mod 3 =? 0)%nat then ","%char :: c :: grouped rest else c :: grouped rest
  end.

(** How often the byte [c] stands in [s]. *)
Definition countByte (c : ascii) (s : string) : nat :=
  length (List.filter (Ascii.eqb c) (list_ascii_of_string s)).

End Telegram.

Module Config.

Record Brand := {
  Name : string;
  Keywords : list string;
  BrandPriceMin : Z;
  BrandPriceMax : Z;
}.

Record Config := {
  Brands : list Brand;
  PriceMin : Z;
  PriceMax : Z;
  ScanIntervalMin : Z;
  MaxAgeMinutes : Z;
  MaxDealsPerBrand : Z;
  DefaultCategories : list Z;
  EnableAIFilter : bool;
}.

(** GetPriceRange *)
Definition GetPriceRange (c : Config) (brand : Brand) : Z * Z :=
  let pMin := if 0 <? BrandPriceMin brand then BrandPriceMin brand else PriceMin c in
  let pMax := if 0 <? BrandPriceMax brand then BrandPriceMax brand else PriceMax c in
  (pMin, pMax).

(** The defaults LoadConfig applies to what it has read. *)
Definition applyDefaults (c : Config) : Config :=
  {| Brands := Brands c;
     PriceMin := if PriceMin c <=? 0 then 3000 else PriceMin c;
     PriceMax := if PriceMax c <=? 0 then 15000 else PriceMax c;
     ScanIntervalMin := if ScanIntervalMin c <=? 0 then 10 else ScanIntervalMin c;
     MaxAgeMinutes := if MaxAgeMinutes c <=? 0 then 180 else MaxAgeMinutes c;
     MaxDealsPerBrand := if MaxDealsPerBrand c <=? 0 then 5 else MaxDealsPerBrand c;
     DefaultCategories := match DefaultCategories c with [] => [1; 2] | cs => cs end;
     EnableAIFilter := EnableAIFilter c |}.

(** The credentials of the struct Config. *)
Record TelegramConfig := {
  BotToken : string;
  ChatID : string;
}.

Record HFConfig := {
  APIKey : string;
  Model : string;
}.

(** The whole struct Config as LoadConfig fills and checks it: the
    credentials, and in [Scan] the fields that a scan cycle reads. *)
Record Settings := {
  Telegram : TelegramConfig;
  HuggingFace : HFConfig;
  Scan : Config;
}.

(** What LoadConfig finds at its path: a file that os.ReadFile cannot
    read, one that json.Unmarshal rejects, or one that decodes, the absent
    fields being zero. *)
Inductive ConfigFile :=
| Unreadable (err : Go.error)
| Malformed (err : Go.error)
| Decoded (c : Settings).

(** LoadConfig *)
Definition LoadConfig (path : string) (file : ConfigFile) : Go.error + Settings :=
  match file with
  | Unreadable err => inl (Go.wrapError ("cannot read config file " +:+ path) err)
  | Malformed err => inl (Go.wrapError "invalid config JSON" err)
  | Decoded c =>
      let cfg :=
        {| Telegram := Telegram c;
           HuggingFace :=
             {| APIKey := APIKey (HuggingFace c);
                Model := if String.eqb (Model (HuggingFace c)) ""
                         then "openai/clip-vit-large-patch14"
                         else Model (HuggingFace c) |};
           Scan := applyDefaults (Scan c) |} in
      if String.eqb (BotToken (Telegram cfg)) ""
      then inl (Go.errorString "telegram.bot_token is required")
      else if String.eqb (ChatID (Telegram cfg)) ""
      then inl (Go.errorString "telegram.chat_id is required")
      else if (length (Brands (Scan cfg)) =? 0)%nat
      then inl (Go.errorString "at least one brand is required")
      else inr cfg
  end.

End Config.

(* ===================================================================== *)
(** ** cmd/autobot: the retry and cycle orchestrators *)
(* ===================================================================== *)

Module Bot.

Import Go.

(** The outside of the process: what the n-th search, the goroutines of
    the n-th FilterItems call and the n-th Telegram request meet, the
    n-th raw draw of math/rand, and the n-th reading of the wall clock
    (Unix nanoseconds). *)
Record Env := {
  searchNet : nat -> Mercari.SearchQuery -> Mercari.SearchExchange;
  clipNet : nat -> nat -> Mercari.clipRequest -> nat -> Mercari.ClipExchange;
  telegramNet : nat -> Telegram.Outgoing -> Telegram.TgExchange;
  randSource : nat -> Z;
  clock : nat -> Z;
}.

(** The state a cycle threads: the dedup store, how much of each part of
    the outside has been used, the sleeps taken and the Telegram requests
    made (both oldest first), and the status fields of Bot. *)
Record World := {
  store : Store.DedupStore;
  searches : nat;
  filters : nat;
  posts : nat;
  draws : nat;
  ticks : nat;
  slept : list Z;
  outbox : list Telegram.Outgoing;
  lastScanTime : option Z;
  runCount : nat;
}.

(** A computation ends with a value and a world, panics, or hangs on a
    classification that never ends. *)
Inductive Outcome (A : Type) : Type :=
| Done (a : A) (w : World)
| Panicked (msg : string)
| Hung.
Arguments Done {A} a w.
Arguments Panicked {A} msg.
Arguments Hung {A}.

Definition M (A : Type) : Type := World -> Outcome A.

Definition ret {A : Type} (a : A) : M A := fun w => Done a w.

Definition bind {A B : Type} (m : M A) (k : A -> M B) : M B :=
  fun w => match m w with
           | Done a w' => k a w'
           | Panicked msg => Panicked msg
           | Hung => Hung
           end.

Definition panic {A : Type} (msg : string) : M A := fun _ => Panicked msg.

Declare Scope bot_scope.
Delimit Scope bot_scope with bot.
Notation "x <- m ;; k" := (bind m (fun x => k))
  (at level 100, m at next level, right associativity) : bot_scope.
Notation "m ;;; k" := (bind m (fun _ => k))
  (at level 100, right associativity) : bot_scope.
Local Open Scope bot_scope.

(** The counters of one brand or one cycle.  scanBrand returns [found],
    [unseen] (its newItems) and [sent]; [fresh] and [kept] are the sizes
    of its local slices of the same names, which it prints per keyword,
    added up here the same way. *)
Record Stats := {
  found : nat;
  fresh : nat;
  unseen : nat;
  kept : nat;
  sent : nat;
}.

Definition noStats : Stats := {| found := 0; fresh := 0; unseen := 0; kept := 0; sent := 0 |}.

Definition addStats (a b : Stats) : Stats :=
  {| found := found a + found b;
     fresh := fresh a + fresh b;
     unseen := unseen a + unseen b;
     kept := kept a + kept b;
     sent := sent a + sent b |}.

Section WithBot.

(** The fields of Bot that a cycle reads, and the outside. *)
Variable cfg : Config.Config.
Variable filter : Mercari.AIFilter.
Variable env : Env.
(** How many passes through classifyItem one classification is followed for. *)
Variable fuel : nat.

(** time.Now / time.Since *)
Definition tick : M Z := fun w =>
  Done (clock env (ticks w))
       {| store := store w; searches := searches w; filters := filters w; posts := posts w;
          draws := draws w; ticks := S (ticks w); slept := slept w; outbox := outbox w;
          lastScanTime := lastScanTime w; runCount := runCount w |}.

(** rand.Intn(n) *)
Definition randIntn (n : Z) : M Z := fun w =>
  Done (Intn (randSource env (draws w)) n)
       {| store := store w; searches := searches w; filters := filters w; posts := posts w;
          draws := S (draws w); ticks := ticks w; slept := slept w; outbox := outbox w;
          lastScanTime := lastScanTime w; runCount := runCount w |}.

(** time.Sleep(d) *)
Definition sleep (d : Z) : M unit := fun w =>
  Done tt
       {| store := store w; searches := searches w; filters := filters w; posts := posts w;
          draws := draws w; ticks := ticks w; slept := slept w ++ [d]; outbox := outbox w;
          lastScanTime := lastScanTime w; runCount := runCount w |}.

(** b.scanner.SearchWithFallback(...) *)
Definition searchWithFallback (q : Mercari.SearchQuery) : M (error + list Mercari.Item) := fun w =>
  Done (Mercari.SearchWithFallback q (searchNet env (searches w) q))
       {| store := store w; searches := S (searches w); filters := filters w; posts := posts w;
          draws := draws w; ticks := ticks w; slept := slept w; outbox := outbox w;
          lastScanTime := lastScanTime w; runCount := runCount w |}.

(** One request of the notifier. *)
Definition telegram (o : Telegram.Outgoing) : M (option error) := fun w =>
  Done (Telegram.send o (telegramNet env (posts w) o))
       {| store := store w; searches := searches w; filters := filters w; posts := S (posts w);
          draws := draws w; ticks := ticks w; slept := slept w; outbox := outbox w ++ [o];
          lastScanTime := lastScanTime w; runCount := runCount w |}.

(** b.notifier.SendDeal(deal) *)
Definition SendDeal (deal : Telegram.DealItem) : M (option error) :=
  telegram (Telegram.dealRequest deal).

(** b.store.HasSeen(id) *)
Definition hasSeen (itemID : string) : M bool := fun w =>
  Done (Store.HasSeen (store w) itemID) w.

(** b.store.MarkSeen(...) *)
Definition markSeen (itemID brand name : string) (price : Z) : M (option error) :=
  now <- tick ;;
  fun w =>
    let '(err, s') := Store.MarkSeen (store w) itemID brand name price now in
    Done err
         {| store := s'; searches := searches w; filters := filters w; posts := posts w;
            draws := draws w; ticks := ticks w; slept := slept w; outbox := outbox w;
            lastScanTime := lastScanTime w; runCount := runCount w |}.

(** b.filter.FilterItems(items) *)
Definition filterItems (items : list Mercari.Item) : M (list Mercari.Item) := fun w =>
  match Mercari.FilterItems fuel filter (clipNet env (filters w)) items with
  | Some keptItems =>
      Done keptItems
           {| store := store w; searches := searches w; filters := S (filters w); posts := posts w;
              draws := draws w; ticks := ticks w; slept := slept w; outbox := outbox w;
              lastScanTime := lastScanTime w; runCount := runCount w |}
  | None => Hung
  end.

(** The wait before retry [attempt]: 1<<uint(attempt-1) seconds plus
    rand.Intn(1000) milliseconds, in int64 nanoseconds. *)
Definition backoff (attempt : Z) : Z :=
  wrap64 (wrap64 (Z.shiftl 1 (attempt - 1)) * Second).

Definition retryWait (attempt : Z) : M unit :=
  r <- randIntn 1000 ;;
  let jitter := wrap64 (r * Millisecond) in
  sleep (wrap64 (backoff attempt + jitter)).

(** The loop of searchWithRetry from [attempt] on, with [remaining]
    iterations left; the result is the items, or lastErr. *)
Fixpoint retryLoop (q : Mercari.SearchQuery) (remaining : nat) (attempt : Z)
         (lastErr : option error) : M (option error + list Mercari.Item) :=
  match remaining with
  | O => ret (inl lastErr)
  | S remaining' =>
      (if 0 <? attempt then retryWait attempt else ret tt) ;;;
      r <- searchWithFallback q ;;
      match r with
      | inr items => ret (inr items)
      | inl err => retryLoop q remaining' (attempt + 1) (Some err)
      end
  end.

(** searchWithRetry *)
Definition searchWithRetry (keyword : string) (priceMin priceMax maxRetries : Z)
  : M (error + list Mercari.Item) :=
  let q := {| Mercari.qKeyword := keyword;
              Mercari.qPriceMin := priceMin;
              Mercari.qPriceMax := priceMax;
              Mercari.qCategories := Config.DefaultCategories cfg;
              Mercari.qLimit := wrap64 (Config.MaxDealsPerBrand cfg * 2) |} in
  r <- retryLoop q (Z.to_nat (maxRetries + 1)) 0 None ;;
  match r with
  | inr items => ret (inr items)
  | inl (Some lastErr) =>
      ret (inl (wrapError ("all " +:+ pretty maxRetries +:+ " retries failed") lastErr))
  | inl None =>
      ret (inl (errorString ("all " +:+ pretty maxRetries +:+ " retries failed: %!w(<nil>)")))
  end.

(** The age filter of scanBrand; each AgeMinutes reads the clock. *)
Fixpoint ageFilter (items : list Mercari.Item) : M (list Mercari.Item) :=
  match items with
  | [] => ret []
  | item :: rest =>
      now <- tick ;;
      let age := Mercari.AgeMinutes now item in
      freshRest <- ageFilter rest ;;
      ret (if PrimFloat.leb age (float64_of_int (Config.MaxAgeMinutes cfg))
           then item :: freshRest else freshRest)
  end.

(** The dedup filter of scanBrand. *)
Fixpoint dedupFilter (freshItems : list Mercari.Item) : M (list Mercari.Item) :=
  match freshItems with
  | [] => ret []
  | item :: rest =>
      seen <- hasSeen (Mercari.ID item) ;;
      unseenRest <- dedupFilter rest ;;
      ret (if negb seen then item :: unseenRest else unseenRest)
  end.

(** unseen[:MaxDealsPerBrand] when unseen is longer. *)
Definition capDeals (unseenItems : list Mercari.Item) : M (list Mercari.Item) :=
  if Config.MaxDealsPerBrand cfg <? Z.of_nat (length unseenItems) then
    if Config.MaxDealsPerBrand cfg <? 0 then panic "slice bounds out of range"
    else ret (take (Z.to_nat (Config.MaxDealsPerBrand cfg)) unseenItems)
  else ret unseenItems.

Definition firstImage (urls : list string) : string :=
  match urls with
  | u :: _ => u
  | [] => ""
  end.

(** The notification loop of scanBrand; the result is how many times
    sent++ ran. *)
Fixpoint notifyLoop (brand : Config.Brand) (keptItems : list Mercari.Item) : M nat :=
  match keptItems with
  | [] => ret 0%nat
  | item :: rest =>
      now <- tick ;;
      let deal := {| Telegram.Name := Mercari.Name item;
                     Telegram.Price := Mercari.Price item;
                     Telegram.BrandName := Config.Name brand;
                     Telegram.ImageURL := firstImage (Mercari.ImageURLs item);
                     Telegram.ItemURL := Mercari.ItemURL item;
                     Telegram.AgeMin := Mercari.AgeMinutes now item |} in
      r <- SendDeal deal ;;
      match r with
      | Some _ => notifyLoop brand rest
      | None =>
          markSeen (Mercari.ID item) (Config.Name brand) (Mercari.Name item) (Mercari.Price item) ;;;
          sleep (200 * Millisecond) ;;;
          n <- notifyLoop brand rest ;;
          ret (S n)
      end
  end.

(** One iteration of the keyword loop of scanBrand: what it adds to
    the counters. *)
Definition scanKeyword (brand : Config.Brand) (pMin pMax : Z) (keyword : string) : M Stats :=
  r <- searchWithRetry keyword pMin pMax 3 ;;
  match r with
  | inl _ => ret noStats
  | inr items =>
      freshItems <- ageFilter items ;;
      unseenItems <- dedupFilter freshItems ;;
      match unseenItems with
      | [] => ret {| found := length items; fresh := length freshItems; unseen := 0;
                     kept := 0; sent := 0 |}
      | _ :: _ =>
          capped <- capDeals unseenItems ;;
          keptItems <- filterItems capped ;;
          n <- notifyLoop brand keptItems ;;
          ret {| found := length items; fresh := length freshItems;
                 unseen := length unseenItems; kept := length keptItems; sent := n |}
      end
  end.

Fixpoint keywordLoop (brand : Config.Brand) (pMin pMax : Z) (keywords : list string)
         (acc : Stats) : M Stats :=
  match keywords with
  | [] => ret acc
  | keyword :: rest =>
      s <- scanKeyword brand pMin pMax keyword ;;
      keywordLoop brand pMin pMax rest (addStats acc s)
  end.

(** scanBrand *)
Definition scanBrand (brand : Config.Brand) : M Stats :=
  let '(pMin, pMax) := Config.GetPriceRange cfg brand in
  keywordLoop brand pMin pMax (Config.Keywords brand) noStats.

Fixpoint brandLoop (brands : list Config.Brand) (totals : Stats) : M Stats :=
  match brands with
  | [] => ret totals
  | brand :: rest =>
      s <- scanBrand brand ;;
      r <- randIntn 1500 ;;
      sleep (wrap64 (wrap64 (500 + r) * Millisecond)) ;;;
      brandLoop rest (addStats totals s)
  end.

(** b.notifier.SendScanSummary *)
Definition SendScanSummary (totalFound totalNew totalSent : nat) : M (option error) :=
  match totalNew with
  | O => ret None
  | S _ => telegram (Telegram.sendSummary totalFound totalNew totalSent)
  end.

(** runScanCycle; the result is the totals it prints. *)
Definition runScanCycle : M Stats :=
  start <- tick ;;
  totals <- brandLoop (Config.Brands cfg) noStats ;;
  finish <- tick ;;
  (if (0 <? unseen totals)%nat
   then SendScanSummary (found totals) (unseen totals) (sent totals)
   else ret None) ;;;
  now <- tick ;;
  fun w =>
    Done totals
         {| store := store w; searches := searches w; filters := filters w; posts := posts w;
            draws := draws w; ticks := ticks w; slept := slept w; outbox := outbox w;
            lastScanTime := Some now; runCount := S (runCount w) |}.

End WithBot.

(** *** Vocabulary of the orchestrators' properties *)

(** The world after retry [attempt] has waited and searched. *)
Definition afterRetry (env : Env) (w : World) (attempt : Z) : World :=
  {| store := store w; searches := S (searches w); filters := filters w; posts := posts w;
     draws := S (draws w); ticks := ticks w;
     slept := slept w ++ [wrap64 (backoff attempt
                                  + wrap64 (Intn (randSource env (draws w)) 1000 * Millisecond))];
     outbox := outbox w; lastScanTime := lastScanTime w; runCount := runCount w |}.

(** The world after the first attempt has searched. *)
Definition afterSearch (w : World) : World :=
  {| store := store w; searches := S (searches w); filters := filters w; posts := posts w;
     draws := draws w; ticks := ticks w; slept := slept w;
     outbox := outbox w; lastScanTime := lastScanTime w; runCount := runCount w |}.

(** The jitter that retry draws from the [d]-th raw draw. *)
Definition jitterOf (env : Env) (d : nat) : Z :=
  Intn (randSource env d) 1000 * Millisecond.

(** The waits of [n] retries in a row, the first being retry [attempt]
    and using draw [d]: 2^(attempt-1) seconds plus its jitter. *)
Fixpoint waitsFrom (env : Env) (attempt : Z) (d : nat) (n : nat) : list Z :=
  match n with
  | O => []
  | S n' => (2 ^ (attempt - 1) * Second + jitterOf env d) :: waitsFrom env (attempt + 1) (S d) n'
  end.

(** The error the [n]-th search of [env] ends in, if it does. *)
Definition searchError (env : Env) (q : Mercari.SearchQuery) (n : nat) : option error :=
  match Mercari.SearchWithFallback q (searchNet env n q) with
  | inl e => Some e
  | inr _ => None
  end.

(** The query searchWithRetry sends. *)
Definition queryOf (cfg : Config.Config) (keyword : string) (priceMin priceMax : Z)
  : Mercari.SearchQuery :=
  {| Mercari.qKeyword := keyword;
     Mercari.qPriceMin := priceMin;
     Mercari.qPriceMax := priceMax;
     Mercari.qCategories := Config.DefaultCategories cfg;
     Mercari.qLimit := wrap64 (Config.MaxDealsPerBrand cfg * 2) |}.

(** A computation that ends with a value from every world. *)
Definition returns {A : Type} (m : M A) : Prop :=
  forall w, exists a w', m w = Done a w'.

(** The stage counters never grow from one stage to the next. *)
Definition monotone (s : Stats) : Prop :=
  (sent s <= kept s)%nat /\ (kept s <= unseen s)%nat
  /\ (unseen s <= fresh s)%nat /\ (fresh s <= found s)%nat.

(** A computation that never panics. *)
Definition safe {A : Type} (m : M A) : Prop :=
  forall w msg, m w <> Panicked msg.

(** A computation whose every run that ends relates the world it
    started in to the world it leaves. *)
Definition keeps {A : Type} (R : World -> World -> Prop) (m : M A) : Prop :=
  forall w a w', m w = Done a w' -> R w w'.

(** No Telegram request and no change of the store. *)
Definition quiet (w w' : World) : Prop :=
  store w' = store w /\ outbox w' = outbox w /\ posts w' = posts w.

(** The store keeps its rows and gains at most [n]. *)
Definition storeGrows (n : nat) (w w' : World) : Prop :=
  Store.fault (store w') = Store.fault (store w)
  /\ Store.seen_items (store w) ⊆ Store.seen_items (store w')
  /\ (size (Store.seen_items (store w')) <= size (Store.seen_items (store w)) + n)%nat.

(** The sleeps added are each at least 200 milliseconds and under five
    seconds. *)
Definition shortSleeps (w w' : World) : Prop :=
  exists ds, slept w' = slept w ++ ds
             /\ Forall (fun d => 200 * Millisecond <= d < 5 * Second) ds.

(** Whether the [n]-th Telegram request, being [o], is answered ok. *)
Definition delivered (env : Env) (n : nat) (o : Telegram.Outgoing) : bool :=
  match Telegram.send o (telegramNet env n o) with
  | None => true
  | Some _ => false
  end.

(** How many of the requests [os], made in a row from the [n]-th on, are
    answered ok. *)
Fixpoint deliveries (env : Env) (n : nat) (os : list Telegram.Outgoing) : nat :=
  match os with
  | [] => 0
  | o :: rest => ((if delivered env n o then 1 else 0) + deliveries env (S n) rest)%nat
  end.

(** The deal scanBrand builds for a listing of [brand], at some reading
    of the clock. *)
Definition dealOf (brand : Config.Brand) (item : Mercari.Item) (deal : Telegram.DealItem) : Prop :=
  Telegram.Name deal = Mercari.Name item
  /\ Telegram.Price deal = Mercari.Price item
  /\ Telegram.BrandName deal = Config.Name brand
  /\ Telegram.ImageURL deal = firstImage (Mercari.ImageURLs item)
  /\ Telegram.ItemURL deal = Mercari.ItemURL item
  /\ exists now, Telegram.AgeMin deal = Mercari.AgeMinutes now item.

End Bot.

(* ===================================================================== *)
(** ** Scenarios *)
(* ===================================================================== *)

(** Concrete listings, replies and stores on which the properties below
    are run. *)
Module Scenario.

Import Go Mercari.

Definition clip : AIFilter := NewAIFilter "hf_token" "openai/clip-vit-large-patch14" true.

Definition listing (id : string) (images : list string) (created : Z) : Item :=
  {| ID := id; Name := "bag " +:+ id; Price := 5000; Status := "ITEM_STATUS_ON_SALE";
     Description := ""; ImageURLs := images; Seller := ""; Created := created;
     Updated := created; CategoryID := 0; BrandName := "";
     ItemURL := "https://jp.mercari.com/item/" +:+ id |}.

Definition bag : Item := listing "m1" ["https://static.mercdn.net/m1_1.jpg"] 1000.
Definition wallet : Item := listing "m2" ["https://static.mercdn.net/m2_1.jpg"] 1000.
Definition poster : Item := listing "m3" [] 1000.

(** A 200 reply that ranks [topLabel] first with [topScore]. *)
Definition scored (topLabel : string) (topScore : float) : ClipExchange :=
  ClipReceived 200 (BodyObject {| Labels := [topLabel; "a watch"];
                                  Scores := [topScore; 0x1p-4%float] |}).

(** The same reply wrapped in a one-element array. *)
Definition scoredArray (topLabel : string) (topScore : float) : ClipExchange :=
  ClipReceived 200 (BodyArray [ {| Labels := [topLabel; "a watch"];
                                   Scores := [topScore; 0x1p-4%float] |} ]).

Definition modelLoading : ClipExchange := ClipReceived 503 BodyMalformed.

(** A classifier that is loading for the first two requests and then
    ranks a reject label first with score 0.9. *)
Definition loadingTwice (req : clipRequest) (n : nat) : ClipExchange :=
  match n with
  | 0%nat | 1%nat => modelLoading
  | _ => scored "an empty box" 0.9%float
  end.

(** A classifier that cannot be reached. *)
Definition unreachable (req : clipRequest) (n : nat) : ClipExchange := ClipDoFailed.

(** Per goroutine: the first listing meets an unreachable classifier, the
    others a reject verdict. *)
Definition mixedNet (i : nat) (req : clipRequest) (n : nat) : ClipExchange :=
  match i with
  | 0%nat => ClipDoFailed
  | _ => scored "a receipt" 0.9%float
  end.

(** *** Stores *)

(** A store whose storage cannot be read, a healthy empty one, and a
    healthy one that already holds the listing m123. *)
Definition brokenStore : Store.DedupStore :=
  {| Store.seen_items := ∅;
     Store.fault := Some (errorString "unable to open database file") |}.

Definition emptyStore : Store.DedupStore :=
  {| Store.seen_items := ∅; Store.fault := None |}.

(** An opening whose PRAGMAs and CREATE TABLE all succeed, and one whose
    PRAGMAs all fail. *)
Definition cleanStartup : Store.Startup :=
  {| Store.pragmaErrs := [None; None; None; None]; Store.createErr := None |}.

Definition noPragmas : Store.Startup :=
  {| Store.pragmaErrs := replicate 4 (Some (errorString "database is locked"));
     Store.createErr := None |}.

(** A database with a row of second 1 whose statements fail. *)
Definition lockedStoreWithM123 : Store.DedupStore :=
  {| Store.seen_items :=
       {[ "m123" := {| Store.brand := "Gucci"; Store.name := "bag";
                       Store.price := 5000; Store.seen_at := 1 |} ]};
     Store.fault := Some (errorString "database is locked") |}.

Definition storeWithM123 : Store.DedupStore :=
  {| Store.seen_items :=
       {[ "m123" := {| Store.brand := "Gucci"; Store.name := "bag";
                       Store.price := 5000; Store.seen_at := 1 |} ]};
     Store.fault := None |}.

(** *** Numbers *)

(** A JSON number of four hundred nines. *)
Definition nines400 : Number := string_of_list_ascii (replicate 400 "9"%char).

(** *** A bot with one brand and one keyword *)

Definition gucci : Config.Brand :=
  {| Config.Name := "Gucci"; Config.Keywords := ["gucci bag"];
     Config.BrandPriceMin := 0; Config.BrandPriceMax := 0 |}.

Definition cfg : Config.Config :=
  {| Config.Brands := [gucci];
     Config.PriceMin := 3000;
     Config.PriceMax := 15000;
     Config.ScanIntervalMin := 10;
     Config.MaxAgeMinutes := 180;
     Config.MaxDealsPerBrand := 5;
     Config.DefaultCategories := [1; 2];
     Config.EnableAIFilter := false |}.

(** The filter of a bot without classifier credential: a passthrough. *)
Definition passthrough : AIFilter := NewAIFilter "" "openai/clip-vit-large-patch14" false.

Definition rawListing (id : string) (price created : Number) (thumbs : list string)
  : searchAPIItem :=
  {| rawID := id; rawName := "GUCCI bag " +:+ id; rawPrice := price;
     rawStatus := "ITEM_STATUS_ON_SALE"; rawCreated := created; rawUpdated := created;
     rawThumbnails := thumbs; rawItemType := "ITEM_TYPE_MERCARI"; rawBuyerID := "";
     rawSellerID := "s1"; rawItemBrand := None; rawItemConditionID := "3" |}.

(** A search reply with one listing, priced 5000 and created at second
    1700000000, its numbers sent as strings. *)
Definition oneListing : SearchExchange :=
  SearchReceived 200 ""
    (inr {| apiItems := [rawListing "m1" "5000" "1700000000"
                                    ["https://static.mercdn.net/m1_1.jpg"]];
            metaNumFound := "1"; metaNextPageToken := ""; metaHasNext := false |}).

(** A search reply with three listings, the second two days old. *)
Definition threeListings : SearchExchange :=
  SearchReceived 200 ""
    (inr {| apiItems := [rawListing "m1" "5000" "1700000000"
                                    ["https://static.mercdn.net/m1_1.jpg"];
                         rawListing "m2" "7000.0" "1699827200" [];
                         rawListing "m3" "9000" "1700000300" []];
            metaNumFound := "3"; metaNextPageToken := ""; metaHasNext := false |}).

(** Ten minutes after second 1700000000, at every reading. *)
Definition tenMinutesLater (n : nat) : Z := (1700000000 + 600) * Second.

Definition timeout : error := errorString "context deadline exceeded".

(** Telegram cannot be reached. *)
Definition telegramDown : Bot.Env :=
  {| Bot.searchNet := fun _ _ => oneListing;
     Bot.clipNet := fun _ _ _ _ => ClipDoFailed;
     Bot.telegramNet := fun _ _ => Telegram.TgRequest (Telegram.TgPostFailed timeout);
     Bot.randSource := fun n => 123456 + 777 * Z.of_nat n;
     Bot.clock := tenMinutesLater |}.

(** Telegram cannot be reached for the first request and answers ok from
    then on. *)
Definition telegramFlaky : Bot.Env :=
  {| Bot.searchNet := fun _ _ => oneListing;
     Bot.clipNet := fun _ _ _ _ => ClipDoFailed;
     Bot.telegramNet := fun n _ => match n with
                                   | O => Telegram.TgRequest (Telegram.TgPostFailed timeout)
                                   | S _ => Telegram.TgRequest (Telegram.TgReplied true "")
                                   end;
     Bot.randSource := fun n => 123456 + 777 * Z.of_nat n;
     Bot.clock := tenMinutesLater |}.

(** Everything answers; the search finds three listings. *)
Definition allUp : Bot.Env :=
  {| Bot.searchNet := fun _ _ => threeListings;
     Bot.clipNet := fun _ _ _ _ => ClipDoFailed;
     Bot.telegramNet := fun n _ => match n with
                                   | 1%nat => Telegram.TgRequest (Telegram.TgReplied false "Too Many Requests")
                                   | _ => Telegram.TgRequest (Telegram.TgReplied true "")
                                   end;
     Bot.randSource := fun n => 123456 + 777 * Z.of_nat n;
     Bot.clock := tenMinutesLater |}.

(** The search API cannot be reached. *)
Definition searchDown : Bot.Env :=
  {| Bot.searchNet := fun _ _ => SearchDoFailed timeout;
     Bot.clipNet := fun _ _ _ _ => ClipDoFailed;
     Bot.telegramNet := fun _ _ => Telegram.TgRequest (Telegram.TgReplied true "");
     Bot.randSource := fun n => 123456 + 777 * Z.of_nat n;
     Bot.clock := tenMinutesLater |}.

Definition start : Bot.World :=
  {| Bot.store := emptyStore; Bot.searches := 0; Bot.filters := 0; Bot.posts := 0;
     Bot.draws := 0; Bot.ticks := 0; Bot.slept := []; Bot.outbox := [];
     Bot.lastScanTime := None; Bot.runCount := 0 |}.

(** The world a first cycle with the filter on leaves when everything
    answers. *)
Definition afterFirstCycle : Bot.World :=
  match Bot.runScanCycle cfg clip allUp 1 start with
  | Bot.Done _ w => w
  | _ => start
  end.

(** The deal scanBrand builds for the listing m1 of [oneListing]. *)
Definition dealM1 : Telegram.DealItem :=
  {| Telegram.Name := "GUCCI bag m1"; Telegram.Price := 5000; Telegram.BrandName := "Gucci";
     Telegram.ImageURL := "https://static.mercdn.net/m1_1.jpg";
     Telegram.ItemURL := "https://jp.mercari.com/item/m1";
     Telegram.AgeMin := 10%float |}.

(** The world the notification loop leaves for two listings when the
    second request is refused, and the world one keyword leaves. *)
Definition afterNotify : Bot.World :=
  match Bot.notifyLoop allUp gucci [bag; wallet] start with
  | Bot.Done _ w => w
  | _ => start
  end.


(** A config file that names the credentials and one brand and leaves
    every number out. *)
Definition minimalFile : Config.ConfigFile :=
  Config.Decoded
    {| Config.Telegram := {| Config.BotToken := "123456:ABC"; Config.ChatID := "987654321" |};
       Config.HuggingFace := {| Config.APIKey := ""; Config.Model := "" |};
       Config.Scan := {| Config.Brands := [gucci];
                         Config.PriceMin := 0;
                         Config.PriceMax := 0;
                         Config.ScanIntervalMin := 0;
                         Config.MaxAgeMinutes := 0;
                         Config.MaxDealsPerBrand := 0;
                         Config.DefaultCategories := [];
                         Config.EnableAIFilter := false |} |}.

(** What LoadConfig makes of it. *)
Definition minimalSettings : Config.Settings :=
  {| Config.Telegram := {| Config.BotToken := "123456:ABC"; Config.ChatID := "987654321" |};
     Config.HuggingFace := {| Config.APIKey := "";
                              Config.Model := "openai/clip-vit-large-patch14" |};
     Config.Scan := cfg |}.

(** The listener before its first poll, an update from a chat that is not
    the configured one, an update whose message has no chat, and two
    Telegram servers that answer every poll with the same batch. *)
Definition listening : Telegram.Listener :=
  {| Telegram.offset := 0; Telegram.polls := 0; Telegram.statusCalls := 0;
     Telegram.replies := []; Telegram.naps := [] |}.

Definition stranger : Telegram.update :=
  {| Telegram.UpdateID := 7;
     Telegram.Message := Some {| Telegram.Chat := Some {| Telegram.ID := 42 |};
                                 Telegram.Text := "/check" |} |}.

Definition chatless : Telegram.update :=
  {| Telegram.UpdateID := 9;
     Telegram.Message := Some {| Telegram.Chat := None; Telegram.Text := "hello" |} |}.

Definition batchNet (updates : list Telegram.update) : nat -> Z -> Telegram.UpdatesExchange :=
  fun _ _ => Telegram.GetReceived 200
               (inr {| Telegram.OK := true; Telegram.Description := "";
                       Telegram.Result := inr updates |}).

(** A server that is down for the first poll and then delivers the
    command of chat 42. *)
Definition downThenBatch (n : nat) (offset : Z) : Telegram.UpdatesExchange :=
  match n with
  | O => Telegram.GetReceived 502 (inl (errorString "unused"))
  | _ => batchNet [stranger] n offset
  end.

Definition afterTwoPolls (calls : nat) (sent : list string) : Telegram.Listener :=
  {| Telegram.offset := 8; Telegram.polls := 2; Telegram.statusCalls := calls;
     Telegram.replies := sent; Telegram.naps := [1 * Second; 1 * Second] |}.

End Scenario.

(* ===================================================================== *)
(** * Properties *)
(* ===================================================================== *)

(** ** The dedup store *)

Section StoreFacts.

Import Go Store.

Implicit Types (s : DedupStore) (itemID : string).

Lemma HasSeen_healthy s itemID :
  fault s = None -> HasSeen s itemID = bool_decide (is_Some (seen_items s !! itemID)).
Proof.
  intros Hok. unfold HasSeen, queryCountID. rewrite Hok.
  destruct (seen_items s !! itemID) as [r|] eqn:E.
  - symmetry. apply bool_decide_eq_true. eauto.
  - symmetry. apply bool_decide_eq_false. intros [r Hr]. discriminate.
Qed.

Lemma HasSeen_faulty s itemID e : fault s = Some e -> HasSeen s itemID = false.
Proof. intros Hf. unfold HasSeen, queryCountID. now rewrite Hf. Qed.

Lemma insertOrIgnore_lookup (tbl : gmap string SeenRecord) itemID r :
  insertOrIgnore tbl itemID r !! itemID = Some (default r (tbl !! itemID)).
Proof.
  unfold insertOrIgnore. destruct (tbl !! itemID) as [old|] eqn:E; simpl.
  - exact E.
  - apply lookup_insert_eq.
Qed.

Lemma insertOrIgnore_present (tbl : gmap string SeenRecord) itemID r old :
  tbl !! itemID = Some old -> insertOrIgnore tbl itemID r = tbl.
Proof. intros E. unfold insertOrIgnore. now rewrite E. Qed.

Lemma insertOrIgnore_size (tbl : gmap string SeenRecord) itemID r :
  size (insertOrIgnore tbl itemID r)
  = (size tbl + match tbl !! itemID with Some _ => 0 | None => 1 end)%nat.
Proof.
  unfold insertOrIgnore. destruct (tbl !! itemID) as [old|] eqn:E.
  - lia.
  - rewrite map_size_insert_None by exact E. lia.
Qed.

Lemma filter_key_unique (l : list (string * SeenRecord)) k v :
  NoDup (l.*1) -> (k, v) ∈ l ->
  List.filter (fun kr => String.eqb (fst kr) k) l = [(k, v)].
Proof.
  induction l as [|[k' v'] l IH]; intros Hnd Hin.
  - inversion Hin.
  - simpl in Hnd. apply NoDup_cons in Hnd as [Hnotin Hnd].
    simpl. apply elem_of_cons in Hin as [Heq|Hin].
    + inversion Heq; subst k' v'. rewrite String.eqb_refl. f_equal.
      clear IH Hnd. induction l as [|[k2 v2] l IHl]; [reflexivity|].
      simpl in *. apply not_elem_of_cons in Hnotin as [Hne Hnotin].
      destruct (String.eqb_spec k2 k) as [->|_]; [congruence|]. now apply IHl.
    + destruct (String.eqb_spec k' k) as [->|_].
      * exfalso. apply Hnotin. apply list_elem_of_fmap. now exists (k, v).
      * now apply IH.
Qed.

Lemma rowsWithID_present (tbl : gmap string SeenRecord) itemID r :
  tbl !! itemID = Some r -> rowsWithID tbl itemID = [(itemID, r)].
Proof.
  intros E. unfold rowsWithID. apply filter_key_unique.
  - apply NoDup_fst_map_to_list.
  - now apply elem_of_map_to_list.
Qed.

End StoreFacts.

Section StoreResults.

Import Go Store Scenario.

(** C4, as stated, fails: a lookup that failed and a lookup of an id that
    is not present hand the caller the same value, false, so the result
    of HasSeen cannot tell the two apart. *)
Lemma HasSeen_failure_looks_unseen :
  queryCountID brokenStore "m123" = inl (errorString "unable to open database file")
  /\ queryCountID emptyStore "m123" = inr 0
  /\ HasSeen brokenStore "m123" = false
  /\ HasSeen emptyStore "m123" = false.
Proof. repeat split. Qed.

(** C4 (amended): HasSeen returns a bare bool; when the storage read
    fails it returns false, exactly what it returns for an id that is not
    present in a healthy store, so the store itself applies the "treat as
    unseen" default and the read error never reaches the caller. *)
Theorem HasSeen_read_failure_reads_unseen (s : DedupStore) (itemID : string) (e : error) :
  fault s = Some e ->
  HasSeen s itemID = false
  /\ forall s', fault s' = None -> seen_items s' !! itemID = None ->
                HasSeen s' itemID = HasSeen s itemID.
Proof.
  intros Hf. split.
  - now apply HasSeen_faulty with e.
  - intros s' Hok Habs. rewrite (HasSeen_faulty s itemID e Hf).
    rewrite HasSeen_healthy by exact Hok. apply bool_decide_eq_false.
    rewrite Habs. intros [r Hr]. discriminate.
Qed.

Lemma HasSeen_read_failure_reads_unseen_witness :
  HasSeen brokenStore "m123" = false
  /\ forall s', fault s' = None -> seen_items s' !! "m123" = None ->
                HasSeen s' "m123" = HasSeen brokenStore "m123".
Proof.
  apply (HasSeen_read_failure_reads_unseen brokenStore "m123"
           (errorString "unable to open database file")).
  reflexivity.
Defined.

(** C5, as stated, fails for an id that is already stored: two calls of
    MarkSeen leave count() where it was, not one higher. *)
Lemma MarkSeen_twice_present_count_unchanged :
  let s1 := snd (MarkSeen storeWithM123 "m123" "Prada" "shoes" 7000 2) in
  let s2 := snd (MarkSeen s1 "m123" "Prada" "shoes" 7000 3) in
  Count storeWithM123 = 1 /\ Count s2 = 1 /\ Count s2 <> Count storeWithM123 + 1.
Proof. vm_compute. repeat split; congruence. Qed.

(** C5 (amended): on a store whose statements succeed, two calls of
    MarkSeen for one id, with any brand, name and price, leave exactly one
    row for that id; the second call returns no error and leaves the
    store as the first call left it; when the id was not stored before
    the first call, the row is the first call's and count() is exactly one
    higher than before the first call; when it was, the row is the old one
    and count() is as before. *)
Theorem MarkSeen_idempotent (s : DedupStore) (itemID : string)
        (brand1 name1 brand2 name2 : string) (price1 price2 now1 now2 : Z) :
  fault s = None ->
  let first := MarkSeen s itemID brand1 name1 price1 now1 in
  let second := MarkSeen (snd first) itemID brand2 name2 price2 now2 in
  fst first = None
  /\ fst second = None
  /\ snd second = snd first
  /\ (exists r, rowsWithID (seen_items (snd second)) itemID = [(itemID, r)])
  /\ (seen_items s !! itemID = None ->
      rowsWithID (seen_items (snd second)) itemID
      = [(itemID, {| brand := brand1; name := name1; price := price1; seen_at := now1 |})]
      /\ Count (snd second) = Count s + 1)
  /\ (forall old, seen_items s !! itemID = Some old ->
      rowsWithID (seen_items (snd second)) itemID = [(itemID, old)]
      /\ Count (snd second) = Count s).
Proof.
  intros Hok. unfold MarkSeen. rewrite Hok. simpl.
  set (r1 := {| brand := brand1; name := name1; price := price1; seen_at := now1 |}).
  set (r2 := {| brand := brand2; name := name2; price := price2; seen_at := now2 |}).
  pose proof (insertOrIgnore_lookup (seen_items s) itemID r1) as Hl1.
  assert (Hsame : insertOrIgnore (insertOrIgnore (seen_items s) itemID r1) itemID r2
                  = insertOrIgnore (seen_items s) itemID r1).
  { eapply insertOrIgnore_present. exact Hl1. }
  rewrite Hsame. unfold Count. simpl. rewrite Hok, insertOrIgnore_size.
  split; [reflexivity|]. split; [reflexivity|]. split; [reflexivity|].
  split; [|split].
  - eexists. apply rowsWithID_present. exact Hl1.
  - intros Hnew. rewrite Hnew. split; [|lia].
    apply rowsWithID_present. rewrite Hl1, Hnew. reflexivity.
  - intros old Hold. rewrite Hold. split; [|lia].
    apply rowsWithID_present. rewrite Hl1, Hold. reflexivity.
Qed.

Lemma MarkSeen_idempotent_witness :
  let first := MarkSeen emptyStore "m123" "Gucci" "bag" 5000 10 in
  let second := MarkSeen (snd first) "m123" "Prada" "shoes" 7000 20 in
  fst first = None
  /\ fst second = None
  /\ snd second = snd first
  /\ (exists r, rowsWithID (seen_items (snd second)) "m123" = [("m123", r)])
  /\ (seen_items emptyStore !! "m123" = None ->
      rowsWithID (seen_items (snd second)) "m123"
      = [("m123", {| brand := "Gucci"; name := "bag"; price := 5000; seen_at := 10 |})]
      /\ Count (snd second) = Count emptyStore + 1)
  /\ (forall old, seen_items emptyStore !! "m123" = Some old ->
      rowsWithID (seen_items (snd second)) "m123" = [("m123", old)]
      /\ Count (snd second) = Count emptyStore).
Proof.
  apply (MarkSeen_idempotent emptyStore "m123" "Gucci" "bag" "Prada" "shoes" 5000 7000 10 20).
  reflexivity.
Defined.

End StoreResults.

(** ** The image filter: one listing *)

Section ClassifyFacts.

Import Go Mercari.

Variable f : AIFilter.
Variable net : clipRequest -> nat -> ClipExchange.

(** Closes the side conditions on the event log and the label of an exit
    of classifyItem. *)
Ltac exit_side :=
  repeat split; simpl;
  try lia; try reflexivity; try (intros; discriminate);
  try (apply list_elem_of_In; simpl; tauto).

Lemma isTrash_spec (topLabel : string) (topScore : float) :
  isTrash f topLabel topScore
  = bool_decide (topLabel ∈ trashLabels f) && PrimFloat.ltb threshold topScore.
Proof.
  unfold isTrash. induction (trashLabels f) as [|t ts IH]; simpl.
  - reflexivity.
  - rewrite IH. clear IH.
    destruct (PrimFloat.ltb threshold topScore);
      rewrite ?andb_true_r, ?andb_false_r, ?orb_false_r; try reflexivity.
    destruct (String.eqb_spec topLabel t) as [Heq|Hne]; simpl.
    + subst t. symmetry. apply bool_decide_eq_true_2. apply list_elem_of_here.
    + apply bool_decide_ext. rewrite elem_of_cons. tauto.
Qed.

Lemma rejecting_not_error (x : ClipExchange) :
  rejecting f x = true -> classifierError x = false /\ loading x = false.
Proof.
  destruct x as [| | | st | st body]; simpl; try discriminate.
  destruct (Z.eqb_spec st 200) as [->|Hne]; simpl; [|discriminate].
  destruct (parseResponse body) as [r|]; [|discriminate].
  destruct (Labels r), (Scores r); try discriminate. auto.
Qed.

Lemma classifyItem_no_image (fuel n : nat) (item : Item) :
  ImageURLs item = [] ->
  classifyItem (S fuel) f net n item = Some (true, "no_image", PrimFloat.zero, []).
Proof. intros E. simpl. now rewrite E. Qed.

(** A pass that meets the loading signal sends its request, sleeps twenty
    seconds and hands over to the next pass. *)
Lemma classifyItem_loading (fuel n : nat) (item : Item) (u : string) (us : list string) :
  ImageURLs item = u :: us ->
  loading (net (requestFor f u) n) = true ->
  classifyItem (S fuel) f net n item
  = match classifyItem fuel f net (S n) item with
    | Some (k, l, s, evs) => Some (k, l, s, Post (requestFor f u) :: Sleep (20 * Second) :: evs)
    | None => None
    end.
Proof.
  intros E Hl. simpl. rewrite E. fold (requestFor f u).
  destruct (net (requestFor f u) n) as [| | | st | st body]; simpl in Hl; try discriminate.
  apply Z.eqb_eq in Hl. subst st. simpl. reflexivity.
Qed.

(** A pass that meets anything else ends the call. *)
Lemma classifyItem_terminal (fuel n : nat) (item : Item) (u : string) (us : list string) :
  ImageURLs item = u :: us ->
  loading (net (requestFor f u) n) = false ->
  exists l s evs,
    classifyItem (S fuel) f net n item
    = Some (negb (rejecting f (net (requestFor f u) n)), l, s, evs)
    /\ (requests evs <= 1)%nat
    /\ sleeps evs = []
    /\ (classifierError (net (requestFor f u) n) = true ->
        l ∈ diagnosticLabels /\ s = PrimFloat.zero).
Proof.
  intros E Hl. simpl. rewrite E. fold (requestFor f u).
  unfold diagnosticLabels.
  destruct (net (requestFor f u) n) as [| | | st | st body]; simpl in *.
  1-4: do 3 eexists; split; [reflexivity|]; exit_side.
  destruct (Z.eqb_spec st 200) as [->|Hne]; simpl.
  - destruct (parseResponse body) as [r|].
    + destruct (Labels r) as [|topLabel ls], (Scores r) as [|topScore ss].
      1-3: do 3 eexists; split; [reflexivity|]; exit_side.
      rewrite isTrash_spec.
      destruct (bool_decide (topLabel ∈ trashLabels f) && PrimFloat.ltb threshold topScore);
        do 3 eexists; (split; [reflexivity|]); exit_side.
    + do 3 eexists; split; [reflexivity|]; exit_side.
  - rewrite Hl. do 3 eexists; split; [reflexivity|]; exit_side.
Qed.

(** [k] loading replies in a row, then another reply: the call makes the
    [k] requests that met the signal, sleeps twenty seconds after each,
    and ends on the pass after them. *)
Lemma classifyItem_chain (k : nat) :
  forall (fuel n : nat) (item : Item) (u : string) (us : list string),
    ImageURLs item = u :: us ->
    (forall j, (j < k)%nat -> loading (net (requestFor f u) (n + j)) = true) ->
    loading (net (requestFor f u) (n + k)) = false ->
    (k < fuel)%nat ->
    exists l s evs,
      classifyItem fuel f net n item
      = Some (negb (rejecting f (net (requestFor f u) (n + k))), l, s, evs)
      /\ (k <= requests evs <= k + 1)%nat
      /\ sleeps evs = replicate k (20 * Second)
      /\ (classifierError (net (requestFor f u) (n + k)) = true ->
          l ∈ diagnosticLabels /\ s = PrimFloat.zero).
Proof.
  induction k as [|k IH]; intros fuel n item u us E Hload Hterm Hfuel.
  - destruct fuel as [|fuel]; [lia|].
    rewrite Nat.add_0_r in *.
    destruct (classifyItem_terminal fuel n item u us E Hterm) as (l & s & evs & -> & Hr & Hs & Hd).
    exists l, s, evs. split; [reflexivity|]. split; [lia|]. split; [exact Hs|exact Hd].
  - destruct fuel as [|fuel]; [lia|].
    rewrite (classifyItem_loading fuel n item u us E).
    2:{ specialize (Hload 0%nat). rewrite Nat.add_0_r in Hload. apply Hload. lia. }
    destruct (IH fuel (S n) item u us E) as (l & s & evs & -> & Hr & Hs & Hd).
    + intros j Hj. replace (S n + j)%nat with (n + S j)%nat by lia. apply Hload. lia.
    + replace (S n + k)%nat with (n + S k)%nat by lia. exact Hterm.
    + lia.
    + replace (S n + k)%nat with (n + S k)%nat in * by lia.
      do 3 eexists. split; [reflexivity|]. split; [|split].
      * simpl. lia.
      * simpl. now rewrite Hs.
      * exact Hd.
Qed.

(** A chain that is still loading when the fuel runs out has no result. *)
Lemma classifyItem_starved (fuel : nat) :
  forall (n : nat) (item : Item) (u : string) (us : list string),
    ImageURLs item = u :: us ->
    (forall j, (j < fuel)%nat -> loading (net (requestFor f u) (n + j)) = true) ->
    classifyItem fuel f net n item = None.
Proof.
  induction fuel as [|fuel IH]; intros n item u us E Hload; [reflexivity|].
  rewrite (classifyItem_loading fuel n item u us E).
  2:{ specialize (Hload 0%nat). rewrite Nat.add_0_r in Hload. apply Hload. lia. }
  rewrite (IH (S n) item u us E); [reflexivity|].
  intros j Hj. replace (S n + j)%nat with (n + S j)%nat by lia. apply Hload. lia.
Qed.

End ClassifyFacts.

(** ** The image filter: the whole list *)

Section FilterFacts.

Import Go Mercari.

Variable fuel : nat.
Variable f : AIFilter.
Variable net : nat -> clipRequest -> nat -> ClipExchange.

Local Abbreviation storeStep := (Mercari.storeStep fuel f net).

Lemma storeStep_lost (items : list Item) (order : list nat) :
  foldl (storeStep items) None order = None.
Proof. induction order as [|i order IH]; simpl; auto. Qed.

(** Stores to two slots commute: the goroutines may finish in any order. *)
Lemma storeStep_comm (items : list Item) (acc : option (list result)) (i j : nat) :
  storeStep items (storeStep items acc i) j = storeStep items (storeStep items acc j) i.
Proof.
  destruct acc as [results|]; [|reflexivity].
  destruct (decide (i = j)) as [->|Hne]; [reflexivity|].
  destruct (items !! i) as [a|] eqn:Ei; destruct (items !! j) as [b|] eqn:Ej;
    [ destruct (slotResult fuel f net i a) as [ra|] eqn:Ea;
      destruct (slotResult fuel f net j b) as [rb|] eqn:Eb
    | destruct (slotResult fuel f net i a) as [ra|] eqn:Ea
    | destruct (slotResult fuel f net j b) as [rb|] eqn:Eb
    | ];
    unfold storeStep, writeSlot;
    repeat (progress (rewrite ?Ei, ?Ej, ?Ea, ?Eb; simpl));
    try reflexivity.
  f_equal. symmetry. now apply list_insert_insert_ne.
Qed.

Lemma storeStep_permutation (items : list Item) (l1 l2 : list nat) :
  l1 ≡ₚ l2 ->
  forall acc, foldl (storeStep items) acc l1 = foldl (storeStep items) acc l2.
Proof.
  induction 1 as [|x l1 l2 _ IH|x y l|l1 l2 l3 _ IH1 _ IH2]; intros acc; simpl.
  - reflexivity.
  - apply IH.
  - now rewrite storeStep_comm.
  - now rewrite IH1.
Qed.

(** In index order the stores fill [results] from the left. *)
Lemma storeStep_seq (rest : list Item) :
  forall (pre : list Item) (done : list result),
    length done = length pre ->
    foldl (storeStep (pre ++ rest))
          (Some (done ++ replicate (length rest) zeroResult))
          (seq (length pre) (length rest))
    = match slotsFrom fuel f net (length pre) rest with
      | Some rs => Some (done ++ rs)
      | None => None
      end.
Proof.
  induction rest as [|item rest IH]; intros pre done Hlen; simpl.
  - reflexivity.
  - unfold writeSlot. rewrite list_lookup_middle by reflexivity.
    destruct (slotResult fuel f net (length pre) item) as [r|]; simpl.
    + replace (<[length pre := r]> (done ++ zeroResult :: replicate (length rest) zeroResult))
        with ((done ++ [r]) ++ replicate (length rest) zeroResult).
      2:{ rewrite <- Hlen. rewrite <- (Nat.add_0_r (length done)).
          rewrite insert_app_r. simpl. now rewrite <- app_assoc. }
      specialize (IH (pre ++ [item]) (done ++ [r])).
      rewrite !length_app in IH. simpl in IH.
      rewrite <- app_assoc in IH. simpl in IH.
      replace (length pre + 1)%nat with (S (length pre)) in IH by lia.
      rewrite IH by lia.
      destruct (slotsFrom fuel f net (S (length pre)) rest) as [rs|]; [|reflexivity].
      now rewrite <- app_assoc.
    + apply storeStep_lost.
Qed.

(** Collecting over the filled [results] is the plain pass. *)
Lemma collectKept_slots (rest : list Item) :
  forall (pre : list Item),
    filterFrom fuel f net (length pre) rest
    = match slotsFrom fuel f net (length pre) rest with
      | Some rs => Some (collectKept (pre ++ rest) (length pre) rs)
      | None => None
      end.
Proof.
  induction rest as [|item rest IH]; intros pre; simpl.
  - reflexivity.
  - destruct (slotResult fuel f net (length pre) item) as [r|]; [|reflexivity].
    specialize (IH (pre ++ [item])).
    rewrite length_app in IH. simpl in IH.
    replace (length pre + 1)%nat with (S (length pre)) in IH by lia.
    rewrite IH. rewrite <- app_assoc. simpl.
    destruct (slotsFrom fuel f net (S (length pre)) rest) as [rs|]; [|reflexivity].
    simpl. rewrite list_lookup_middle by reflexivity.
    destruct (keep r); reflexivity.
Qed.

(** Whatever the order in which the goroutines finish, FilterItems is the
    plain pass over the list. *)
Lemma FilterItemsSched_filterFrom (order : list nat) (items : list Item) :
  order ≡ₚ seq 0 (length items) ->
  FilterItemsSched fuel f net order items
  = if enabled f then filterFrom fuel f net 0 items else Some items.
Proof.
  intros Hperm. unfold FilterItemsSched. destruct (enabled f); simpl; [|reflexivity].
  destruct items as [|item rest] eqn:E; [reflexivity|]. rewrite <- E in *.
  unfold runWorkers.
  rewrite (storeStep_permutation items _ _ Hperm).
  pose proof (storeStep_seq items [] [] eq_refl) as Hseq. simpl in Hseq.
  rewrite Hseq. pose proof (collectKept_slots items []) as Hc. simpl in Hc.
  rewrite Hc. destruct (slotsFrom fuel f net 0 items); reflexivity.
Qed.

Lemma FilterItems_filterFrom (items : list Item) :
  FilterItems fuel f net items
  = if enabled f then filterFrom fuel f net 0 items else Some items.
Proof. apply FilterItemsSched_filterFrom. reflexivity. Qed.

Lemma filterFrom_sublist (items : list Item) :
  forall (i : nat) (keptItems : list Item),
    filterFrom fuel f net i items = Some keptItems -> keptItems `sublist_of` items.
Proof.
  induction items as [|item rest IH]; intros i keptItems H; simpl in H.
  - inversion H. constructor.
  - destruct (slotResult fuel f net i item) as [r|]; [|discriminate].
    destruct (filterFrom fuel f net (S i) rest) as [keptRest|] eqn:E; [|discriminate].
    specialize (IH _ _ E). inversion H; subst.
    destruct (keep r); [now apply sublist_skip | now apply sublist_cons].
Qed.

Lemma filterFrom_total (items : list Item) :
  forall (i : nat),
    (forall j item, items !! j = Some item -> is_Some (slotResult fuel f net (i + j) item)) ->
    is_Some (filterFrom fuel f net i items).
Proof.
  induction items as [|item rest IH]; intros i Hall; simpl.
  - eauto.
  - destruct (Hall 0%nat item eq_refl) as [r Hr]. rewrite Nat.add_0_r in Hr. rewrite Hr.
    destruct (IH (S i)) as [keptRest ->].
    + intros j it Hj. replace (S i + j)%nat with (i + S j)%nat by lia. now apply Hall.
    + eauto.
Qed.

(** A listing whose slot says keep is in the output. *)
Lemma filterFrom_keeps (items : list Item) :
  forall (i j : nat) (item : Item) (r : result) (keptItems : list Item),
    filterFrom fuel f net i items = Some keptItems ->
    items !! j = Some item ->
    slotResult fuel f net (i + j) item = Some r ->
    keep r = true ->
    item ∈ keptItems.
Proof.
  induction items as [|item0 rest IH]; intros i j item r keptItems H Hj Hr Hk; simpl in H.
  - discriminate.
  - destruct (slotResult fuel f net i item0) as [r0|] eqn:E0; [|discriminate].
    destruct (filterFrom fuel f net (S i) rest) as [keptRest|] eqn:E; [|discriminate].
    inversion H; subst. destruct j as [|j]; simpl in Hj.
    + inversion Hj; subst. rewrite Nat.add_0_r in Hr. rewrite Hr in E0.
      inversion E0; subst. rewrite Hk. apply list_elem_of_here.
    + replace (i + S j)%nat with (S i + j)%nat in Hr by lia.
      pose proof (IH _ _ _ _ _ E Hj Hr Hk) as Hin.
      destruct (keep r0); [now apply list_elem_of_further | exact Hin].
Qed.

End FilterFacts.

(** ** The image filter: main results *)

Section FilterResults.

Import Go Mercari.



(** The run of the witness: the unreachable classifier keeps the first
    listing, the listing without image is kept, the third is rejected. *)
Example FilterItems_mixed_run :
  FilterItemsSched 3 Scenario.clip Scenario.mixedNet [2; 0; 1]%nat
                   [Scenario.bag; Scenario.poster; Scenario.wallet]
  = Some [Scenario.bag; Scenario.poster].
Proof. vm_compute. reflexivity. Qed.

(** A listing is in the output of FilterItems as soon as its own slot says
    keep, whatever the order of the stores. *)
Lemma FilterItemsSched_keeps (fuel : nat) (f : AIFilter)
      (net : nat -> clipRequest -> nat -> ClipExchange)
      (order : list nat) (items : list Item) (i : nat) (item : Item) (r : result)
      (keptItems : list Item) :
  order ≡ₚ seq 0 (length items) ->
  items !! i = Some item ->
  slotResult fuel f net i item = Some r ->
  keep r = true ->
  FilterItemsSched fuel f net order items = Some keptItems ->
  item ∈ keptItems.
Proof.
  intros Hperm Hi Hr Hk H. rewrite FilterItemsSched_filterFrom in H by exact Hperm.
  destruct (enabled f).
  - eapply (filterFrom_keeps fuel f net items 0 i); eauto.
  - inversion H; subst. apply list_elem_of_lookup. eauto.
Qed.

Lemma FilterItemsSched_total (fuel : nat) (f : AIFilter)
      (net : nat -> clipRequest -> nat -> ClipExchange)
      (order : list nat) (items : list Item) :
  order ≡ₚ seq 0 (length items) ->
  (forall j item, items !! j = Some item -> is_Some (slotResult fuel f net j item)) ->
  is_Some (FilterItemsSched fuel f net order items).
Proof.
  intros Hperm Hall. rewrite FilterItemsSched_filterFrom by exact Hperm.
  destruct (enabled f); [|eauto]. now apply filterFrom_total.
Qed.

(** C2: the image filter is fail-open.  For a listing with at least one image
    whose classification, after any number of model-loading replies, ends
    in a request that could not be built or sent, a body that could not be
    read, a status other than 200 and 503, a body that parses neither as an
    object nor as a non-empty array, or a result without labels or scores:
    classifyItem returns keep with one of the labels error, api_error,
    parse_error, empty_result and score 0, and the listing is in the
    output of FilterItems, which exists as soon as every classification
    of the call ends. *)
Theorem classifier_errors_fail_open (fuel : nat) (f : AIFilter)
        (net : clipRequest -> nat -> ClipExchange)
        (item : Item) (u : string) (us : list string) (k : nat) :
  ImageURLs item = u :: us ->
  (forall j, (j < k)%nat -> loading (net (requestFor f u) j) = true) ->
  classifierError (net (requestFor f u) k) = true ->
  (k < fuel)%nat ->
  (exists l evs,
      classifyItem fuel f net 0 item = Some (true, l, PrimFloat.zero, evs)
      /\ l ∈ diagnosticLabels)
  /\ (forall (nets : nat -> clipRequest -> nat -> ClipExchange)
             (order : list nat) (items : list Item) (i : nat),
      items !! i = Some item ->
      nets i = net ->
      order ≡ₚ seq 0 (length items) ->
      (forall keptItems,
          FilterItemsSched fuel f nets order items = Some keptItems -> item ∈ keptItems)
      /\ ((forall j other, items !! j = Some other -> is_Some (slotResult fuel f nets j other)) ->
          exists keptItems,
            FilterItemsSched fuel f nets order items = Some keptItems /\ item ∈ keptItems))
  /\ (forall (clipResp : clipResponse) (more : list clipResponse),
        parseResponse (BodyObject clipResp) = Some clipResp
        /\ parseResponse (BodyArray (clipResp :: more)) = Some clipResp).
Proof.
  intros E Hload Herr Hfuel.
  assert (Hterm : loading (net (requestFor f u) k) = false).
  { destruct (net (requestFor f u) k) as [| | | st|st body]; try reflexivity.
    simpl in *. destruct (Z.eqb_spec st 200) as [->|_]; [reflexivity|].
    now apply negb_true_iff in Herr. }
  destruct (classifyItem_chain f net k fuel 0 item u us E Hload Hterm Hfuel)
    as (l & s & evs & Hc & _ & _ & Hd).
  destruct (Hd Herr) as [Hl ->].
  simpl in Hc.
  assert (Hrej : rejecting f (net (requestFor f u) k) = false).
  { destruct (rejecting f (net (requestFor f u) k)) eqn:R; [|reflexivity].
    apply rejecting_not_error in R as [R _]. congruence. }
  rewrite Hrej in Hc. simpl in Hc.
  split; [eauto|]. split; [|intros clipResp more; split; reflexivity].
  intros nets order items i Hi Hnet Hperm.
  assert (Hslot : slotResult fuel f nets i item
                  = Some {| index := i; keep := true; label := l; score := PrimFloat.zero |}).
  { unfold slotResult. rewrite E, Hnet, Hc. reflexivity. }
  assert (Hin : forall keptItems,
             FilterItemsSched fuel f nets order items = Some keptItems -> item ∈ keptItems).
  { intros keptItems H.
    eapply (FilterItemsSched_keeps fuel f nets order items i); eauto. }
  split; [exact Hin|].
  intros Hall. destruct (FilterItemsSched_total fuel f nets order items Hperm Hall) as [keptItems Hk].
  exists keptItems. split; [exact Hk|]. now apply Hin.
Qed.

Lemma classifier_errors_fail_open_witness :
  (exists l evs,
      classifyItem 1 Scenario.clip Scenario.unreachable 0 Scenario.bag
      = Some (true, l, PrimFloat.zero, evs)
      /\ l ∈ diagnosticLabels)
  /\ (forall (nets : nat -> clipRequest -> nat -> ClipExchange)
             (order : list nat) (items : list Item) (i : nat),
      items !! i = Some Scenario.bag ->
      nets i = Scenario.unreachable ->
      order ≡ₚ seq 0 (length items) ->
      (forall keptItems,
          FilterItemsSched 1 Scenario.clip nets order items = Some keptItems ->
          Scenario.bag ∈ keptItems)
      /\ ((forall j other, items !! j = Some other ->
                           is_Some (slotResult 1 Scenario.clip nets j other)) ->
          exists keptItems,
            FilterItemsSched 1 Scenario.clip nets order items = Some keptItems
            /\ Scenario.bag ∈ keptItems))
  /\ (forall (clipResp : clipResponse) (more : list clipResponse),
        parseResponse (BodyObject clipResp) = Some clipResp
        /\ parseResponse (BodyArray (clipResp :: more)) = Some clipResp).
Proof.
  apply (classifier_errors_fail_open 1 Scenario.clip Scenario.unreachable Scenario.bag
           "https://static.mercdn.net/m1_1.jpg" [] 0).
  - reflexivity.
  - intros j Hj. lia.
  - reflexivity.
  - lia.
Defined.

(** The error exits one by one, each on the listing [Scenario.bag]. *)
Example fail_open_exits :
  let run x := classifyItem 1 Scenario.clip (fun _ _ => x) 0 Scenario.bag in
  let req := requestFor Scenario.clip "https://static.mercdn.net/m1_1.jpg" in
  run ClipDoFailed = Some (true, "error", PrimFloat.zero, [Post req])
  /\ run (ClipReadFailed 200) = Some (true, "error", PrimFloat.zero, [Post req])
  /\ run (ClipReceived 500 BodyMalformed) = Some (true, "api_error", PrimFloat.zero, [Post req])
  /\ run (ClipReceived 429 BodyMalformed) = Some (true, "api_error", PrimFloat.zero, [Post req])
  /\ run (ClipReceived 200 BodyMalformed) = Some (true, "parse_error", PrimFloat.zero, [Post req])
  /\ run (ClipReceived 200 (BodyArray [])) = Some (true, "parse_error", PrimFloat.zero, [Post req])
  /\ run (ClipReceived 200 (BodyObject {| Labels := []; Scores := [] |}))
     = Some (true, "empty_result", PrimFloat.zero, [Post req])
  /\ run (Scenario.scoredArray "a receipt" 0.9%float)
     = Some (false, "a receipt", 0.9%float, [Post req]).
Proof. vm_compute. repeat split. Qed.

(** A pass that meets a 200 reply carrying a ranking, as an object or as
    the first element of an array, ends the call with the verdict on the
    first label and the first score. *)
Lemma classifyItem_ranked (f : AIFilter) (net : clipRequest -> nat -> ClipExchange)
      (fuel n : nat) (item : Item) (u : string) (us : list string)
      (clipResp : clipResponse) (topLabel : string) (labels : list string)
      (topScore : float) (scores : list float) :
  ImageURLs item = u :: us ->
  (net (requestFor f u) n = ClipReceived 200 (BodyObject clipResp)
   \/ exists more, net (requestFor f u) n = ClipReceived 200 (BodyArray (clipResp :: more))) ->
  Labels clipResp = topLabel :: labels ->
  Scores clipResp = topScore :: scores ->
  classifyItem (S fuel) f net n item
  = Some (negb (bool_decide (topLabel ∈ trashLabels f) && PrimFloat.ltb 0.3 topScore),
          topLabel, topScore, [Post (requestFor f u)]).
Proof.
  intros E Hx Hl Hs. simpl. rewrite E. fold (requestFor f u).
  destruct Hx as [-> | [more ->]]; simpl; rewrite Hl, Hs, isTrash_spec;
    change threshold with 0.3%float;
    destruct (bool_decide (topLabel ∈ trashLabels f) && PrimFloat.ltb 0.3 topScore);
    reflexivity.
Qed.

(** The same after [k] model-loading replies. *)
Lemma classifyItem_ranked_chain (f : AIFilter) (net : clipRequest -> nat -> ClipExchange)
      (k : nat) :
  forall (fuel n : nat) (item : Item) (u : string) (us : list string)
         (clipResp : clipResponse) (topLabel : string) (labels : list string)
         (topScore : float) (scores : list float),
    ImageURLs item = u :: us ->
    (forall j, (j < k)%nat -> loading (net (requestFor f u) (n + j)%nat) = true) ->
    (net (requestFor f u) (n + k)%nat = ClipReceived 200 (BodyObject clipResp)
     \/ exists more,
         net (requestFor f u) (n + k)%nat = ClipReceived 200 (BodyArray (clipResp :: more))) ->
    Labels clipResp = topLabel :: labels ->
    Scores clipResp = topScore :: scores ->
    (k < fuel)%nat ->
    exists evs,
      classifyItem fuel f net n item
      = Some (negb (bool_decide (topLabel ∈ trashLabels f) && PrimFloat.ltb 0.3 topScore),
              topLabel, topScore, evs)
      /\ requests evs = S k
      /\ sleeps evs = replicate k (20 * Second).
Proof.
  induction k as [|k IH]; intros fuel n item u us clipResp topLabel labels topScore scores
                                 E Hload Hx Hl Hs Hfuel.
  - destruct fuel as [|fuel]; [lia|]. rewrite Nat.add_0_r in Hx.
    rewrite (classifyItem_ranked f net fuel n item u us clipResp topLabel labels topScore scores)
      by assumption.
    eexists. split; [reflexivity|]. split; reflexivity.
  - destruct fuel as [|fuel]; [lia|].
    rewrite (classifyItem_loading f net fuel n item u us E).
    2:{ specialize (Hload 0%nat). rewrite Nat.add_0_r in Hload. apply Hload. lia. }
    destruct (IH fuel (S n) item u us clipResp topLabel labels topScore scores E)
      as (evs & -> & Hr & Hsl); try assumption.
    + intros j Hj. replace (S n + j)%nat with (n + S j)%nat by lia. apply Hload. lia.
    + replace (S n + k)%nat with (n + S k)%nat by lia. exact Hx.
    + lia.
    + eexists. split; [reflexivity|]. simpl. rewrite Hr, Hsl. split; reflexivity.
Qed.

(** A call that rejects has met, after model-loading replies only, a 200
    reply whose ranking starts with a reject label scored above 0.3. *)
Lemma classifyItem_rejects_only (f : AIFilter) (net : clipRequest -> nat -> ClipExchange)
      (fuel : nat) :
  forall (n : nat) (item : Item) (l : string) (s : float) (evs : list Event),
    classifyItem fuel f net n item = Some (false, l, s, evs) ->
    exists u us k clipResp labels scores,
      ImageURLs item = u :: us
      /\ (n <= k)%nat
      /\ (forall j, (n <= j < k)%nat -> loading (net (requestFor f u) j) = true)
      /\ (net (requestFor f u) k = ClipReceived 200 (BodyObject clipResp)
          \/ exists more,
              net (requestFor f u) k = ClipReceived 200 (BodyArray (clipResp :: more)))
      /\ Labels clipResp = l :: labels
      /\ Scores clipResp = s :: scores
      /\ l ∈ trashLabels f
      /\ PrimFloat.ltb 0.3 s = true.
Proof.
  induction fuel as [|fuel IH]; intros n item l s evs H; [discriminate|].
  simpl in H. destruct (ImageURLs item) as [|u us] eqn:E; [discriminate|].
  fold (requestFor f u) in H.
  destruct (net (requestFor f u) n) as [| | | st|st body] eqn:X; try discriminate.
  destruct (Z.eqb_spec st 200) as [->|Hne]; simpl in H.
  - assert (Hparsed : forall clipResp,
               parseResponse body = Some clipResp ->
               net (requestFor f u) n = ClipReceived 200 (BodyObject clipResp)
               \/ exists more,
                   net (requestFor f u) n = ClipReceived 200 (BodyArray (clipResp :: more))).
    { intros clipResp P. rewrite X. destruct body as [r|[|r more]|]; simpl in P.
      - inversion P; subst. now left.
      - discriminate.
      - inversion P; subst. right. now exists more.
      - discriminate. }
    destruct (parseResponse body) as [clipResp|]; [|discriminate].
    destruct (Labels clipResp) as [|topLabel labels] eqn:L; [discriminate|].
    destruct (Scores clipResp) as [|topScore scores] eqn:S; [discriminate|].
    rewrite isTrash_spec in H.
    destruct (bool_decide (topLabel ∈ trashLabels f)) eqn:Hin; simpl in H; [|discriminate].
    destruct (PrimFloat.ltb threshold topScore) eqn:Hlt; [|discriminate].
    inversion H; subst. apply bool_decide_eq_true in Hin.
    exists u, us, n, clipResp, labels, scores.
    repeat split; auto. intros j Hj. lia.
  - destruct (Z.eqb_spec st 503) as [->|Hne']; [|discriminate].
    destruct (classifyItem fuel f net (S n) item) as [[[[k0 l0] s0] evs0]|] eqn:R; [|discriminate].
    inversion H; subst.
    destruct (IH _ _ _ _ _ R) as (u' & us' & k & clipResp & labels & scores
                                  & E' & Hk & Hload & Hx & Hl & Hs & Hin & Hlt).
    rewrite E in E'. inversion E'; subst u' us'.
    exists u, us, k, clipResp, labels, scores.
    repeat split; auto; try lia.
    intros j Hj. destruct (decide (j = n)) as [->|Hjn].
    + rewrite X. reflexivity.
    + apply Hload. lia.
Qed.

(** What the plain pass keeps, it keeps because a slot said so. *)
Lemma filterFrom_kept (fuel : nat) (f : AIFilter)
      (nets : nat -> clipRequest -> nat -> ClipExchange) (items : list Item) :
  forall (i : nat) (keptItems : list Item) (item : Item),
    filterFrom fuel f nets i items = Some keptItems ->
    item ∈ keptItems ->
    exists j r, items !! j = Some item
                /\ slotResult fuel f nets (i + j) item = Some r /\ keep r = true.
Proof.
  induction items as [|item0 rest IH]; intros i keptItems item H Hin; simpl in H.
  - inversion H; subst. inversion Hin.
  - destruct (slotResult fuel f nets i item0) as [r0|] eqn:E0; [|discriminate].
    destruct (filterFrom fuel f nets (S i) rest) as [keptRest|] eqn:E; [|discriminate].
    inversion H; subst. clear H.
    assert (Hrest : item ∈ keptRest ->
                    exists j r, (item0 :: rest) !! j = Some item
                                /\ slotResult fuel f nets (i + j) item = Some r /\ keep r = true).
    { intros Hr. destruct (IH _ _ _ E Hr) as (j & r & Hj & Hs & Hk).
      exists (S j), r. replace (i + S j)%nat with (S i + j)%nat by lia. auto. }
    destruct (keep r0) eqn:K0; [|auto].
    apply elem_of_cons in Hin as [->|Hin]; [|auto].
    exists 0%nat, r0. rewrite Nat.add_0_r. auto.
Qed.

(** C6: the decision of the image filter.
    - A listing without image is kept without any classification: its
      slot is filled by the dispatch loop, whatever the classifier would
      say, and it is in the output; classifyItem itself, were it called,
      would keep it without a request.
    - For a listing with an image, whose classification meets, after any
      number of model-loading replies, a 200 reply that carries a ranking
      (a single object, or an array, of which the first element counts):
      classifyItem returns the first label and the first score of the
      ranking, and rejects exactly when that label is in the reject set
      and that score is strictly above 0.3.  So a first label outside the
      reject set keeps the listing whatever the score, and so does a
      score of exactly 0.3.
    - Conversely, a call that rejects has met such a reply, with a
      reject label scored above 0.3.
    - In FilterItems, over any list and whatever the order in which the
      goroutines finish, a listing that classifyItem keeps is in the
      output, and one that it rejects is not (the filter being enabled,
      and the listing standing once in the list). *)
Theorem filter_decision (fuel : nat) (f : AIFilter) (item : Item) :
  (ImageURLs item = [] ->
   forall (nets : nat -> clipRequest -> nat -> ClipExchange),
     (forall i, slotResult fuel f nets i item
                = Some {| index := i; keep := true; label := "no_image";
                          score := PrimFloat.zero |})
     /\ (forall i n, classifyItem (S fuel) f (nets i) n item
                     = Some (true, "no_image", PrimFloat.zero, []))
     /\ forall (order : list nat) (items : list Item) (i : nat) (keptItems : list Item),
         items !! i = Some item ->
         order ≡ₚ seq 0 (length items) ->
         FilterItemsSched fuel f nets order items = Some keptItems ->
         item ∈ keptItems)
  /\ (forall (net : clipRequest -> nat -> ClipExchange) (u : string) (us : list string) (k : nat)
             (clipResp : clipResponse) (topLabel : string) (labels : list string)
             (topScore : float) (scores : list float),
        ImageURLs item = u :: us ->
        (forall j, (j < k)%nat -> loading (net (requestFor f u) j) = true) ->
        (net (requestFor f u) k = ClipReceived 200 (BodyObject clipResp)
         \/ exists more,
             net (requestFor f u) k = ClipReceived 200 (BodyArray (clipResp :: more))) ->
        Labels clipResp = topLabel :: labels ->
        Scores clipResp = topScore :: scores ->
        (k < fuel)%nat ->
        exists evs,
          classifyItem fuel f net 0 item
          = Some (negb (bool_decide (topLabel ∈ trashLabels f) && PrimFloat.ltb 0.3 topScore),
                  topLabel, topScore, evs)
          /\ requests evs = S k
          /\ sleeps evs = replicate k (20 * Second)
          /\ (topLabel ∉ trashLabels f \/ topScore = 0.3%float ->
              classifyItem fuel f net 0 item = Some (true, topLabel, topScore, evs)))
  /\ (forall (net : clipRequest -> nat -> ClipExchange) (l : string) (s : float)
             (evs : list Event),
        classifyItem fuel f net 0 item = Some (false, l, s, evs) ->
        exists u us k clipResp labels scores,
          ImageURLs item = u :: us
          /\ (forall j, (j < k)%nat -> loading (net (requestFor f u) j) = true)
          /\ (net (requestFor f u) k = ClipReceived 200 (BodyObject clipResp)
              \/ exists more,
                  net (requestFor f u) k = ClipReceived 200 (BodyArray (clipResp :: more)))
          /\ Labels clipResp = l :: labels
          /\ Scores clipResp = s :: scores
          /\ l ∈ trashLabels f
          /\ PrimFloat.ltb 0.3 s = true)
  /\ (forall (nets : nat -> clipRequest -> nat -> ClipExchange) (order : list nat)
             (items : list Item) (i : nat) (keptItems : list Item)
             (u : string) (us : list string)
             (keepIt : bool) (l : string) (s : float) (evs : list Event),
        ImageURLs item = u :: us ->
        items !! i = Some item ->
        order ≡ₚ seq 0 (length items) ->
        classifyItem fuel f (nets i) 0 item = Some (keepIt, l, s, evs) ->
        FilterItemsSched fuel f nets order items = Some keptItems ->
        (keepIt = true -> item ∈ keptItems)
        /\ (keepIt = false -> enabled f = true ->
            (forall j, items !! j = Some item -> j = i) -> item ∉ keptItems)).
Proof.
  split; [|split; [|split]].
  - intros E nets.
    assert (Hslot : forall i, slotResult fuel f nets i item
                              = Some {| index := i; keep := true; label := "no_image";
                                        score := PrimFloat.zero |}).
    { intros i. unfold slotResult. now rewrite E. }
    split; [exact Hslot|]. split; [intros i n; now apply classifyItem_no_image|].
    intros order items i keptItems Hi Hperm H.
    eapply (FilterItemsSched_keeps fuel f nets order items i); eauto.
  - intros net u us k clipResp topLabel labels topScore scores E Hload Hx Hl Hs Hfuel.
    destruct (classifyItem_ranked_chain f net k fuel 0 item u us clipResp topLabel labels
                topScore scores E Hload Hx Hl Hs Hfuel) as (evs & Hc & Hr & Hsl).
    exists evs. repeat split; try assumption.
    intros [Hout | ->]; rewrite Hc.
    + rewrite bool_decide_eq_false_2 by exact Hout. reflexivity.
    + replace (PrimFloat.ltb 0.3 0.3) with false by reflexivity.
      now rewrite andb_false_r.
  - intros net l s evs H.
    destruct (classifyItem_rejects_only f net fuel 0 item l s evs H)
      as (u & us & k & clipResp & labels & scores & E & _ & Hload & Hx & Hl & Hs & Hin & Hlt).
    exists u, us, k, clipResp, labels, scores. repeat split; auto.
    intros j Hj. apply Hload. lia.
  - intros nets order items i keptItems u us keepIt l s evs E Hi Hperm Hc H.
    assert (Hslot : slotResult fuel f nets i item
                    = Some {| index := i; keep := keepIt; label := l; score := s |}).
    { unfold slotResult. now rewrite E, Hc. }
    split.
    + intros ->. eapply (FilterItemsSched_keeps fuel f nets order items i); eauto.
    + intros -> Hon Honce Hin.
      rewrite FilterItemsSched_filterFrom in H by exact Hperm. rewrite Hon in H.
      destruct (filterFrom_kept fuel f nets items 0 keptItems item H Hin)
        as (j & r & Hj & Hr & Hk).
      rewrite (Honce j Hj) in Hr. simpl in Hr. rewrite Hslot in Hr.
      inversion Hr; subst r. discriminate.
Qed.

(** The theorem at work: the classifier ranks the reject label an empty
    box first with 0.31.  classifyItem rejects the listing after one
    request, and FilterItems, the goroutines finishing in reverse order,
    leaves it out and keeps the listing without image. *)
Lemma filter_decision_witness :
  (exists evs,
      classifyItem 1 Scenario.clip (fun _ _ => Scenario.scored "an empty box" 0.31%float)
                   0 Scenario.bag
      = Some (false, "an empty box", 0.31%float, evs)
      /\ requests evs = 1%nat
      /\ sleeps evs = [])
  /\ (forall keptItems,
        FilterItemsSched 1 Scenario.clip
                         (fun _ _ _ => Scenario.scored "an empty box" 0.31%float)
                         [1; 0]%nat [Scenario.poster; Scenario.bag] = Some keptItems ->
        (Scenario.bag ∉ keptItems) /\ Scenario.poster ∈ keptItems).
Proof.
  pose (nets := fun (_ : nat) (_ : clipRequest) (_ : nat) =>
                  Scenario.scored "an empty box" 0.31%float).
  destruct (filter_decision 1 Scenario.clip Scenario.bag) as (_ & Hif & _ & Hout).
  destruct (Hif (nets 1%nat) "https://static.mercdn.net/m1_1.jpg" []
                0%nat {| Labels := ["an empty box"; "a watch"];
                         Scores := [0.31%float; 0x1p-4%float] |}
                "an empty box" ["a watch"] 0.31%float [0x1p-4%float])
    as (evs & Hc & Hr & Hs & _).
  - reflexivity.
  - intros j Hj. lia.
  - left. reflexivity.
  - reflexivity.
  - reflexivity.
  - lia.
  - split; [exists evs; split; [exact Hc|split; [exact Hr|exact Hs]]|].
    intros keptItems H. split.
    + apply (proj2 (Hout nets [1; 0]%nat [Scenario.poster; Scenario.bag] 1%nat keptItems
                         "https://static.mercdn.net/m1_1.jpg" []
                         false "an empty box" 0.31%float evs
                         eq_refl eq_refl (perm_swap 0%nat 1%nat []) Hc H)).
      * reflexivity.
      * reflexivity.
      * intros [|[|j]] Hj; [discriminate|reflexivity|discriminate].
    + destruct (filter_decision 1 Scenario.clip Scenario.poster) as (Hnone & _).
      apply (proj2 (proj2 (Hnone eq_refl nets)) [1; 0]%nat [Scenario.poster; Scenario.bag]
                   0%nat keptItems eq_refl (perm_swap 0%nat 1%nat []) H).
Defined.

(** The reject threshold on concrete replies: 0.31 on a reject label is
    excluded, exactly 0.30 is kept, a keep label is kept at any score, and
    a listing without image is kept with no request made. *)
Example reject_threshold_runs :
  let run x := FilterItems 1 Scenario.clip (fun _ _ _ => x) [Scenario.bag] in
  threshold = 0.3%float
  /\ run (Scenario.scored "an empty box" 0.31%float) = Some []
  /\ run (Scenario.scored "an empty box" 0.30%float) = Some [Scenario.bag]
  /\ run (Scenario.scored "a designer handbag" 0.99%float) = Some [Scenario.bag]
  /\ run (Scenario.scored "a designer handbag" 0.05%float) = Some [Scenario.bag]
  /\ FilterItems 0 Scenario.clip (fun _ _ _ => Scenario.scored "an empty box" 0.99%float)
                 [Scenario.poster] = Some [Scenario.poster]
  /\ classifyItem 1 Scenario.clip (fun _ _ => Scenario.scored "an empty box" 0.99%float)
                  0 Scenario.poster = Some (true, "no_image", PrimFloat.zero, []).
Proof. vm_compute. repeat split. Qed.

(** C3, on the code: the classifier answers 503 twice and then ranks a
    reject label first.  classifyItem does not stop after one retry: it
    sends a third request, after two sleeps of twenty seconds, and the
    listing is rejected instead of being kept. *)
Theorem classifyItem_retries_while_loading :
  let req := requestFor Scenario.clip "https://static.mercdn.net/m1_1.jpg" in
  classifyItem 3 Scenario.clip Scenario.loadingTwice 0 Scenario.bag
  = Some (false, "an empty box", 0.9%float,
          [Post req; Sleep (20 * Second); Post req; Sleep (20 * Second); Post req])
  /\ requests [Post req; Sleep (20 * Second); Post req; Sleep (20 * Second); Post req] = 3%nat
  /\ FilterItems 3 Scenario.clip (fun _ => Scenario.loadingTwice) [Scenario.bag] = Some [].
Proof. vm_compute. repeat split. Qed.

End FilterResults.

(** ** The retry orchestrator *)

Section RetryFacts.

Import Go Bot.

Variable cfg : Config.Config.
Variable env : Env.

Lemma wrap64_small (z : Z) : - 2 ^ 63 <= z < 2 ^ 63 -> wrap64 z = z.
Proof. intros H. unfold wrap64. rewrite Z.mod_small; lia. Qed.

Lemma jitterOf_bounds (d : nat) : 0 <= jitterOf env d < Second.
Proof.
  unfold jitterOf, Intn, Millisecond, Second.
  pose proof (Z.mod_pos_bound (randSource env d) 1000 ltac:(lia)). lia.
Qed.

(** Up to retry 34 the wait is 2^(attempt-1) seconds plus the jitter,
    without overflow of the int64 nanoseconds. *)
Lemma retry_wait_value (attempt : Z) (d : nat) :
  1 <= attempt <= 34 ->
  wrap64 (backoff attempt + wrap64 (Intn (randSource env d) 1000 * Millisecond))
  = 2 ^ (attempt - 1) * Second + jitterOf env d.
Proof.
  intros Ha. pose proof (jitterOf_bounds d) as Hj. unfold jitterOf in *.
  unfold backoff. rewrite Z.shiftl_1_l.
  assert (Hp : 1 <= 2 ^ (attempt - 1) <= 2 ^ 33).
  { split.
    - apply (Z.pow_le_mono_r 2 0 (attempt - 1)); lia.
    - apply Z.pow_le_mono_r; lia. }
  change (2 ^ 33) with 8589934592 in Hp.
  unfold Second, Millisecond in *.
  rewrite (wrap64_small (2 ^ (attempt - 1))) by lia.
  rewrite (wrap64_small (2 ^ (attempt - 1) * 1000000000)) by lia.
  rewrite (wrap64_small (Intn (randSource env d) 1000 * 1000000)) by lia.
  apply wrap64_small. lia.
Qed.

Lemma retryLoop_retry (q : Mercari.SearchQuery) (remaining : nat) (attempt : Z)
      (lastErr : option error) (w : World) :
  1 <= attempt ->
  retryLoop env q (S remaining) attempt lastErr w
  = match Mercari.SearchWithFallback q (searchNet env (searches w) q) with
    | inr items => Done (inr items) (afterRetry env w attempt)
    | inl err => retryLoop env q remaining (attempt + 1) (Some err) (afterRetry env w attempt)
    end.
Proof.
  intros Ha. simpl. assert (H : (0 <? attempt) = true) by (apply Z.ltb_lt; lia).
  rewrite H. unfold bind, retryWait, bind, randIntn, sleep, searchWithFallback, afterRetry. simpl.
  destruct (Mercari.SearchWithFallback q (searchNet env (searches w) q)); reflexivity.
Qed.

Lemma retryLoop_first (q : Mercari.SearchQuery) (remaining : nat)
      (lastErr : option error) (w : World) :
  retryLoop env q (S remaining) 0 lastErr w
  = match Mercari.SearchWithFallback q (searchNet env (searches w) q) with
    | inr items => Done (inr items) (afterSearch w)
    | inl err => retryLoop env q remaining 1 (Some err) (afterSearch w)
    end.
Proof.
  simpl. unfold bind, ret, searchWithFallback, afterSearch. simpl.
  destruct (Mercari.SearchWithFallback q (searchNet env (searches w) q)); reflexivity.
Qed.

Lemma retryLoop_done (q : Mercari.SearchQuery) (attempt : Z) (lastErr : option error) (w : World) :
  retryLoop env q 0 attempt lastErr w = Done (inl lastErr) w.
Proof. reflexivity. Qed.

(** [m] retries in a row that fail. *)
Lemma retryLoop_fails (q : Mercari.SearchQuery) (m : nat) :
  forall (remaining : nat) (attempt : Z) (lastErr : option error) (w : World),
    1 <= attempt ->
    attempt + Z.of_nat m <= 35 ->
    (m <= remaining)%nat ->
    (forall j, (j < m)%nat -> is_Some (searchError env q (searches w + j))) ->
    exists w',
      retryLoop env q remaining attempt lastErr w
      = retryLoop env q (remaining - m) (attempt + Z.of_nat m)
                  (match m with
                   | O => lastErr
                   | S m' => searchError env q (searches w + m')
                   end) w'
      /\ searches w' = (searches w + m)%nat
      /\ draws w' = (draws w + m)%nat
      /\ slept w' = slept w ++ waitsFrom env attempt (draws w) m
      /\ store w' = store w
      /\ outbox w' = outbox w.
Proof.
  induction m as [|m IH]; intros remaining attempt lastErr w Ha Hb Hm Hfail.
  - exists w. simpl. rewrite Nat.sub_0_r, Z.add_0_r, !Nat.add_0_r, app_nil_r.
    repeat split; reflexivity.
  - destruct remaining as [|remaining]; [lia|].
    rewrite retryLoop_retry by exact Ha.
    destruct (Hfail 0%nat ltac:(lia)) as [e0 He0]. rewrite Nat.add_0_r in He0.
    unfold searchError in He0.
    destruct (Mercari.SearchWithFallback q (searchNet env (searches w) q)) as [err|items] eqn:E0;
      [|discriminate].
    destruct (IH remaining (attempt + 1) (Some err) (afterRetry env w attempt))
      as (w' & Hrun & Hs & Hd & Hsl & Hst & Hob).
    + lia.
    + lia.
    + lia.
    + intros j Hj. simpl. replace (S (searches w + j)) with (searches w + S j)%nat by lia.
      apply Hfail. lia.
    + exists w'. simpl in *. split; [|repeat split].
      * rewrite Hrun. replace (attempt + 1 + Z.of_nat m) with (attempt + Z.pos (Pos.of_succ_nat m)) by lia.
        destruct m as [|m'].
        -- rewrite Nat.add_0_r. unfold searchError. rewrite E0. reflexivity.
        -- replace (S (searches w + m')) with (searches w + S m')%nat by lia. reflexivity.
      * lia.
      * lia.
      * rewrite Hsl. rewrite retry_wait_value by lia. rewrite <- app_assoc. simpl.
        reflexivity.
      * exact Hst.
      * exact Hob.
Qed.

Lemma waitsFrom_length (attempt : Z) (d n : nat) : length (waitsFrom env attempt d n) = n.
Proof. revert attempt d. induction n as [|n IH]; intros; simpl; auto. Qed.

(** The wait before retry [attempt + i] stands at position [i]. *)
Lemma waitsFrom_lookup (n : nat) :
  forall (attempt : Z) (d i : nat),
    (i < n)%nat ->
    waitsFrom env attempt d n !! i
    = Some (2 ^ (attempt + Z.of_nat i - 1) * Second + jitterOf env (d + i)).
Proof.
  induction n as [|n IH]; intros attempt d i Hi; [lia|].
  destruct i as [|i]; simpl.
  - rewrite Z.add_0_r, Nat.add_0_r. reflexivity.
  - rewrite IH by lia.
    replace (attempt + 1 + Z.of_nat i - 1) with (attempt + Z.of_nat (S i) - 1) by lia.
    replace (S d + i)%nat with (d + S i)%nat by lia. reflexivity.
Qed.

Lemma waitsFrom_snoc (n : nat) :
  forall (attempt : Z) (d : nat),
    waitsFrom env attempt d (S n)
    = waitsFrom env attempt d n
      ++ [2 ^ (attempt + Z.of_nat n - 1) * Second + jitterOf env (d + n)].
Proof.
  induction n as [|n IH]; intros attempt d.
  - simpl. rewrite Z.add_0_r, Nat.add_0_r. reflexivity.
  - change (waitsFrom env attempt d (S (S n)))
      with ((2 ^ (attempt - 1) * Second + jitterOf env d)
              :: waitsFrom env (attempt + 1) (S d) (S n)).
    rewrite IH. simpl.
    replace (attempt + 1 + Z.of_nat n - 1) with (attempt + Z.pos (Pos.of_succ_nat n) - 1) by lia.
    replace (S (d + n)) with (d + S n)%nat by lia. reflexivity.
Qed.

Lemma searchError_None (q : Mercari.SearchQuery) (n : nat) :
  searchError env q n = None ->
  exists items, Mercari.SearchWithFallback q (searchNet env n q) = inr items.
Proof.
  unfold searchError. destruct (Mercari.SearchWithFallback q (searchNet env n q)); [discriminate|eauto].
Qed.

Lemma searchError_Some (q : Mercari.SearchQuery) (n : nat) :
  is_Some (searchError env q n) ->
  exists err, Mercari.SearchWithFallback q (searchNet env n q) = inl err
              /\ searchError env q n = Some err.
Proof.
  unfold searchError. destruct (Mercari.SearchWithFallback q (searchNet env n q)) as [err|items].
  - eauto.
  - intros [e He]. discriminate.
Qed.

(** C7: searchWithRetry.  Let the first [fails] attempts fail and the next
    one, if the loop has one left, succeed.  Then the call makes
    min(fails, maxRetries) + 1 searches, the first without waiting; before
    retry k it sleeps 2^(k-1) seconds plus a jitter of rand.Intn(1000)
    milliseconds, which is under one second; it returns the items of the
    first search that succeeds, and when all maxRetries + 1 attempts fail,
    an error that wraps the error of the last attempt.  (maxRetries is at
    most 34, so that the int64 nanoseconds of the wait do not overflow;
    scanBrand passes 3.) *)
Theorem searchWithRetry_backoff (keyword : string) (priceMin priceMax maxRetries : Z)
        (w : World) (fails : nat) :
  0 <= maxRetries <= 34 ->
  (fails <= Z.to_nat maxRetries + 1)%nat ->
  (forall j, (j < fails)%nat ->
             is_Some (searchError env (queryOf cfg keyword priceMin priceMax) (searches w + j))) ->
  ((fails <= Z.to_nat maxRetries)%nat ->
   searchError env (queryOf cfg keyword priceMin priceMax) (searches w + fails) = None) ->
  exists r w',
    searchWithRetry cfg env keyword priceMin priceMax maxRetries w = Done r w'
    /\ searches w' = (searches w + (Nat.min fails (Z.to_nat maxRetries) + 1))%nat
    /\ slept w' = slept w ++ waitsFrom env 1 (draws w) (Nat.min fails (Z.to_nat maxRetries))
    /\ (forall k, (1 <= k <= Nat.min fails (Z.to_nat maxRetries))%nat ->
          slept w' !! (length (slept w) + (k - 1))%nat
          = Some (2 ^ (Z.of_nat k - 1) * Second + jitterOf env (draws w + (k - 1)))
          /\ 0 <= jitterOf env (draws w + (k - 1)) < Second)
    /\ (fails = S (Z.to_nat maxRetries) ->
        exists lastErr,
          searchError env (queryOf cfg keyword priceMin priceMax)
                      (searches w + Z.to_nat maxRetries) = Some lastErr
          /\ r = inl (wrapError ("all " +:+ pretty maxRetries +:+ " retries failed") lastErr))
    /\ ((fails <= Z.to_nat maxRetries)%nat ->
        exists items,
          r = inr items
          /\ Mercari.SearchWithFallback (queryOf cfg keyword priceMin priceMax)
               (searchNet env (searches w + fails) (queryOf cfg keyword priceMin priceMax))
             = inr items).
Proof.
  intros Hmax Hf Hfail Hok.
  set (q := queryOf cfg keyword priceMin priceMax) in *.
  set (retries := Z.to_nat maxRetries) in *.
  assert (Hlook : forall w' n,
             (n <= retries)%nat ->
             slept w' = slept w ++ waitsFrom env 1 (draws w) n ->
             forall k, (1 <= k <= n)%nat ->
               slept w' !! (length (slept w) + (k - 1))%nat
               = Some (2 ^ (Z.of_nat k - 1) * Second + jitterOf env (draws w + (k - 1)))
               /\ 0 <= jitterOf env (draws w + (k - 1)) < Second).
  { intros w' n Hn Hsl k Hk. split; [|apply jitterOf_bounds].
    rewrite Hsl. rewrite lookup_app_r by lia.
    replace (length (slept w) + (k - 1) - length (slept w))%nat with (k - 1)%nat by lia.
    rewrite waitsFrom_lookup by lia.
    replace (1 + Z.of_nat (k - 1) - 1) with (Z.of_nat k - 1) by lia. reflexivity. }
  unfold searchWithRetry. change (retryLoop env _ (Z.to_nat (maxRetries + 1)) 0 None)
    with (retryLoop env q (Z.to_nat (maxRetries + 1)) 0 None).
  replace (Z.to_nat (maxRetries + 1)) with (S retries) by (unfold retries; lia).
  unfold bind at 1. rewrite retryLoop_first.
  destruct fails as [|m].
  - (* the first attempt succeeds *)
    destruct (searchError_None q _ (Hok ltac:(lia))) as [items Hitems].
    rewrite Nat.add_0_r in Hitems. rewrite Hitems.
    exists (inr items), (afterSearch w). simpl. rewrite app_nil_r.
    split; [reflexivity|]. split; [lia|]. split; [reflexivity|].
    split; [intros k Hk; lia|]. split; [discriminate|].
    intros _. exists items. rewrite Nat.add_0_r. auto.
  - (* it fails, and so do [m] retries *)
    destruct (searchError_Some q _ (Hfail 0%nat ltac:(lia))) as (err0 & Herr0 & Hse0).
    rewrite Nat.add_0_r in Herr0, Hse0. rewrite Herr0.
    destruct (retryLoop_fails q m retries 1 (Some err0) (afterSearch w))
      as (w1 & Hrun & Hs1 & Hd1 & Hsl1 & _ & _).
    + lia.
    + lia.
    + lia.
    + intros j Hj. simpl. replace (S (searches w + j)) with (searches w + S j)%nat by lia.
      apply Hfail. lia.
    + simpl in Hs1, Hd1, Hsl1. rewrite Hrun.
      destruct (decide (m = retries)) as [Hex|Hmore].
      * (* no attempt is left *)
        subst m. rewrite Nat.sub_diag, retryLoop_done. cbv beta iota.
        assert (Hlast : exists lastErr,
                   match retries with
                   | O => Some err0
                   | S m' => searchError env q (searches (afterSearch w) + m')
                   end = Some lastErr
                   /\ searchError env q (searches w + retries) = Some lastErr).
        { destruct retries as [|m'] eqn:R.
          - exists err0. rewrite Nat.add_0_r. auto.
          - simpl. replace (S (searches w + m')) with (searches w + S m')%nat by lia.
            destruct (searchError_Some q _ (Hfail (S m') ltac:(lia))) as (e & _ & He).
            eauto. }
        destruct Hlast as (lastErr & Hl1 & Hl2). rewrite Hl1. unfold ret.
        exists (inl (wrapError ("all " +:+ pretty maxRetries +:+ " retries failed") lastErr)), w1.
        rewrite Nat.min_r by lia.
        split; [reflexivity|]. split; [lia|]. split; [exact Hsl1|].
        split; [now apply (Hlook w1 retries)|]. split; [eauto|]. intros; lia.
      * (* the next retry succeeds *)
        destruct (retries - m)%nat as [|left] eqn:L; [lia|].
        rewrite retryLoop_retry by lia.
        destruct (searchError_None q _ (Hok ltac:(lia))) as [items Hitems].
        rewrite Hs1. replace (S (searches w + m)) with (searches w + S m)%nat by lia.
        rewrite Hitems. cbv beta iota. unfold ret.
        exists (inr items), (afterRetry env w1 (1 + Z.of_nat m)).
        rewrite Nat.min_l by lia.
        assert (Hsl : slept (afterRetry env w1 (1 + Z.of_nat m))
                      = slept w ++ waitsFrom env 1 (draws w) (S m)).
        { unfold afterRetry. cbn [slept]. rewrite retry_wait_value by lia.
          rewrite Hsl1, Hd1, waitsFrom_snoc. rewrite <- app_assoc. reflexivity. }
        split; [reflexivity|]. split; [unfold afterRetry; cbn [searches]; lia|].
        split; [exact Hsl|].
        split; [apply (Hlook _ (S m)); [lia|exact Hsl]|]. split; [intros; lia|].
        intros _. eauto.
Qed.

End RetryFacts.

Section RetryRuns.

Import Go Bot Scenario.

Lemma searchWithRetry_backoff_witness :
  exists r w',
    searchWithRetry cfg searchDown "gucci bag" 3000 15000 3 start = Done r w'
    /\ searches w' = (searches start + (Nat.min 4 (Z.to_nat 3) + 1))%nat
    /\ slept w' = slept start ++ waitsFrom searchDown 1 (draws start) (Nat.min 4 (Z.to_nat 3))
    /\ (forall k, (1 <= k <= Nat.min 4 (Z.to_nat 3))%nat ->
          slept w' !! (length (slept start) + (k - 1))%nat
          = Some (2 ^ (Z.of_nat k - 1) * Second + jitterOf searchDown (draws start + (k - 1)))
          /\ 0 <= jitterOf searchDown (draws start + (k - 1)) < Second)
    /\ (4%nat = S (Z.to_nat 3) ->
        exists lastErr,
          searchError searchDown (queryOf cfg "gucci bag" 3000 15000)
                      (searches start + Z.to_nat 3) = Some lastErr
          /\ r = inl (wrapError ("all " +:+ pretty 3 +:+ " retries failed") lastErr))
    /\ ((4 <= Z.to_nat 3)%nat ->
        exists items,
          r = inr items
          /\ Mercari.SearchWithFallback (queryOf cfg "gucci bag" 3000 15000)
               (searchNet searchDown (searches start + 4) (queryOf cfg "gucci bag" 3000 15000))
             = inr items).
Proof.
  apply (searchWithRetry_backoff cfg searchDown "gucci bag" 3000 15000 3 start 4).
  - lia.
  - simpl. lia.
  - intros j Hj. eexists. reflexivity.
  - simpl. intros H. lia.
Defined.

(** The retry bound on a client that always fails, with maxRetries = 3:
    four searches, three waits of one, two and four seconds plus jitter,
    and an error that wraps the error of the last search. *)
Example searchWithRetry_always_failing :
  exists w',
    searchWithRetry cfg searchDown "gucci bag" 3000 15000 3 start
    = Done (inl (wrapError "all 3 retries failed"
                   (wrapError "search failed for 'gucci bag'"
                      (wrapError "search request failed" timeout)))) w'
    /\ searches w' = 4%nat
    /\ slept w' = [1 * Second + 456 * Millisecond;
                   2 * Second + 233 * Millisecond;
                   4 * Second + 10 * Millisecond].
Proof. eexists. split; [vm_compute; reflexivity|]. vm_compute. repeat split. Qed.

End RetryRuns.

(** ** The tolerant numeric parser *)

Section NumberFacts.

Import Go Mercari Scenario.

Lemma ParseInt_syntax_zero (s : string) :
  snd (strconv.ParseInt s) = Some strconv.ErrSyntax -> fst (strconv.ParseInt s) = 0.
Proof.
  unfold strconv.ParseInt. destruct (list_ascii_of_string s) as [|c rest]; [reflexivity|].
  cbv zeta.
  destruct (strconv.ParseUint (if strconv.isPlus c || strconv.isMinus c then rest else c :: rest))
    as [un [[|]|]]; [reflexivity| |];
    destruct (negb (strconv.isMinus c) && (2 ^ 63 <=? un));
    try discriminate;
    destruct (strconv.isMinus c && (2 ^ 63 <? un)); discriminate.
Qed.

(** The order of the three attempts. *)
Lemma jsonNumberToInt_int (n : Number) (v : Z) :
  Int64 n = (v, None) -> jsonNumberToInt n = v.
Proof.
  intros H. unfold jsonNumberToInt. rewrite H.
  destruct (String.eqb_spec n "") as [->|_]; [|reflexivity].
  vm_compute in H. discriminate.
Qed.

Lemma jsonNumberToInt_float (n : Number) (v : Z) (e : strconv.NumError) (f : float) :
  n <> "" -> Int64 n = (v, Some e) -> Float64 n = (f, None) ->
  jsonNumberToInt n = strconv.int_of_float64 f.
Proof.
  intros Hn Hi Hf. unfold jsonNumberToInt. rewrite Hi, Hf.
  destruct (String.eqb_spec n "") as [->|_]; [congruence|reflexivity].
Qed.

Lemma jsonNumberToInt_raw (n : Number) (v : Z) (e e' : strconv.NumError) (f : float) :
  n <> "" -> Int64 n = (v, Some e) -> Float64 n = (f, Some e') ->
  jsonNumberToInt n = fst (strconv.Atoi n).
Proof.
  intros Hn Hi Hf. unfold jsonNumberToInt. rewrite Hi, Hf.
  destruct (String.eqb_spec n "") as [->|_]; [congruence|reflexivity].
Qed.

(** When the integer parser rejects the syntax and the float parser fails
    too, the result is zero. *)
Lemma jsonNumberToInt_syntax_zero (n : Number) :
  snd (Int64 n) = Some strconv.ErrSyntax -> snd (Float64 n) <> None ->
  jsonNumberToInt n = 0.
Proof.
  intros Hi Hf. unfold jsonNumberToInt.
  destruct (String.eqb n ""); [reflexivity|].
  pose proof (ParseInt_syntax_zero n Hi) as Hz. unfold Int64 in *.
  destruct (strconv.ParseInt n) as [v [e|]] eqn:E; [|discriminate].
  destruct (Float64 n) as [f [e'|]]; [|contradiction].
  unfold strconv.Atoi. rewrite E. exact Hz.
Qed.

(** Once the body has been decoded, Search returns one Item per raw item,
    whatever the number fields hold. *)
Lemma Search_decoded (body : string) (apiResp : searchAPIResponse) :
  Search (SearchReceived 200 body (inr apiResp)) = inr (List.map convertItem (apiItems apiResp)).
Proof. reflexivity. Qed.

(** The three encodings of 15000, and fields that hold no number. *)
Example jsonNumberToInt_runs :
  jsonNumberToInt "15000" = 15000
  /\ jsonNumberToInt "15000.0" = 15000
  /\ jsonNumberToInt "1.5e4" = 15000
  /\ jsonNumberToInt "" = 0
  /\ jsonNumberToInt "abc" = 0
  /\ jsonNumberToInt "1e400" = 0.
Proof. vm_compute. repeat split. Qed.

(** C9, on the code: a price sent as a number of four hundred nines.
    Integer parsing, float parsing and the raw-string integer parsing all
    fail, each with a range error, and jsonNumberToInt returns the largest
    int64, not zero: the value strconv.Atoi hands back beside its error,
    which the function returns without looking at the error. *)
Theorem jsonNumberToInt_clamps_on_range_error :
  snd (Int64 nines400) = Some strconv.ErrRange
  /\ snd (Float64 nines400) = Some strconv.ErrRange
  /\ strconv.Atoi nines400 = (9223372036854775807, Some strconv.ErrRange)
  /\ jsonNumberToInt nines400 = 9223372036854775807.
Proof. vm_compute. repeat split. Qed.

End NumberFacts.

(** ** The cycle orchestrator *)

Section CycleFacts.

Import Go Bot.

Variable cfg : Config.Config.
Variable filter : Mercari.AIFilter.
Variable env : Env.
Variable fuel : nat.

Lemma bind_Done {A B : Type} (m : M A) (k : A -> M B) (w w2 : World) (b : B) :
  bind m k w = Done b w2 ->
  exists a w1, m w = Done a w1 /\ k a w1 = Done b w2.
Proof.
  unfold bind. destruct (m w) as [a w1| |]; try discriminate. eauto.
Qed.

(** Splits a finished sequence of two steps into its steps. *)
Ltac bind_inv H :=
  let a := fresh "a" in
  let w := fresh "w" in
  let H1 := fresh "Hstep" in
  apply bind_Done in H as (a & w & H1 & H).

Lemma ret_Done {A : Type} (a b : A) (w w' : World) :
  ret a w = Done b w' -> a = b /\ w = w'.
Proof. unfold ret. intros H. inversion H. auto. Qed.

(** Every stage only removes listings from what it was given. *)
Lemma ageFilter_sublist (items : list Mercari.Item) :
  forall (w w' : World) (freshItems : list Mercari.Item),
    ageFilter cfg env items w = Done freshItems w' ->
    freshItems `sublist_of` items.
Proof.
  induction items as [|item rest IH]; intros w w' freshItems H; simpl in H.
  - apply ret_Done in H as [<- _]. constructor.
  - bind_inv H. bind_inv H. apply ret_Done in H as [<- _].
    specialize (IH _ _ _ Hstep0).
    destruct (PrimFloat.leb _ _); [now apply sublist_skip | now apply sublist_cons].
Qed.

Lemma dedupFilter_sublist (freshItems : list Mercari.Item) :
  forall (w w' : World) (unseenItems : list Mercari.Item),
    dedupFilter freshItems w = Done unseenItems w' ->
    unseenItems `sublist_of` freshItems.
Proof.
  induction freshItems as [|item rest IH]; intros w w' unseenItems H; simpl in H.
  - apply ret_Done in H as [<- _]. constructor.
  - bind_inv H. bind_inv H. apply ret_Done in H as [<- _].
    specialize (IH _ _ _ Hstep0).
    destruct (negb _); [now apply sublist_skip | now apply sublist_cons].
Qed.

Lemma capDeals_sublist (unseenItems capped : list Mercari.Item) (w w' : World) :
  capDeals cfg unseenItems w = Done capped w' ->
  capped `sublist_of` unseenItems.
Proof.
  unfold capDeals. intros H.
  destruct (Config.MaxDealsPerBrand cfg <? Z.of_nat (length unseenItems)).
  - destruct (Config.MaxDealsPerBrand cfg <? 0); [discriminate|].
    apply ret_Done in H as [<- _]. apply sublist_take.
  - apply ret_Done in H as [<- _]. reflexivity.
Qed.

Lemma filterItems_sublist (capped keptItems : list Mercari.Item) (w w' : World) :
  filterItems filter env fuel capped w = Done keptItems w' ->
  keptItems `sublist_of` capped.
Proof.
  unfold filterItems. intros H.
  destruct (Mercari.FilterItems fuel filter (clipNet env (filters w)) capped)
    as [keptItems'|] eqn:E; [|discriminate].
  inversion H; subst. rewrite FilterItems_filterFrom in E.
  destruct (Mercari.enabled filter).
  - eapply filterFrom_sublist. exact E.
  - inversion E. reflexivity.
Qed.

(** sent++ runs at most once per kept listing. *)
Lemma notifyLoop_count (brand : Config.Brand) (keptItems : list Mercari.Item) :
  forall (w w' : World) (n : nat),
    notifyLoop env brand keptItems w = Done n w' ->
    (n <= length keptItems)%nat.
Proof.
  induction keptItems as [|item rest IH]; intros w w' n H; simpl in H.
  - apply ret_Done in H as [<- _]. simpl. lia.
  - bind_inv H. bind_inv H. destruct a0 as [err|].
    + specialize (IH _ _ _ H). simpl. lia.
    + bind_inv H. bind_inv H. bind_inv H. apply ret_Done in H as [<- _].
      specialize (IH _ _ _ Hstep3). simpl. lia.
Qed.

Lemma monotone_noStats : monotone noStats.
Proof. unfold monotone, noStats. simpl. lia. Qed.

Lemma monotone_addStats (a b : Stats) : monotone a -> monotone b -> monotone (addStats a b).
Proof. unfold monotone, addStats. simpl. lia. Qed.

Lemma scanKeyword_monotone (brand : Config.Brand) (pMin pMax : Z) (keyword : string)
      (w w' : World) (s : Stats) :
  scanKeyword cfg filter env fuel brand pMin pMax keyword w = Done s w' -> monotone s.
Proof.
  unfold scanKeyword. intros H. bind_inv H.
  destruct a as [err|items].
  - apply ret_Done in H as [<- _]. apply monotone_noStats.
  - bind_inv H. bind_inv H.
    pose proof (sublist_length _ _ (ageFilter_sublist _ _ _ _ Hstep0)) as Hfresh.
    pose proof (sublist_length _ _ (dedupFilter_sublist _ _ _ _ Hstep1)) as Hunseen.
    destruct a0 as [|u us].
    + apply ret_Done in H as [<- _]. unfold monotone. simpl in *. lia.
    + bind_inv H. bind_inv H. bind_inv H. apply ret_Done in H as [<- _].
      pose proof (sublist_length _ _ (capDeals_sublist _ _ _ _ Hstep2)) as Hcap.
      pose proof (sublist_length _ _ (filterItems_sublist _ _ _ _ Hstep3)) as Hkept.
      pose proof (notifyLoop_count _ _ _ _ _ Hstep4) as Hsent.
      unfold monotone. simpl in *. lia.
Qed.

Lemma keywordLoop_monotone (brand : Config.Brand) (pMin pMax : Z) (keywords : list string) :
  forall (acc : Stats) (w w' : World) (s : Stats),
    monotone acc ->
    keywordLoop cfg filter env fuel brand pMin pMax keywords acc w = Done s w' ->
    monotone s.
Proof.
  induction keywords as [|keyword rest IH]; intros acc w w' s Hacc H; simpl in H.
  - apply ret_Done in H as [<- _]. exact Hacc.
  - bind_inv H. eapply IH; [|exact H].
    apply monotone_addStats; [exact Hacc|]. eapply scanKeyword_monotone. exact Hstep.
Qed.

Lemma scanBrand_monotone (brand : Config.Brand) (w w' : World) (s : Stats) :
  scanBrand cfg filter env fuel brand w = Done s w' -> monotone s.
Proof.
  unfold scanBrand. destruct (Config.GetPriceRange cfg brand) as [pMin pMax].
  apply keywordLoop_monotone, monotone_noStats.
Qed.

Lemma brandLoop_monotone (brands : list Config.Brand) :
  forall (totals : Stats) (w w' : World) (s : Stats),
    monotone totals ->
    brandLoop cfg filter env fuel brands totals w = Done s w' ->
    monotone s.
Proof.
  induction brands as [|brand rest IH]; intros totals w w' s Htot H; simpl in H.
  - apply ret_Done in H as [<- _]. exact Htot.
  - bind_inv H. bind_inv H. bind_inv H. eapply IH; [|exact H].
    apply monotone_addStats; [exact Htot|]. eapply scanBrand_monotone. exact Hstep.
Qed.

(** C8: in every scan cycle that completes, found >= fresh >= unseen >=
    kept >= sent, where found, unseen and sent are the totals the cycle
    adds up and prints, and fresh and kept are the sizes of the
    age-filtered and of the classified lists of each keyword, added up the
    same way; the same holds for every scanBrand.  The reason is that per
    keyword the age filter, the dedup filter, the cap and the image filter each
    return a sublist of their input, and the notification loop counts at
    most one send per kept listing. *)
Theorem cycle_counters_monotone (w w' : World) (totals : Stats) :
  runScanCycle cfg filter env fuel w = Done totals w' ->
  ((sent totals <= kept totals)%nat
   /\ (kept totals <= unseen totals)%nat
   /\ (unseen totals <= fresh totals)%nat
   /\ (fresh totals <= found totals)%nat)
  /\ (forall brand w1 w2 s,
        scanBrand cfg filter env fuel brand w1 = Done s w2 ->
        (sent s <= kept s)%nat /\ (kept s <= unseen s)%nat
        /\ (unseen s <= fresh s)%nat /\ (fresh s <= found s)%nat)
  /\ (forall items w1 w2 freshItems,
        ageFilter cfg env items w1 = Done freshItems w2 -> freshItems `sublist_of` items)
  /\ (forall freshItems w1 w2 unseenItems,
        dedupFilter freshItems w1 = Done unseenItems w2 -> unseenItems `sublist_of` freshItems)
  /\ (forall unseenItems w1 w2 capped,
        capDeals cfg unseenItems w1 = Done capped w2 -> capped `sublist_of` unseenItems)
  /\ (forall capped w1 w2 keptItems,
        filterItems filter env fuel capped w1 = Done keptItems w2 ->
        keptItems `sublist_of` capped)
  /\ (forall brand keptItems w1 w2 n,
        notifyLoop env brand keptItems w1 = Done n w2 -> (n <= length keptItems)%nat).
Proof.
  unfold runScanCycle. intros H. bind_inv H. bind_inv H.
  pose proof (brandLoop_monotone _ _ _ _ _ monotone_noStats Hstep0) as Hm.
  bind_inv H. bind_inv H. bind_inv H. inversion H; subst totals.
  split; [exact Hm|]. split; [|split; [|split; [|split; [|split]]]].
  - intros brand u1 u2 s. apply scanBrand_monotone.
  - intros items u1 u2 freshItems. apply ageFilter_sublist.
  - intros freshItems u1 u2 unseenItems. apply dedupFilter_sublist.
  - intros unseenItems u1 u2 capped. apply capDeals_sublist.
  - intros capped u1 u2 keptItems. apply filterItems_sublist.
  - intros brand keptItems u1 u2 n. apply notifyLoop_count.
Qed.

(** *** When a cycle completes *)

Lemma returns_ret {A : Type} (a : A) : returns (ret a).
Proof. intros w. unfold ret. eauto. Qed.

Lemma returns_bind {A B : Type} (m : M A) (k : A -> M B) :
  returns m -> (forall a, returns (k a)) -> returns (bind m k).
Proof.
  intros Hm Hk w. unfold bind. destruct (Hm w) as (a & w1 & ->). apply Hk.
Qed.

Lemma returns_tick : returns (tick env).
Proof. intros w. unfold tick. eauto. Qed.

Lemma returns_randIntn (n : Z) : returns (randIntn env n).
Proof. intros w. unfold randIntn. eauto. Qed.

Lemma returns_sleep (d : Z) : returns (sleep d).
Proof. intros w. unfold sleep. eauto. Qed.

Lemma returns_telegram (o : Telegram.Outgoing) : returns (telegram env o).
Proof. intros w. unfold telegram. eauto. Qed.

Lemma returns_markSeen (itemID brand name : string) (price : Z) :
  returns (markSeen env itemID brand name price).
Proof.
  unfold markSeen. apply returns_bind; [apply returns_tick|].
  intros now w. destruct (Store.MarkSeen (store w) itemID brand name price now). eauto.
Qed.

Create HintDb returns.
Local Hint Resolve returns_ret returns_tick returns_randIntn returns_sleep
  returns_telegram returns_markSeen : returns.

Lemma returns_retryLoop (q : Mercari.SearchQuery) (remaining : nat) :
  forall (attempt : Z) (lastErr : option error), returns (retryLoop env q remaining attempt lastErr).
Proof.
  induction remaining as [|remaining IH]; intros attempt lastErr; simpl.
  - auto with returns.
  - apply returns_bind.
    + destruct (0 <? attempt); [|auto with returns].
      unfold retryWait. apply returns_bind; auto with returns.
    + intros _. apply returns_bind.
      * intros w. unfold searchWithFallback. eauto.
      * intros [err|items]; auto with returns.
Qed.

Lemma returns_searchWithRetry (keyword : string) (priceMin priceMax maxRetries : Z) :
  returns (searchWithRetry cfg env keyword priceMin priceMax maxRetries).
Proof.
  unfold searchWithRetry. apply returns_bind; [apply returns_retryLoop|].
  intros [[lastErr|]|items]; auto with returns.
Qed.

Lemma returns_ageFilter (items : list Mercari.Item) : returns (ageFilter cfg env items).
Proof.
  induction items as [|item rest IH]; simpl; [auto with returns|].
  apply returns_bind; [auto with returns|]. intros now.
  apply returns_bind; [exact IH|]. auto with returns.
Qed.

Lemma returns_dedupFilter (items : list Mercari.Item) : returns (dedupFilter items).
Proof.
  induction items as [|item rest IH]; simpl; [auto with returns|].
  apply returns_bind; [intros w; unfold hasSeen; eauto|]. intros seen.
  apply returns_bind; [exact IH|]. auto with returns.
Qed.

Lemma returns_capDeals (items : list Mercari.Item) :
  0 <= Config.MaxDealsPerBrand cfg -> returns (capDeals cfg items).
Proof.
  intros Hcap. unfold capDeals.
  destruct (Config.MaxDealsPerBrand cfg <? Z.of_nat (length items)); [|auto with returns].
  destruct (Z.ltb_spec (Config.MaxDealsPerBrand cfg) 0); [lia|auto with returns].
Qed.

Lemma returns_notifyLoop (brand : Config.Brand) (keptItems : list Mercari.Item) :
  returns (notifyLoop env brand keptItems).
Proof.
  induction keptItems as [|item rest IH]; simpl; [auto with returns|].
  apply returns_bind; [auto with returns|]. intros now.
  apply returns_bind; [unfold SendDeal; auto with returns|].
  intros [err|]; [exact IH|].
  apply returns_bind; [auto with returns|]. intros _.
  apply returns_bind; [auto with returns|]. intros _.
  apply returns_bind; [exact IH|]. auto with returns.
Qed.

(** FilterItems returns as soon as no first reply is the loading signal. *)
Lemma FilterItems_returns (net : nat -> Mercari.clipRequest -> nat -> Mercari.ClipExchange)
      (items : list Mercari.Item) :
  (1 <= fuel)%nat ->
  (forall i req, Mercari.loading (net i req 0%nat) = false) ->
  is_Some (Mercari.FilterItems fuel filter net items).
Proof.
  intros Hfuel Hnet. rewrite FilterItems_filterFrom.
  destruct (Mercari.enabled filter); [|eauto].
  apply filterFrom_total. intros j item _. unfold Mercari.slotResult.
  destruct (Mercari.ImageURLs item) as [|u us] eqn:E; [eauto|].
  destruct fuel as [|fuel']; [lia|].
  destruct (classifyItem_terminal filter (net (0 + j)%nat) fuel' 0 item u us E (Hnet _ _))
    as (l & s & evs & -> & _). eauto.
Qed.

(** A cycle completes when the cap is not negative (LoadConfig makes it
    positive) and the filter is off or the classifier does not answer with
    the loading signal at first. *)
Lemma runScanCycle_returns :
  0 <= Config.MaxDealsPerBrand cfg ->
  (Mercari.enabled filter = false
   \/ ((1 <= fuel)%nat /\ forall n i req, Mercari.loading (clipNet env n i req 0%nat) = false)) ->
  returns (runScanCycle cfg filter env fuel).
Proof.
  intros Hcap Hfilt.
  assert (Hfilter : forall items, returns (filterItems filter env fuel items)).
  { intros items w. unfold filterItems.
    assert (Hs : is_Some (Mercari.FilterItems fuel filter (clipNet env (filters w)) items)).
    { destruct Hfilt as [Hoff|[Hfuel Hnet]].
      - rewrite FilterItems_filterFrom, Hoff. eauto.
      - apply FilterItems_returns; auto. }
    destruct Hs as [keptItems ->]. eauto. }
  assert (Hkw : forall brand pMin pMax keyword,
             returns (scanKeyword cfg filter env fuel brand pMin pMax keyword)).
  { intros brand pMin pMax keyword. unfold scanKeyword.
    apply returns_bind; [apply returns_searchWithRetry|].
    intros [err|items]; [auto with returns|].
    apply returns_bind; [apply returns_ageFilter|]. intros freshItems.
    apply returns_bind; [apply returns_dedupFilter|]. intros [|u us]; [auto with returns|].
    apply returns_bind; [now apply returns_capDeals|]. intros capped.
    apply returns_bind; [apply Hfilter|]. intros keptItems.
    apply returns_bind; [apply returns_notifyLoop|]. auto with returns. }
  assert (Hkws : forall brand pMin pMax keywords acc,
             returns (keywordLoop cfg filter env fuel brand pMin pMax keywords acc)).
  { intros brand pMin pMax keywords.
    induction keywords as [|keyword rest IH]; intros acc; simpl; [auto with returns|].
    apply returns_bind; [apply Hkw|]. intros s. apply IH. }
  assert (Hbrand : forall brand, returns (scanBrand cfg filter env fuel brand)).
  { intros brand. unfold scanBrand. destruct (Config.GetPriceRange cfg brand). apply Hkws. }
  assert (Hbrands : forall brands totals, returns (brandLoop cfg filter env fuel brands totals)).
  { intros brands. induction brands as [|brand rest IH]; intros totals; simpl; [auto with returns|].
    apply returns_bind; [apply Hbrand|]. intros s.
    apply returns_bind; [auto with returns|]. intros r.
    apply returns_bind; [auto with returns|]. intros _. apply IH. }
  unfold runScanCycle.
  apply returns_bind; [auto with returns|]. intros start.
  apply returns_bind; [apply Hbrands|]. intros totals.
  apply returns_bind; [auto with returns|]. intros finish.
  apply returns_bind.
  - destruct (0 <? unseen totals)%nat; [|auto with returns].
    unfold SendScanSummary. destruct (unseen totals); auto with returns.
  - intros _. apply returns_bind; [auto with returns|]. intros now w. eauto.
Qed.

End CycleFacts.

Section CycleRuns.

Import Go Bot Scenario.

(** C1, on the code: one fresh, unseen listing survives the filter and
    Telegram cannot be reached.  scanBrand makes the notification attempt
    and then leaves the loop body by continue: no row is written for the
    listing, HasSeen still answers false.  In the next cycle the listing is
    unseen again and is alerted a second time. *)
Theorem scanBrand_failed_send_not_marked :
  (exists stats w',
      scanBrand cfg passthrough telegramDown 1 gucci start = Done stats w'
      /\ outbox w' = [Telegram.sendPhoto dealM1]
      /\ kept stats = 1%nat /\ sent stats = 0%nat
      /\ Store.HasSeen (store w') "m1" = false
      /\ Store.Count (store w') = 0)
  /\ (exists stats1 w1 stats2 w2,
         scanBrand cfg passthrough telegramFlaky 1 gucci start = Done stats1 w1
         /\ scanBrand cfg passthrough telegramFlaky 1 gucci w1 = Done stats2 w2
         /\ Store.HasSeen (store w1) "m1" = false
         /\ outbox w2 = [Telegram.sendPhoto dealM1; Telegram.sendPhoto dealM1]
         /\ Store.HasSeen (store w2) "m1" = true).
Proof.
  split.
  - do 2 eexists. split; [vm_compute; reflexivity|]. vm_compute. repeat split.
  - do 4 eexists. split; [vm_compute; reflexivity|]. split; [vm_compute; reflexivity|].
    vm_compute. repeat split.
Qed.

Lemma cycle_counters_monotone_witness :
  let totals := {| found := 3; fresh := 2; unseen := 2; kept := 2; sent := 1 |} in
  ((sent totals <= kept totals)%nat
   /\ (kept totals <= unseen totals)%nat
   /\ (unseen totals <= fresh totals)%nat
   /\ (fresh totals <= found totals)%nat)
  /\ (forall brand w1 w2 s,
        scanBrand cfg clip allUp 1 brand w1 = Done s w2 ->
        (sent s <= kept s)%nat /\ (kept s <= unseen s)%nat
        /\ (unseen s <= fresh s)%nat /\ (fresh s <= found s)%nat)
  /\ (forall items w1 w2 freshItems,
        ageFilter cfg allUp items w1 = Done freshItems w2 -> freshItems `sublist_of` items)
  /\ (forall freshItems w1 w2 unseenItems,
        dedupFilter freshItems w1 = Done unseenItems w2 -> unseenItems `sublist_of` freshItems)
  /\ (forall unseenItems w1 w2 capped,
        capDeals cfg unseenItems w1 = Done capped w2 -> capped `sublist_of` unseenItems)
  /\ (forall capped w1 w2 keptItems,
        filterItems clip allUp 1 capped w1 = Done keptItems w2 ->
        keptItems `sublist_of` capped)
  /\ (forall brand keptItems w1 w2 n,
        notifyLoop allUp brand keptItems w1 = Done n w2 -> (n <= length keptItems)%nat).
Proof.
  apply (cycle_counters_monotone cfg clip allUp 1 start afterFirstCycle
           {| found := 3; fresh := 2; unseen := 2; kept := 2; sent := 1 |}).
  vm_compute. reflexivity.
Defined.

(** The cycle of the witness: three listings found, one too old, two
    unseen and kept (the classifier cannot be reached, so the filter keeps
    them), the second send refused. *)
Example cycle_run :
  exists w',
    runScanCycle cfg clip allUp 1 start
    = Done {| found := 3; fresh := 2; unseen := 2; kept := 2; sent := 1 |} w'
    /\ Store.HasSeen (store w') "m1" = true
    /\ Store.HasSeen (store w') "m3" = false
    /\ slept w' = [200 * Millisecond; (500 + 456) * Millisecond]
    /\ runCount w' = 1%nat.
Proof. eexists. split; [vm_compute; reflexivity|]. vm_compute. repeat split. Qed.

(** The age of a listing at the ends of the clock: a creation time that
    time.Unix wraps into the far past gives the longest duration, the
    last one that it does not wrap gives the shortest, and an ordinary
    one gives the difference. *)
Example Since_runs :
  Since (1700000000 * Second) (2 ^ 63 - 1) = maxInt64
  /\ Since (1700000000 * Second) (2 ^ 63 - 1 - unixToInternal) = minInt64
  /\ Since (1700000600 * Second) 1700000000 = 600 * Second.
Proof. vm_compute. repeat split. Qed.

End CycleRuns.

(** ** Strings *)

Section StringFacts.

Lemma append_String (c : ascii) (a b : string) : String c a +:+ b = String c (a +:+ b).
Proof. reflexivity. Qed.

Lemma append_empty_l (b : string) : "" +:+ b = b.
Proof. reflexivity. Qed.

Lemma append_empty_r (a : string) : a +:+ "" = a.
Proof. induction a as [|c a IH]; [reflexivity|]. now rewrite append_String, IH. Qed.

Lemma append_assoc (a b c : string) : (a +:+ b) +:+ c = a +:+ (b +:+ c).
Proof. induction a as [|x a IH]; [reflexivity|]. now rewrite !append_String, IH. Qed.

Lemma list_ascii_of_string_app (a b : string) :
  list_ascii_of_string (a +:+ b) = list_ascii_of_string a ++ list_ascii_of_string b.
Proof. induction a as [|x a IH]; [reflexivity|]. rewrite append_String. simpl. now rewrite IH. Qed.

Lemma length_list_ascii_of_string (s : string) :
  length (list_ascii_of_string s) = String.length s.
Proof. induction s as [|c s IH]; simpl; auto. Qed.

Lemma list_ascii_of_string_inj (a b : string) :
  list_ascii_of_string a = list_ascii_of_string b -> a = b.
Proof.
  intros H. rewrite <- (string_of_list_ascii_of_string a), H.
  apply string_of_list_ascii_of_string.
Qed.

(** *** Decimal spellings *)

Lemma pretty_N_go_app (x : N) : forall s, pretty_N_go x s = pretty_N_go x "" +:+ s.
Proof.
  induction (N.lt_wf_0 x) as [x _ IH]; intros s.
  destruct (decide (x = 0)%N) as [->|Hx]; [reflexivity|].
  rewrite (pretty_N_go_step x s), (pretty_N_go_step x "") by lia.
  rewrite IH by (apply N.div_lt; lia).
  rewrite (IH (x `div` 10)%N ltac:(apply N.div_lt; lia) (String _ "")).
  now rewrite append_assoc.
Qed.

Lemma pretty_N_step (x : N) :
  (10 <= x)%N ->
  pretty x = pretty (x `div` 10)%N +:+ String (pretty_N_char (x `mod` 10)) "".
Proof.
  intros Hx. unfold pretty, pretty_N.
  assert (0 < x `div` 10)%N by (apply N.div_str_pos; lia).
  rewrite !decide_False by lia.
  rewrite pretty_N_go_step by lia. apply pretty_N_go_app.
Qed.

Lemma pretty_N_small (x : N) :
  (x < 10)%N -> pretty x = String (pretty_N_char x) "".
Proof.
  intros Hx. unfold pretty, pretty_N. destruct (decide (x = 0)%N) as [->|H0]; [reflexivity|].
  rewrite pretty_N_go_step by lia.
  rewrite N.div_small, N.mod_small by lia. reflexivity.
Qed.

Lemma pretty_Z_nonneg (p : Z) : 0 <= p -> pretty p = pretty (Z.to_N p).
Proof. intros Hp. destruct p as [|p|p]; try lia; reflexivity. Qed.

Lemma pretty_Z_neg (p : Z) : p < 0 -> pretty p = "-" +:+ pretty (- p).
Proof. intros Hp. destruct p as [|p|p]; try lia; reflexivity. Qed.

Lemma pretty_Z_step (p : Z) :
  10 <= p -> pretty p = pretty (p / 10) +:+ String (Telegram.digit (p mod 10)) "".
Proof.
  intros Hp. rewrite !pretty_Z_nonneg by (try apply Z.div_pos; lia).
  rewrite pretty_N_step by lia. unfold Telegram.digit.
  rewrite Z2N.inj_div, Z2N.inj_mod by lia. reflexivity.
Qed.

Lemma pretty_Z_small (p : Z) : 0 <= p < 10 -> pretty p = String (Telegram.digit p) "".
Proof. intros Hp. rewrite pretty_Z_nonneg by lia. apply pretty_N_small. lia. Qed.

Lemma pretty_Z_thousands (p : Z) :
  1000 <= p -> pretty p = pretty (p / 1000) +:+ Telegram.threeDigits (p mod 1000).
Proof.
  intros Hp. rewrite (pretty_Z_step p) by lia.
  rewrite (pretty_Z_step (p / 10)) by (apply Z.div_le_lower_bound; lia).
  rewrite (pretty_Z_step (p / 10 / 10)) by (repeat apply Z.div_le_lower_bound; lia).
  rewrite !append_assoc, !append_String, !append_empty_l. unfold Telegram.threeDigits.
  rewrite !Z.div_div by lia. change (10 * 100) with 1000.
  replace (((p `mod` 1000) `div` 100) `mod` 10) with ((p `div` 100) `mod` 10)
    by (Z.div_mod_to_equations; lia).
  replace (((p `mod` 1000) `div` 10) `mod` 10) with ((p `div` 10) `mod` 10)
    by (Z.div_mod_to_equations; lia).
  replace ((p `mod` 1000) `mod` 10) with (p `mod` 10)
    by (Z.div_mod_to_equations; lia).
  reflexivity.
Qed.

Lemma pretty_Z_nonempty (p : Z) : 0 <= p -> exists c cs, list_ascii_of_string (pretty p) = c :: cs.
Proof.
  intros Hp. destruct (Z_lt_le_dec p 10).
  - rewrite pretty_Z_small by lia. simpl. eauto.
  - rewrite pretty_Z_step by lia. rewrite list_ascii_of_string_app.
    destruct (list_ascii_of_string (pretty (p / 10))); simpl; eauto.
Qed.

Lemma pretty_Z_length_small (p : Z) : 0 <= p < 1000 -> (String.length (pretty p) <= 3)%nat.
Proof.
  intros Hp. destruct (Z_lt_le_dec p 10).
  - rewrite pretty_Z_small by lia. simpl. lia.
  - rewrite pretty_Z_step by lia. destruct (Z_lt_le_dec (p / 10) 10).
    + rewrite pretty_Z_small by (split; [apply Z.div_pos|]; lia). simpl. lia.
    + rewrite (pretty_Z_step (p / 10)) by lia.
      rewrite pretty_Z_small.
      * simpl. lia.
      * split; [repeat apply Z.div_pos; lia|]. rewrite Z.div_div by lia.
        apply Z.div_lt_upper_bound; lia.
Qed.

Lemma pretty_N_char_digit (x : N) : Telegram.signOrDigit (pretty_N_char x) = true.
Proof. unfold pretty_N_char. repeat case_match; reflexivity. Qed.

Lemma pretty_N_go_chars (x : N) :
  forall s, Forall (fun c => Telegram.signOrDigit c = true) (list_ascii_of_string s) ->
            Forall (fun c => Telegram.signOrDigit c = true) (list_ascii_of_string (pretty_N_go x s)).
Proof.
  induction (N.lt_wf_0 x) as [x _ IH]; intros s Hs.
  destruct (decide (x = 0)%N) as [->|Hx]; [exact Hs|].
  rewrite pretty_N_go_step by lia. apply IH; [apply N.div_lt; lia|].
  simpl. constructor; [apply pretty_N_char_digit|exact Hs].
Qed.

(** Every byte of a decimal spelling is a digit or the minus sign. *)
Lemma pretty_Z_chars (p : Z) :
  Forall (fun c => Telegram.signOrDigit c = true) (list_ascii_of_string (pretty p)).
Proof.
  assert (HN : forall x : N, Forall (fun c => Telegram.signOrDigit c = true)
                                    (list_ascii_of_string (pretty x))).
  { intros x. unfold pretty, pretty_N. case_decide.
    - repeat constructor.
    - apply pretty_N_go_chars. constructor. }
  destruct p as [|p|p]; unfold pretty, pretty_Z.
  - repeat constructor.
  - apply HN.
  - rewrite list_ascii_of_string_app. apply Forall_app. split; [repeat constructor|apply HN].
Qed.

End StringFacts.

(** ** The notifier's formatting *)

Section FormatFacts.

Import Go Telegram.

Lemma ReplaceAll_app (a b : string) (old : ascii) (new : string) :
  ReplaceAll (a +:+ b) old new = ReplaceAll a old new +:+ ReplaceAll b old new.
Proof.
  induction a as [|c a IH]; [reflexivity|].
  rewrite append_String. simpl. rewrite IH. destruct (Ascii.eqb c old).
  - now rewrite append_assoc.
  - reflexivity.
Qed.

(** The three passes of escapeHTML act as one pass over the bytes: the
    entities a pass writes hold no byte that a later pass replaces. *)
Lemma escapeHTML_cons (c : ascii) (s : string) :
  escapeHTML (String c s) = escapeByte c +:+ escapeHTML s.
Proof.
  unfold escapeHTML, escapeByte. cbn [ReplaceAll].
  destruct (Ascii.eqb_spec c "&") as [->|Hamp].
  - rewrite !ReplaceAll_app. reflexivity.
  - cbn [ReplaceAll]. destruct (Ascii.eqb_spec c "<") as [->|Hlt].
    + rewrite !ReplaceAll_app. reflexivity.
    + cbn [ReplaceAll]. destruct (Ascii.eqb_spec c ">") as [->|Hgt]; reflexivity.
Qed.

Lemma escapeHTML_app (a b : string) : escapeHTML (a +:+ b) = escapeHTML a +:+ escapeHTML b.
Proof.
  induction a as [|c a IH]; [reflexivity|].
  now rewrite append_String, !escapeHTML_cons, IH, append_assoc.
Qed.

Lemma escapeByte_cases (c : ascii) :
  (c = "&"%char /\ escapeByte c = "&amp;")
  \/ (c = "<"%char /\ escapeByte c = "&lt;")
  \/ (c = ">"%char /\ escapeByte c = "&gt;")
  \/ (c <> "&"%char /\ c <> "<"%char /\ c <> ">"%char /\ escapeByte c = String c "").
Proof.
  unfold escapeByte.
  destruct (Ascii.eqb_spec c "&") as [->|?]; [auto|].
  destruct (Ascii.eqb_spec c "<") as [->|?]; [auto|].
  destruct (Ascii.eqb_spec c ">") as [->|?]; [auto 6|]. auto 10.
Qed.

Lemma escapeHTML_no_angle (s : string) :
  Forall (fun c => c <> "<"%char /\ c <> ">"%char) (list_ascii_of_string (escapeHTML s)).
Proof.
  induction s as [|c s IH]; [constructor|].
  rewrite escapeHTML_cons, list_ascii_of_string_app. apply Forall_app. split; [|exact IH].
  destruct (escapeByte_cases c) as [[-> E]|[[-> E]|[[-> E]|(Ha & Hl & Hg & E)]]]; rewrite E; simpl;
    repeat (apply Forall_cons; split; [split; congruence|]); constructor.
Qed.

(** *** The grouping loop of formatPrice *)

Lemma groupLoop_grouped (cs : list ascii) :
  forall len i, (0 < i)%nat -> len = (i + length cs)%nat -> groupLoop len i cs = grouped cs.
Proof.
  induction cs as [|c cs IH]; intros len i Hi Hlen; [reflexivity|].
  cbn [groupLoop grouped].
  replace (len - i)%nat with (length (c :: cs)) by (simpl in *; lia).
  replace (0 <? i)%nat with true by (symmetry; apply Nat.ltb_lt; lia).
  rewrite (IH len (S i)) by (simpl in *; lia). reflexivity.
Qed.

Lemma groupLoop_start (c : ascii) (cs : list ascii) :
  groupLoop (length (c :: cs)) 0 (c :: cs) = c :: grouped cs.
Proof.
  cbn [groupLoop]. cbn [Nat.ltb Nat.leb andb]. f_equal.
  apply groupLoop_grouped; simpl; lia.
Qed.

Lemma grouped_short (cs : list ascii) : (length cs <= 2)%nat -> grouped cs = cs.
Proof.
  destruct cs as [|a [|b [|c cs]]]; simpl; intros H; try reflexivity. lia.
Qed.

Lemma grouped_app_three (a : list ascii) (x y z : ascii) :
  grouped (a ++ [x; y; z]) = grouped a ++ ","%char :: [x; y; z].
Proof.
  induction a as [|c a IH]; [reflexivity|].
  cbn [grouped app]. rewrite IH. cbn [length]. rewrite !length_app. cbn [length].
  replace (S (length a + 3)) with (S (length a) + 1 * 3)%nat by lia.
  rewrite Nat.Div0.mod_add. destruct (S (length a) mod 3 =? 0)%nat; reflexivity.
Qed.

Lemma grouped_strip (cs : list ascii) :
  Forall (fun c => signOrDigit c = true) cs ->
  List.filter (fun c => negb (Ascii.eqb c ",")) (grouped cs) = cs.
Proof.
  induction 1 as [|c cs Hc _ IH]; [reflexivity|].
  assert (Hne : negb (Ascii.eqb c ",") = true).
  { destruct (Ascii.eqb_spec c ",") as [->|]; [discriminate|reflexivity]. }
  cbn [grouped]. destruct (length (c :: cs) mod 3 =? 0)%nat; simpl; rewrite Hne, IH; reflexivity.
Qed.

(** formatPrice is the first byte of the spelling followed by the grouping
    of the rest. *)
Lemma formatPrice_unfold (price : Z) (c : ascii) (cs : list ascii) :
  list_ascii_of_string (pretty price) = c :: cs ->
  list_ascii_of_string (formatPrice price) = c :: grouped cs.
Proof.
  intros E. unfold formatPrice.
  rewrite <- (length_list_ascii_of_string (pretty price)), E.
  destruct (Nat.leb_spec (length (c :: cs)) 3) as [Hle|Hgt].
  - rewrite E. f_equal. symmetry. apply grouped_short. simpl in Hle. lia.
  - rewrite list_ascii_of_string_of_list_ascii. apply groupLoop_start.
Qed.

End FormatFacts.

Section FormatResults.

Import Go Telegram.

(** escapeHTML, one byte at a time: an ampersand, a less-than and a
    greater-than sign become the entities &amp; &lt; and &gt; and every
    other byte stays, so that the three passes never escape what an
    earlier pass wrote.  The output holds no less-than and no greater-than
    sign, and each of its ampersands starts one of the three entities. *)
Theorem escapeHTML_markup (s : string) :
  (forall c rest, escapeHTML (String c rest) = escapeByte c +:+ escapeHTML rest)
  /\ Forall (fun c => c <> "<"%char /\ c <> ">"%char) (list_ascii_of_string (escapeHTML s))
  /\ forall pre post,
       list_ascii_of_string (escapeHTML s) = pre ++ "&"%char :: post ->
       exists rest, post = list_ascii_of_string "amp;" ++ rest
                    \/ post = list_ascii_of_string "lt;" ++ rest
                    \/ post = list_ascii_of_string "gt;" ++ rest.
Proof.
  split; [exact escapeHTML_cons|]. split; [apply escapeHTML_no_angle|].
  induction s as [|c s IH]; intros pre post H.
  - destruct pre; discriminate.
  - rewrite escapeHTML_cons, list_ascii_of_string_app in H.
    set (out := list_ascii_of_string (escapeHTML s)) in *.
    destruct (escapeByte_cases c) as [[-> E]|[[-> E]|[[-> E]|(Ha & Hl & Hg & E)]]];
      rewrite E in H; simpl in H.
    + do 5 (destruct pre as [|? pre]; [inversion H; subst; eauto|]; try discriminate).
      inversion H; subst. eapply IH. eassumption.
    + do 4 (destruct pre as [|? pre]; [inversion H; subst; eauto|]; try discriminate).
      inversion H; subst. eapply IH. eassumption.
    + do 4 (destruct pre as [|? pre]; [inversion H; subst; eauto|]; try discriminate).
      inversion H; subst. eapply IH. eassumption.
    + destruct pre as [|? pre]; [inversion H; subst; congruence|].
      inversion H; subst. eapply IH. eassumption.
Qed.

(** escapeHTML loses nothing: two texts with the same escaped form are the
    same text. *)
Theorem escapeHTML_injective (s1 s2 : string) : escapeHTML s1 = escapeHTML s2 -> s1 = s2.
Proof.
  revert s2. induction s1 as [|c1 s1 IH]; intros [|c2 s2] H.
  - reflexivity.
  - rewrite escapeHTML_cons in H.
    destruct (escapeByte_cases c2) as [[_ E]|[[_ E]|[[_ E]|(_ & _ & _ & E)]]];
      rewrite E in H; discriminate.
  - rewrite escapeHTML_cons in H.
    destruct (escapeByte_cases c1) as [[_ E]|[[_ E]|[[_ E]|(_ & _ & _ & E)]]];
      rewrite E in H; discriminate.
  - rewrite !escapeHTML_cons in H.
    destruct (escapeByte_cases c1) as [[-> E1]|[[-> E1]|[[-> E1]|(? & ? & ? & E1)]]];
    destruct (escapeByte_cases c2) as [[-> E2]|[[-> E2]|[[-> E2]|(? & ? & ? & E2)]]];
      rewrite ?E1, ?E2 in H; rewrite ?append_String, ?append_empty_l in H;
      try discriminate; try congruence;
      inversion H; subst; try congruence; f_equal; now apply IH.
Qed.

Lemma escapeHTML_injective_witness : "a<b" = "a<b".
Proof. apply (escapeHTML_injective "a<b" "a<b"). reflexivity. Defined.

(** formatPrice on a price that is not negative: below one thousand the
    plain decimal spelling; from one thousand on, the formatted thousands,
    a comma, and the last three digits. *)
Theorem formatPrice_groups (price : Z) :
  0 <= price ->
  (price < 1000 -> formatPrice price = pretty price)
  /\ (1000 <= price ->
      formatPrice price = formatPrice (price / 1000) +:+ "," +:+ threeDigits (price mod 1000)).
Proof.
  intros Hp. split.
  - intros Hlt. unfold formatPrice.
    pose proof (pretty_Z_length_small price ltac:(lia)) as Hlen.
    apply Nat.leb_le in Hlen. now rewrite Hlen.
  - intros Hge.
    assert (Hq : 0 <= price / 1000) by (apply Z.div_pos; lia).
    destruct (pretty_Z_nonempty _ Hq) as (c & cs & E).
    apply list_ascii_of_string_inj.
    rewrite list_ascii_of_string_app, (formatPrice_unfold _ _ _ E).
    assert (E' : list_ascii_of_string (pretty price)
                 = c :: (cs ++ list_ascii_of_string (threeDigits (price mod 1000)))).
    { rewrite pretty_Z_thousands by lia. rewrite list_ascii_of_string_app, E. reflexivity. }
    rewrite (formatPrice_unfold _ _ _ E'). simpl. f_equal. apply grouped_app_three.
Qed.

Lemma formatPrice_groups_witness :
  (1234567 < 1000 -> formatPrice 1234567 = pretty 1234567)
  /\ (1000 <= 1234567 ->
      formatPrice 1234567
      = formatPrice (1234567 / 1000) +:+ "," +:+ threeDigits (1234567 mod 1000)).
Proof. apply (formatPrice_groups 1234567). lia. Defined.

(** formatPrice only adds commas: with the commas taken out, the output is
    the decimal spelling of the price, whatever its sign. *)
Theorem formatPrice_digits (price : Z) :
  List.filter (fun c => negb (Ascii.eqb c ",")) (list_ascii_of_string (formatPrice price))
  = list_ascii_of_string (pretty price).
Proof.
  pose proof (pretty_Z_chars price) as Hchars.
  destruct (list_ascii_of_string (pretty price)) as [|c cs] eqn:E.
  - unfold formatPrice. rewrite <- (length_list_ascii_of_string (pretty price)), E. simpl.
    rewrite E. reflexivity.
  - rewrite (formatPrice_unfold _ _ _ E). inversion Hchars as [|? ? Hc Hcs]; subst.
    simpl. replace (negb (Ascii.eqb c ",")) with true.
    + now rewrite grouped_strip.
    + destruct (Ascii.eqb_spec c ",") as [->|]; [discriminate|reflexivity].
Qed.

(** formatPrice on a negative price: the loop counts the minus sign as a
    position of its own, so the digits are grouped as those of the
    absolute value, and a comma follows the minus sign when the number of
    digits is a multiple of three; below one hundred the spelling is left
    as it is. *)
Theorem formatPrice_negative (price : Z) :
  price < 0 ->
  formatPrice price
  = "-" +:+ (if (3 <=? String.length (pretty (- price)))%nat
                && (String.length (pretty (- price)) mod 3 =? 0)%nat
             then "," else "")
        +:+ formatPrice (- price).
Proof.
  intros Hp.
  destruct (pretty_Z_nonempty (- price) ltac:(lia)) as (c & cs & E).
  assert (E' : list_ascii_of_string (pretty price) = "-"%char :: c :: cs).
  { rewrite pretty_Z_neg by lia. rewrite list_ascii_of_string_app, E. reflexivity. }
  apply list_ascii_of_string_inj.
  rewrite !list_ascii_of_string_app, (formatPrice_unfold _ _ _ E'), (formatPrice_unfold _ _ _ E).
  rewrite <- (length_list_ascii_of_string (pretty (- price))), E.
  cbn [grouped]. simpl list_ascii_of_string at 1. cbn [app]. f_equal.
  destruct (Nat.leb_spec 3 (length (c :: cs))) as [Hge|Hlt]; cbn [andb].
  - destruct (length (c :: cs) mod 3 =? 0)%nat; reflexivity.
  - destruct cs as [|d [|e cs]]; simpl in Hlt; try lia; reflexivity.
Qed.

Lemma formatPrice_negative_witness :
  formatPrice (-100)
  = "-" +:+ (if (3 <=? String.length (pretty (- -100)))%nat
                && (String.length (pretty (- -100)) mod 3 =? 0)%nat
             then "," else "")
        +:+ formatPrice (- -100).
Proof. apply (formatPrice_negative (-100)). lia. Defined.

(** Prices as the captions show them. *)
Example formatPrice_runs :
  formatPrice 15000 = "15,000" /\ formatPrice 999 = "999" /\ formatPrice 1234567 = "1,234,567"
  /\ formatPrice 0 = "0" /\ formatPrice (-5) = "-5" /\ formatPrice (-100) = "-,100"
  /\ formatPrice (-1000) = "-1,000".
Proof. vm_compute. repeat split. Qed.

End FormatResults.

Section CaptionFacts.

Import Go Telegram.

Lemma countByte_app (c : ascii) (a b : string) :
  countByte c (a +:+ b) = (countByte c a + countByte c b)%nat.
Proof.
  unfold countByte. rewrite list_ascii_of_string_app, List.filter_app, length_app. reflexivity.
Qed.

Lemma countByte_absent (c : ascii) (s : string) :
  Forall (fun x => x <> c) (list_ascii_of_string s) -> countByte c s = 0%nat.
Proof.
  unfold countByte. induction 1 as [|x l Hx _ IH]; [reflexivity|].
  simpl. destruct (Ascii.eqb_spec c x) as [->|_]; [congruence|exact IH].
Qed.

Lemma grouped_chars (cs : list ascii) :
  Forall (fun c => signOrDigit c = true) cs ->
  Forall (fun c => signOrDigit c = true \/ c = ","%char) (grouped cs).
Proof.
  induction 1 as [|c cs Hc _ IH]; [constructor|].
  cbn [grouped]. destruct (length (c :: cs) mod 3 =? 0)%nat;
    repeat (apply Forall_cons; split; [auto|]); exact IH.
Qed.

Lemma formatPrice_chars (price : Z) :
  Forall (fun c => signOrDigit c = true \/ c = ","%char) (list_ascii_of_string (formatPrice price)).
Proof.
  pose proof (pretty_Z_chars price) as Hchars.
  destruct (list_ascii_of_string (pretty price)) as [|c cs] eqn:E.
  - unfold formatPrice. rewrite <- (length_list_ascii_of_string (pretty price)), E. simpl.
    rewrite E. constructor.
  - rewrite (formatPrice_unfold _ _ _ E). inversion Hchars; subst.
    constructor; [auto|]. now apply grouped_chars.
Qed.

Lemma fmtFloat0_chars (f : float) :
  Forall (fun c => c <> "<"%char /\ c <> ">"%char) (list_ascii_of_string (fmtFloat0 f)).
Proof.
  assert (Hp : forall n : Z, Forall (fun c => c <> "<"%char /\ c <> ">"%char)
                                (list_ascii_of_string (pretty n))).
  { intros n. eapply Forall_impl; [apply pretty_Z_chars|].
    intros c Hc. split; intros ->; discriminate. }
  unfold fmtFloat0. destruct (Prim2SF f) as [[|]|[|]| |[|] m e];
    try (repeat constructor; discriminate).
  - rewrite list_ascii_of_string_app. apply Forall_app. split; [|apply Hp].
    repeat constructor; discriminate.
  - rewrite append_empty_l. apply Hp.
Qed.

End CaptionFacts.

Section CaptionResults.

Import Go Telegram.

(** The markup of a deal caption is the template's: the name and the
    brand, being escaped, the price and the age add no less-than or
    greater-than sign, so the caption holds the four tags of the template
    and whatever the item URL, which is written unescaped, brings. *)
Theorem formatDealCaption_tags (deal : DealItem) :
  countByte "<" (formatDealCaption deal) = (4 + countByte "<" (ItemURL deal))%nat
  /\ countByte ">" (formatDealCaption deal) = (4 + countByte ">" (ItemURL deal))%nat.
Proof.
  assert (He : forall c s, (c = "<"%char \/ c = ">"%char) -> countByte c (escapeHTML s) = 0%nat).
  { intros c s Hc. apply countByte_absent. eapply Forall_impl; [apply escapeHTML_no_angle|].
    intros x [H1 H2]. destruct Hc; congruence. }
  assert (Hp : forall c (n : Z),
             (c = "<"%char \/ c = ">"%char) -> countByte c (formatPrice n) = 0%nat).
  { intros c n Hc. apply countByte_absent. eapply Forall_impl; [apply formatPrice_chars|].
    intros x [Hx| ->]; destruct Hc; subst; try discriminate; intros ->; discriminate. }
  assert (Hf : forall c f, (c = "<"%char \/ c = ">"%char) -> countByte c (fmtFloat0 f) = 0%nat).
  { intros c f Hc. apply countByte_absent. eapply Forall_impl; [apply fmtFloat0_chars|].
    intros x [H1 H2]. destruct Hc; congruence. }
  unfold formatDealCaption.
  split; destruct (negb (String.eqb (BrandName deal) ""));
    rewrite !countByte_app, ?He, ?Hp, ?Hf by auto;
    match goal with
    | |- context [countByte ?c (ItemURL deal)] =>
        generalize (countByte c (ItemURL deal)); intros n
    end;
    cbv -[Nat.add]; lia.
Qed.

(** The caption of the deal built for the listing m1. *)
Example formatDealCaption_run :
  formatDealCaption Scenario.dealM1
  = "🔥 <b>GUCCI bag m1</b>" +:+ newline
    +:+ "💰 ¥5,000" +:+ newline
    +:+ "🏷 Gucci" +:+ newline
    +:+ "📦 Posted 10 min ago" +:+ newline
    +:+ "🔗 <a href=" +:+ quote +:+ "https://jp.mercari.com/item/m1" +:+ quote
    +:+ ">View on Mercari</a>".
Proof. vm_compute. reflexivity. Qed.

End CaptionResults.

(** ** The dedup store: marking, looking up, expiring *)

Section StoreWindow.

Import Go Store.

Lemma HasSeen_lookup (s : DedupStore) (itemID : string) :
  HasSeen s itemID = true <-> fault s = None /\ is_Some (seen_items s !! itemID).
Proof.
  destruct (fault s) as [e|] eqn:Hf.
  - rewrite (HasSeen_faulty s itemID e Hf). split; [discriminate|intros [? _]; discriminate].
  - rewrite HasSeen_healthy by exact Hf. rewrite bool_decide_eq_true. tauto.
Qed.

Lemma insertOrIgnore_other (tbl : gmap string SeenRecord) (itemID other : string) (r : SeenRecord) :
  other <> itemID -> insertOrIgnore tbl itemID r !! other = tbl !! other.
Proof.
  intros Hne. unfold insertOrIgnore. destruct (tbl !! itemID); [reflexivity|].
  apply lookup_insert_ne. congruence.
Qed.

Lemma cleanup_lookup (s : DedupStore) (now : Z) (itemID : string) :
  fault s = None ->
  seen_items (cleanup s now) !! itemID
  = match seen_items s !! itemID with
    | Some r => if now - sevenDays <=? seen_at r then Some r else None
    | None => None
    end.
Proof.
  intros Hf. unfold cleanup. rewrite Hf. cbn [seen_items]. fold sevenDays.
  rewrite map_lookup_filter. destruct (seen_items s !! itemID) as [r|]; [|reflexivity].
  cbn [mbind option_bind]. destruct (now - sevenDays <=? seen_at r) eqn:E.
  - rewrite option_guard_True; [reflexivity|]. cbn [snd]. now rewrite E.
  - rewrite option_guard_False; [reflexivity|]. cbn [snd]. now rewrite E.
Qed.

End StoreWindow.

Section StoreWindowResults.

Import Go Store Scenario.

(** MarkSeen then HasSeen.  On a store whose statements succeed, MarkSeen
    returns no error, the id reads as seen afterwards, and every other id
    reads as before.  On a store whose statements fail, MarkSeen returns
    the failure wrapped as "marking item seen", changes nothing, and the
    id still reads as unseen. *)
Theorem MarkSeen_then_HasSeen (s : DedupStore) (itemID brand name : string) (price now : Z) :
  let after := MarkSeen s itemID brand name price now in
  (fault s = None ->
   fst after = None
   /\ HasSeen (snd after) itemID = true
   /\ forall other, other <> itemID ->
        seen_items (snd after) !! other = seen_items s !! other
        /\ HasSeen (snd after) other = HasSeen s other)
  /\ (forall e, fault s = Some e ->
        fst after = Some (wrapError "marking item seen" e)
        /\ snd after = s
        /\ HasSeen (snd after) itemID = false).
Proof.
  cbv zeta. unfold MarkSeen. split.
  - intros Hf. rewrite Hf. cbn [fst snd]. split; [reflexivity|]. split.
    + apply HasSeen_lookup. cbn [fault seen_items]. split; [reflexivity|].
      rewrite insertOrIgnore_lookup. eauto.
    + intros other Hne. cbn [seen_items].
      rewrite insertOrIgnore_other by exact Hne. split; [reflexivity|].
      rewrite !HasSeen_healthy by (try exact Hf; reflexivity). cbn [seen_items].
      now rewrite insertOrIgnore_other by exact Hne.
  - intros e Hf. rewrite Hf. cbn [fst snd]. split; [reflexivity|]. split; [reflexivity|].
    now apply HasSeen_faulty with e.
Qed.

(** The dedup window.  After MarkSeen on a store whose statements succeed,
    a cleanup at clock reading [now] keeps the id exactly when its row is
    at most seven days old; the row is the one of the first MarkSeen of
    that id, since a later MarkSeen does not refresh seen_at. *)
Theorem MarkSeen_then_cleanup (s : DedupStore) (itemID brand name : string)
        (price markedAt now : Z) :
  fault s = None ->
  let row := default {| brand := brand; name := name; price := price; seen_at := markedAt |}
                     (seen_items s !! itemID) in
  HasSeen (cleanup (snd (MarkSeen s itemID brand name price markedAt)) now) itemID
  = (now - sevenDays <=? seen_at row).
Proof.
  intros Hf. cbv zeta. unfold MarkSeen. rewrite Hf. cbn [snd].
  set (s1 := {| seen_items := _; fault := None |}).
  assert (Hc : fault (cleanup s1 now) = None) by reflexivity.
  rewrite HasSeen_healthy by exact Hc.
  rewrite cleanup_lookup by reflexivity. unfold s1. cbn [seen_items].
  rewrite insertOrIgnore_lookup.
  destruct (now - sevenDays <=? seen_at _).
  - apply bool_decide_eq_true. eauto.
  - apply bool_decide_eq_false. intros [r Hr]. discriminate.
Qed.

Lemma MarkSeen_then_cleanup_witness :
  let row := default {| brand := "Gucci"; name := "bag"; price := 5000; seen_at := 10 |}
                     (seen_items emptyStore !! "m1") in
  HasSeen (cleanup (snd (MarkSeen emptyStore "m1" "Gucci" "bag" 5000 10)) (10 + sevenDays + 1)) "m1"
  = (10 + sevenDays + 1 - sevenDays <=? seen_at row).
Proof.
  apply (MarkSeen_then_cleanup emptyStore "m1" "Gucci" "bag" 5000 10 (10 + sevenDays + 1)).
  reflexivity.
Defined.

(** Opening the store.  NewDedupStore fails exactly when the database
    cannot be opened or CREATE TABLE fails, with the error wrapped
    accordingly; a PRAGMA never makes it fail.  Otherwise it returns the
    store.  When the DELETE of cleanup succeeds, the store holds the rows
    of the database that are at most seven days old at the opening,
    unchanged, and no other: an id reads as seen exactly when it has such
    a row, and Count does not exceed the number of rows the database had.
    When the DELETE fails, the store is returned with every row of the
    database, however old. *)
Theorem NewDedupStore_expires (opened : error + DedupStore) (met : Startup) (now : Z) :
  (forall err, opened = inl err ->
     NewDedupStore opened met now = inl (wrapError "opening sqlite db" err))
  /\ (forall db err, opened = inr db -> createErr met = Some err ->
        NewDedupStore opened met now = inl (wrapError "creating table" err))
  /\ (forall db, opened = inr db -> createErr met = None ->
        exists st,
          NewDedupStore opened met now = inr st
          /\ fault st = fault db
          /\ (fault db = None ->
              (forall itemID r,
                  seen_items st !! itemID = Some r
                  <-> seen_items db !! itemID = Some r /\ now - sevenDays <= seen_at r)
              /\ (forall itemID,
                    HasSeen st itemID = true
                    <-> exists r, seen_items db !! itemID = Some r
                                  /\ now - sevenDays <= seen_at r)
              /\ Count st <= Count db)
          /\ (forall err, fault db = Some err -> st = db))
  /\ (forall err, NewDedupStore opened met now = inl err ->
        (exists e, opened = inl e) \/ (exists e, createErr met = Some e)).
Proof.
  split; [|split; [|split]].
  - intros err ->. reflexivity.
  - intros db err -> Hf. simpl. now rewrite Hf.
  - intros db -> Hcr. exists (cleanup db now). simpl. rewrite Hcr.
    split; [reflexivity|]. split; [|split].
    + unfold cleanup. destruct (fault db) eqn:Ef; [exact Ef|reflexivity].
    + intros Hf.
      assert (Hc : fault (cleanup db now) = None) by (unfold cleanup; now rewrite Hf).
      assert (Hl : forall itemID r,
                 seen_items (cleanup db now) !! itemID = Some r
                 <-> seen_items db !! itemID = Some r /\ now - sevenDays <= seen_at r).
      { intros itemID r. rewrite cleanup_lookup by exact Hf.
        destruct (seen_items db !! itemID) as [r0|];
          [|split; [discriminate|intros [? _]; discriminate]].
        destruct (Z.leb_spec (now - sevenDays) (seen_at r0)).
        - split; [intros [= ->]; auto|intros [[= ->] _]; reflexivity].
        - split; [discriminate|intros [[= ->] ?]; lia]. }
      split; [exact Hl|]. split.
      * intros itemID. rewrite HasSeen_lookup. split.
        -- intros [_ [r Hr]]. exists r. now apply Hl.
        -- intros [r Hr]. split; [exact Hc|]. exists r. now apply Hl.
      * unfold Count. rewrite Hc, Hf. apply inj_le. apply map_subseteq_size.
        unfold cleanup. rewrite Hf. cbn [seen_items]. apply map_filter_subseteq.
    + intros err Hf. unfold cleanup. now rewrite Hf.
  - intros err H. destruct opened as [e|db]; [left; eauto|].
    simpl in H. destruct (createErr met) as [e|]; [right; eauto|discriminate].
Qed.

(** A row marked at second 10 is kept by an opening seven days later and
    dropped by one a nanosecond after that, also when every PRAGMA
    failed; a database whose DELETE fails comes back with its row of
    second 1. *)
Example dedup_window_run :
  let s := snd (MarkSeen emptyStore "m1" "Gucci" "bag" 5000 10) in
  (exists st, NewDedupStore (inr s) cleanStartup (10 + sevenDays) = inr st
              /\ HasSeen st "m1" = true)
  /\ (exists st, NewDedupStore (inr s) noPragmas (10 + sevenDays + 1) = inr st
                 /\ HasSeen st "m1" = false)
  /\ NewDedupStore (inr lockedStoreWithM123) cleanStartup (10 + sevenDays)
     = inr lockedStoreWithM123.
Proof.
  split; [|split]; try (eexists; (split; [vm_compute; reflexivity|]));
    vm_compute; reflexivity.
Qed.

End StoreWindowResults.

(** ** The cycle: what it leaves unchanged and what it adds *)

Section CycleInvariants.

Import Go Bot.

Variable cfg : Config.Config.
Variable filter : Mercari.AIFilter.
Variable env : Env.
Variable fuel : nat.

(** Splits a finished sequence of two steps into its steps. *)
Ltac bind_split H :=
  let a := fresh "a" in
  let w := fresh "w" in
  let H1 := fresh "Hstep" in
  apply bind_Done in H as (a & w & H1 & H).

Lemma keeps_ret {A : Type} (R : World -> World -> Prop) (a : A) :
  (forall w, R w w) -> keeps R (ret a).
Proof. intros Hrefl w b w' H. apply ret_Done in H as [_ <-]. apply Hrefl. Qed.

Lemma keeps_bind {A B : Type} (R : World -> World -> Prop) (m : M A) (k : A -> M B) :
  (forall w1 w2 w3, R w1 w2 -> R w2 w3 -> R w1 w3) ->
  keeps R m -> (forall a, keeps R (k a)) -> keeps R (bind m k).
Proof.
  intros Htrans Hm Hk w b w' H. bind_split H.
  eapply Htrans; [eapply Hm|eapply Hk]; eassumption.
Qed.

(** *** Steps that make no Telegram request and leave the store alone *)

Lemma quiet_refl (w : World) : quiet w w.
Proof. unfold quiet. auto. Qed.

Lemma quiet_trans (w1 w2 w3 : World) : quiet w1 w2 -> quiet w2 w3 -> quiet w1 w3.
Proof. unfold quiet. intros (-> & -> & ->) (-> & -> & ->). auto. Qed.

Ltac quiet_bind := apply keeps_bind; [exact quiet_trans| |intros ?].
Ltac quiet_ret := apply keeps_ret; exact quiet_refl.

Lemma quiet_tick : keeps quiet (tick env).
Proof. intros w a w' H. unfold tick in H. inversion H; subst. unfold quiet; simpl; auto. Qed.

Lemma quiet_randIntn (n : Z) : keeps quiet (randIntn env n).
Proof. intros w a w' H. unfold randIntn in H. inversion H; subst. unfold quiet; simpl; auto. Qed.

Lemma quiet_sleep (d : Z) : keeps quiet (sleep d).
Proof. intros w a w' H. unfold sleep in H. inversion H; subst. unfold quiet; simpl; auto. Qed.

Lemma quiet_searchWithFallback (q : Mercari.SearchQuery) : keeps quiet (searchWithFallback env q).
Proof. intros w a w' H. unfold searchWithFallback in H. inversion H; subst. unfold quiet; simpl; auto. Qed.

Lemma quiet_hasSeen (itemID : string) : keeps quiet (hasSeen itemID).
Proof. intros w a w' H. unfold hasSeen in H. inversion H; subst. unfold quiet; simpl; auto. Qed.

Lemma quiet_filterItems (items : list Mercari.Item) : keeps quiet (filterItems filter env fuel items).
Proof.
  intros w a w' H. unfold filterItems in H.
  destruct (Mercari.FilterItems _ _ _ _); inversion H; subst. unfold quiet; simpl; auto.
Qed.

Lemma quiet_capDeals (items : list Mercari.Item) : keeps quiet (capDeals cfg items).
Proof.
  unfold capDeals. destruct (_ <? Z.of_nat _); [|quiet_ret].
  destruct (_ <? 0); [intros w a w' H; discriminate|quiet_ret].
Qed.

Lemma quiet_retryLoop (q : Mercari.SearchQuery) (remaining : nat) :
  forall attempt lastErr, keeps quiet (retryLoop env q remaining attempt lastErr).
Proof.
  induction remaining as [|remaining IH]; intros attempt lastErr; simpl; [quiet_ret|].
  quiet_bind.
  - destruct (0 <? attempt); [|quiet_ret]. unfold retryWait.
    quiet_bind; [apply quiet_randIntn|apply quiet_sleep].
  - quiet_bind; [apply quiet_searchWithFallback|].
    destruct a0; [apply IH|quiet_ret].
Qed.

Lemma quiet_searchWithRetry (keyword : string) (priceMin priceMax maxRetries : Z) :
  keeps quiet (searchWithRetry cfg env keyword priceMin priceMax maxRetries).
Proof.
  unfold searchWithRetry. quiet_bind; [apply quiet_retryLoop|].
  destruct a as [[lastErr|]|items]; quiet_ret.
Qed.

Lemma quiet_ageFilter (items : list Mercari.Item) : keeps quiet (ageFilter cfg env items).
Proof.
  induction items as [|item rest IH]; simpl; [quiet_ret|].
  quiet_bind; [apply quiet_tick|]. quiet_bind; [exact IH|quiet_ret].
Qed.

Lemma quiet_dedupFilter (items : list Mercari.Item) : keeps quiet (dedupFilter items).
Proof.
  induction items as [|item rest IH]; simpl; [quiet_ret|].
  quiet_bind; [apply quiet_hasSeen|]. quiet_bind; [exact IH|quiet_ret].
Qed.

(** Every listing the dedup filter lets through reads as unseen in the
    store the filter ran on. *)
Lemma dedupFilter_unseen (freshItems : list Mercari.Item) :
  forall w w' unseenItems,
    dedupFilter freshItems w = Done unseenItems w' ->
    Forall (fun item => Store.HasSeen (store w) (Mercari.ID item) = false) unseenItems.
Proof.
  induction freshItems as [|item rest IH]; intros w w' unseenItems H; simpl in H.
  - apply ret_Done in H as [<- _]. constructor.
  - bind_split H. bind_split H. apply ret_Done in H as [<- _].
    unfold hasSeen in Hstep. inversion Hstep; subst.
    specialize (IH _ _ _ Hstep0).
    destruct (Store.HasSeen (store w0) (Mercari.ID item)) eqn:E; simpl; [exact IH|].
    constructor; assumption.
Qed.

(** *** The notification loop *)

Lemma tick_Done (w w' : World) (now : Z) :
  tick env w = Done now w' ->
  store w' = store w /\ outbox w' = outbox w /\ posts w' = posts w /\ slept w' = slept w.
Proof. unfold tick. intros H. inversion H; subst. auto. Qed.

Lemma telegram_Done (o : Telegram.Outgoing) (w w' : World) (r : option error) :
  telegram env o w = Done r w' ->
  r = Telegram.send o (telegramNet env (posts w) o)
  /\ store w' = store w /\ outbox w' = outbox w ++ [o] /\ posts w' = S (posts w)
  /\ slept w' = slept w.
Proof. unfold telegram. intros H. inversion H; subst. auto 10. Qed.

Lemma markSeen_Done (itemID brand name : string) (price : Z) (w w' : World) (r : option error) :
  markSeen env itemID brand name price w = Done r w' ->
  (exists now, store w' = snd (Store.MarkSeen (store w) itemID brand name price now))
  /\ outbox w' = outbox w /\ posts w' = posts w /\ slept w' = slept w.
Proof.
  unfold markSeen. intros H. bind_split H. apply tick_Done in Hstep as (Hs & Ho & Hp & Hsl).
  destruct (Store.MarkSeen (store w0) itemID brand name price a) as [err s'] eqn:E.
  inversion H; subst. simpl. rewrite Hs in E. split; [exists a; now rewrite E|auto].
Qed.

Lemma sleep_Done (d : Z) (w w' : World) :
  sleep d w = Done tt w' ->
  store w' = store w /\ outbox w' = outbox w /\ posts w' = posts w /\ slept w' = slept w ++ [d].
Proof. unfold sleep. intros H. inversion H; subst. auto. Qed.

Lemma MarkSeen_grows (s : Store.DedupStore) (itemID brand name : string) (price now : Z) :
  let s' := snd (Store.MarkSeen s itemID brand name price now) in
  Store.fault s' = Store.fault s
  /\ Store.seen_items s ⊆ Store.seen_items s'
  /\ (size (Store.seen_items s') <= S (size (Store.seen_items s)))%nat
  /\ (Store.fault s = None -> Store.HasSeen s' itemID = true).
Proof.
  cbv zeta. unfold Store.MarkSeen. destruct (Store.fault s) as [e|] eqn:Hf; cbn [snd].
  - rewrite Hf. split; [reflexivity|]. split; [reflexivity|]. split; [lia|]. discriminate.
  - cbn [Store.fault Store.seen_items]. split; [reflexivity|]. split; [|split].
    + unfold Store.insertOrIgnore. destruct (Store.seen_items s !! itemID) eqn:E; [reflexivity|].
      now apply insert_subseteq.
    + rewrite insertOrIgnore_size. destruct (Store.seen_items s !! itemID); lia.
    + intros _. apply HasSeen_lookup. cbn [Store.fault Store.seen_items]. split; [reflexivity|].
      rewrite insertOrIgnore_lookup. eauto.
Qed.

Lemma HasSeen_mono (s s' : Store.DedupStore) (itemID : string) :
  Store.fault s' = Store.fault s ->
  Store.seen_items s ⊆ Store.seen_items s' ->
  Store.HasSeen s itemID = true -> Store.HasSeen s' itemID = true.
Proof.
  intros Hf Hsub H. apply HasSeen_lookup in H as [Hok [r Hr]]. apply HasSeen_lookup.
  split; [congruence|]. exists r. eapply lookup_weaken; eassumption.
Qed.

(** The notification loop, request by request. *)
Lemma notifyLoop_deals (brand : Config.Brand) (keptItems : list Mercari.Item) :
  forall (w w' : World) (n : nat),
    notifyLoop env brand keptItems w = Done n w' ->
    exists deals,
      Forall2 (dealOf brand) keptItems deals
      /\ outbox w' = outbox w ++ map Telegram.dealRequest deals
      /\ posts w' = (posts w + length keptItems)%nat
      /\ n = deliveries env (posts w) (map Telegram.dealRequest deals)
      /\ slept w' = slept w ++ replicate n (200 * Millisecond)
      /\ storeGrows n w w'
      /\ (Store.fault (store w) = None ->
          forall i item deal,
            keptItems !! i = Some item -> deals !! i = Some deal ->
            delivered env (posts w + i) (Telegram.dealRequest deal) = true ->
            Store.HasSeen (store w') (Mercari.ID item) = true).
Proof.
  induction keptItems as [|item rest IH]; intros w w' n H; simpl in H.
  - apply ret_Done in H as [<- <-]. exists []. simpl. rewrite !app_nil_r, Nat.add_0_r.
    split; [constructor|]. unfold storeGrows. repeat split; try reflexivity; try lia.
    intros _ i it d Hi. discriminate.
  - apply bind_Done in H as (now0 & w1 & Htick & H).
    apply tick_Done in Htick as (Hs0 & Ho0 & Hp0 & Hsl0).
    set (deal := {| Telegram.Name := Mercari.Name item;
                    Telegram.Price := Mercari.Price item;
                    Telegram.BrandName := Config.Name brand;
                    Telegram.ImageURL := firstImage (Mercari.ImageURLs item);
                    Telegram.ItemURL := Mercari.ItemURL item;
                    Telegram.AgeMin := Mercari.AgeMinutes now0 item |}) in *.
    assert (Hdeal : dealOf brand item deal).
    { unfold dealOf, deal. simpl. repeat split. eauto. }
    apply bind_Done in H as (r & w2 & Hsend & H). unfold SendDeal in Hsend.
    apply telegram_Done in Hsend as (Hr & Hs1 & Ho1 & Hp1 & Hsl1).
    assert (Hdel : delivered env (posts w) (Telegram.dealRequest deal)
                   = match r with None => true | Some _ => false end).
    { unfold delivered. rewrite <- Hp0, <- Hr. reflexivity. }
    destruct r as [err|].
    + (* the send failed *)
      destruct (IH _ _ _ H) as (deals & Hd & Ho & Hp & Hn & Hsl & Hg & Hm).
      exists (deal :: deals). simpl. rewrite Hdel. simpl.
      split; [constructor; assumption|].
      split; [rewrite Ho, Ho1, Ho0, <- app_assoc; reflexivity|].
      split; [lia|].
      split; [rewrite Hn, Hp1, Hp0; reflexivity|].
      split; [rewrite Hsl, Hsl1, Hsl0; reflexivity|].
      split.
      * destruct Hg as (Hg1 & Hg2 & Hg3). unfold storeGrows.
        rewrite Hs1, Hs0 in *. repeat split; auto; lia.
      * intros Hok [|i] it d Hi Hdi Hdl; simpl in *.
        -- inversion Hdi; subst d. rewrite Nat.add_0_r in Hdl. congruence.
        -- eapply (Hm ltac:(congruence) i it d Hi Hdi).
           match goal with
           | |- delivered _ ?k _ = _ =>
               replace k with (posts w + S i)%nat by (rewrite ?Hp1, ?Hp0; lia)
           end.
           exact Hdl.
    + (* the send succeeded *)
      apply bind_Done in H as (rm & w3 & Hmark & H).
      apply markSeen_Done in Hmark as ([now Hs2] & Ho2 & Hp2 & Hsl2).
      apply bind_Done in H as (u & w4 & Hsleep & H). destruct u.
      apply sleep_Done in Hsleep as (Hs3 & Ho3 & Hp3 & Hsl3).
      apply bind_Done in H as (n' & w5 & Hrest & H). apply ret_Done in H as [<- <-].
      destruct (IH _ _ _ Hrest) as (deals & Hd & Ho & Hp & Hn & Hsl & Hg & Hm).
      pose proof (MarkSeen_grows (store w) (Mercari.ID item) (Config.Name brand)
                                 (Mercari.Name item) (Mercari.Price item) now) as Hms.
      cbv zeta in Hms. destruct Hms as (Hm1 & Hm2 & Hm3 & Hm4).
      assert (Hst : store w4 = snd (Store.MarkSeen (store w) (Mercari.ID item) (Config.Name brand)
                                      (Mercari.Name item) (Mercari.Price item) now)).
      { rewrite Hs3, Hs2, Hs1, Hs0. reflexivity. }
      assert (Hpo : posts w4 = S (posts w)) by (rewrite Hp3, Hp2, Hp1, Hp0; reflexivity).
      exists (deal :: deals). simpl. rewrite Hdel. simpl.
      split; [constructor; assumption|].
      split; [rewrite Ho, Ho3, Ho2, Ho1, Ho0, <- app_assoc; reflexivity|].
      split; [lia|].
      split; [rewrite Hn, Hpo; reflexivity|].
      split; [rewrite Hsl, Hsl3, Hsl2, Hsl1, Hsl0, <- app_assoc; reflexivity|].
      destruct Hg as (Hg1 & Hg2 & Hg3). rewrite Hst, Hpo in *.
      split.
      * unfold storeGrows. split; [congruence|]. split; [etransitivity; eassumption|]. lia.
      * intros Hok [|i] it d Hi Hdi Hdl; simpl in *.
        -- inversion Hi; subst it.
           eapply HasSeen_mono; [exact Hg1|exact Hg2|]. apply Hm4. exact Hok.
        -- eapply (Hm ltac:(congruence) i it d Hi Hdi).
           match goal with
           | |- delivered _ ?k _ = _ => replace k with (posts w + S i)%nat by lia
           end.
           exact Hdl.
Qed.


(** *** One keyword *)

Lemma storeGrows_refl (w : World) : storeGrows 0 w w.
Proof. unfold storeGrows. repeat split; [reflexivity|lia]. Qed.

Lemma storeGrows_trans (n m : nat) (w1 w2 w3 : World) :
  storeGrows n w1 w2 -> storeGrows m w2 w3 -> storeGrows (n + m) w1 w3.
Proof.
  unfold storeGrows. intros (H1 & H2 & H3) (H4 & H5 & H6).
  split; [congruence|]. split; [etransitivity; eassumption|lia].
Qed.

Lemma storeGrows_quiet (n : nat) (w1 w2 w3 : World) :
  quiet w1 w2 -> storeGrows n w2 w3 -> storeGrows n w1 w3.
Proof. unfold quiet, storeGrows. intros (-> & _ & _). auto. Qed.

Lemma capDeals_length (unseenItems capped : list Mercari.Item) (w w' : World) :
  capDeals cfg unseenItems w = Done capped w' ->
  Z.of_nat (length capped) <= Z.max 0 (Config.MaxDealsPerBrand cfg).
Proof.
  unfold capDeals. intros H.
  destruct (Z.ltb_spec (Config.MaxDealsPerBrand cfg) (Z.of_nat (length unseenItems))).
  - destruct (Z.ltb_spec (Config.MaxDealsPerBrand cfg) 0); [discriminate|].
    apply ret_Done in H as [<- _]. rewrite length_take. lia.
  - apply ret_Done in H as [<- _]. lia.
Qed.

(** What one keyword adds: the requests of the notification loop and
    nothing else. *)
Lemma scanKeyword_deals (brand : Config.Brand) (pMin pMax : Z) (keyword : string)
      (w w' : World) (s : Stats) :
  scanKeyword cfg filter env fuel brand pMin pMax keyword w = Done s w' ->
  exists deals,
    outbox w' = outbox w ++ map Telegram.dealRequest deals
    /\ posts w' = (posts w + kept s)%nat
    /\ length deals = kept s
    /\ Z.of_nat (kept s) <= Z.max 0 (Config.MaxDealsPerBrand cfg)
    /\ sent s = deliveries env (posts w) (map Telegram.dealRequest deals)
    /\ Forall (fun deal => exists item,
                   Store.HasSeen (store w) (Mercari.ID item) = false
                   /\ dealOf brand item deal) deals
    /\ storeGrows (sent s) w w'.
Proof.
  unfold scanKeyword. intros H.
  apply bind_Done in H as (r & w1 & Hsearch & H).
  pose proof (quiet_searchWithRetry _ _ _ _ _ _ _ Hsearch) as Hq1.
  assert (Hnone : forall (st : Stats) (u u' : World),
             quiet w u -> u = u' -> kept st = 0%nat -> sent st = 0%nat ->
             exists deals,
               outbox u' = outbox w ++ map Telegram.dealRequest deals
               /\ posts u' = (posts w + kept st)%nat
               /\ length deals = kept st
               /\ Z.of_nat (kept st) <= Z.max 0 (Config.MaxDealsPerBrand cfg)
               /\ sent st = deliveries env (posts w) (map Telegram.dealRequest deals)
               /\ Forall (fun deal => exists item,
                              Store.HasSeen (store w) (Mercari.ID item) = false
                              /\ dealOf brand item deal) deals
               /\ storeGrows (sent st) w u').
  { intros st u u' (Hs & Ho & Hp) <- Hk Hse. exists []. simpl.
    rewrite Hk, Hse, app_nil_r, Nat.add_0_r. repeat split; auto; try lia.
    - now rewrite Hs.
    - now rewrite Hs.
    - rewrite Hs. lia. }
  destruct r as [err|items].
  - apply ret_Done in H as [<- <-]. now apply (Hnone _ w1 w1).
  - apply bind_Done in H as (freshItems & w2 & Hage & H).
    pose proof (quiet_ageFilter _ _ _ _ Hage) as Hq2.
    apply bind_Done in H as (unseenItems & w3 & Hdedup & H).
    pose proof (quiet_dedupFilter _ _ _ _ Hdedup) as Hq3.
    pose proof (dedupFilter_unseen _ _ _ _ Hdedup) as Hunseen.
    pose proof (quiet_trans _ _ _ Hq1 Hq2) as Hq12.
    pose proof (quiet_trans _ _ _ Hq12 Hq3) as Hq13.
    destruct unseenItems as [|u us].
    + apply ret_Done in H as [<- <-]. now apply (Hnone _ w3 w3).
    + apply bind_Done in H as (capped & w4 & Hcap & H).
      pose proof (quiet_capDeals _ _ _ _ Hcap) as Hq4.
      pose proof (capDeals_sublist _ _ _ _ _ Hcap) as Hsub4.
      pose proof (capDeals_length _ _ _ _ Hcap) as Hlen4.
      apply bind_Done in H as (keptItems & w5 & Hfilter & H).
      pose proof (quiet_filterItems _ _ _ _ Hfilter) as Hq5.
      pose proof (filterItems_sublist _ _ _ _ _ _ _ Hfilter) as Hsub5.
      apply bind_Done in H as (n & w6 & Hnotify & H). apply ret_Done in H as [<- <-].
      pose proof (quiet_trans _ _ _ (quiet_trans _ _ _ Hq13 Hq4) Hq5) as Hq.
      destruct (notifyLoop_deals _ _ _ _ _ Hnotify)
        as (deals & Hd & Ho & Hp & Hn & _ & Hg & _).
      destruct Hq as (Hs & Hob & Hpo). destruct Hq2 as (Hs2 & _ & _). destruct Hq12 as (Hs12 & _ & _).
      exists deals. cbn [kept sent]. rewrite Ho, Hp, Hob, Hpo.
      split; [reflexivity|]. split; [reflexivity|].
      split; [symmetry; eapply Forall2_length; exact Hd|].
      split; [pose proof (sublist_length _ _ Hsub5); lia|].
      split; [rewrite Hn, Hpo; reflexivity|].
      split.
      * apply Forall_forall. intros deal Hin.
        apply list_elem_of_lookup in Hin as [i Hi].
        destruct (Forall2_lookup_r _ _ _ _ _ Hd Hi) as (item & Hitem & Hdeal).
        exists item. split; [|exact Hdeal].
        assert (Hin : item ∈ u :: us).
        { eapply sublist_subseteq; [exact Hsub4|].
          eapply sublist_subseteq; [exact Hsub5|].
          apply list_elem_of_lookup. eauto. }
        rewrite Forall_forall in Hunseen. specialize (Hunseen _ Hin).
        rewrite Hs12 in Hunseen. exact Hunseen.
      * unfold storeGrows in *. rewrite Hs in Hg. exact Hg.
Qed.

(** *** The sleeps of the cycle *)

Lemma shortSleeps_refl (w : World) : shortSleeps w w.
Proof. exists []. rewrite app_nil_r. split; [reflexivity|constructor]. Qed.

Lemma shortSleeps_trans (w1 w2 w3 : World) :
  shortSleeps w1 w2 -> shortSleeps w2 w3 -> shortSleeps w1 w3.
Proof.
  intros (ds1 & H1 & F1) (ds2 & H2 & F2). exists (ds1 ++ ds2).
  rewrite H2, H1, app_assoc. split; [reflexivity|]. apply Forall_app. auto.
Qed.

Ltac sleeps_bind := apply keeps_bind; [exact shortSleeps_trans| |intros ?].
Ltac sleeps_ret := apply keeps_ret; exact shortSleeps_refl.
Ltac sleeps_prim :=
  let H := fresh "H" in
  intros ? ? ? H; inversion H; subst; eexists []; simpl; rewrite app_nil_r;
  split; [reflexivity|constructor].

Lemma shortSleeps_tick : keeps shortSleeps (tick env).
Proof. unfold tick. sleeps_prim. Qed.

Lemma shortSleeps_randIntn (n : Z) : keeps shortSleeps (randIntn env n).
Proof. unfold randIntn. sleeps_prim. Qed.

Lemma shortSleeps_searchWithFallback (q : Mercari.SearchQuery) :
  keeps shortSleeps (searchWithFallback env q).
Proof. unfold searchWithFallback. sleeps_prim. Qed.

Lemma shortSleeps_hasSeen (itemID : string) : keeps shortSleeps (hasSeen itemID).
Proof. unfold hasSeen. sleeps_prim. Qed.

Lemma shortSleeps_telegram (o : Telegram.Outgoing) : keeps shortSleeps (telegram env o).
Proof. unfold telegram. sleeps_prim. Qed.

Lemma shortSleeps_filterItems (items : list Mercari.Item) :
  keeps shortSleeps (filterItems filter env fuel items).
Proof.
  unfold filterItems. intros w a w' H.
  destruct (Mercari.FilterItems _ _ _ _); inversion H; subst.
  exists []. simpl. rewrite app_nil_r. split; [reflexivity|constructor].
Qed.

Lemma shortSleeps_sleep (d : Z) :
  200 * Millisecond <= d < 5 * Second -> keeps shortSleeps (sleep d).
Proof.
  intros Hd w a w' H. unfold sleep in H. inversion H; subst.
  exists [d]. simpl. split; [reflexivity|]. repeat constructor; lia.
Qed.

Lemma shortSleeps_markSeen (itemID brand name : string) (price : Z) :
  keeps shortSleeps (markSeen env itemID brand name price).
Proof.
  unfold markSeen. sleeps_bind; [apply shortSleeps_tick|].
  intros w r w' H. destruct (Store.MarkSeen _ _ _ _ _ _). inversion H; subst.
  exists []. simpl. rewrite app_nil_r. split; [reflexivity|constructor].
Qed.

Lemma shortSleeps_capDeals (items : list Mercari.Item) : keeps shortSleeps (capDeals cfg items).
Proof.
  unfold capDeals. destruct (_ <? Z.of_nat _); [|sleeps_ret].
  destruct (_ <? 0); [intros w a w' H; discriminate|sleeps_ret].
Qed.

Lemma shortSleeps_retryWait (attempt : Z) :
  1 <= attempt <= 3 -> keeps shortSleeps (retryWait env attempt).
Proof.
  intros Ha w u w' H. unfold retryWait, bind, randIntn, sleep in H. inversion H; subst.
  eexists [_]. simpl. split; [reflexivity|]. constructor; [|constructor].
  rewrite retry_wait_value by lia.
  pose proof (jitterOf_bounds env (draws w)) as Hj.
  assert (Hp : 1 <= 2 ^ (attempt - 1) <= 4).
  { assert (attempt = 1 \/ attempt = 2 \/ attempt = 3) as [->|[->| ->]] by lia; simpl; lia. }
  unfold Millisecond, Second in *. nia.
Qed.

Lemma shortSleeps_retryLoop (q : Mercari.SearchQuery) (remaining : nat) :
  forall attempt lastErr,
    0 <= attempt -> attempt + Z.of_nat remaining <= 4 ->
    keeps shortSleeps (retryLoop env q remaining attempt lastErr).
Proof.
  induction remaining as [|remaining IH]; intros attempt lastErr Ha Hb; simpl; [sleeps_ret|].
  sleeps_bind.
  - destruct (Z.ltb_spec 0 attempt); [|sleeps_ret]. apply shortSleeps_retryWait. lia.
  - sleeps_bind; [apply shortSleeps_searchWithFallback|].
    destruct a0; [apply IH; lia|sleeps_ret].
Qed.

Lemma shortSleeps_searchWithRetry (keyword : string) (priceMin priceMax : Z) :
  keeps shortSleeps (searchWithRetry cfg env keyword priceMin priceMax 3).
Proof.
  unfold searchWithRetry. sleeps_bind; [apply shortSleeps_retryLoop; simpl; lia|].
  destruct a as [[lastErr|]|items]; sleeps_ret.
Qed.

Lemma shortSleeps_ageFilter (items : list Mercari.Item) : keeps shortSleeps (ageFilter cfg env items).
Proof.
  induction items as [|item rest IH]; simpl; [sleeps_ret|].
  sleeps_bind; [apply shortSleeps_tick|]. sleeps_bind; [exact IH|sleeps_ret].
Qed.

Lemma shortSleeps_dedupFilter (items : list Mercari.Item) : keeps shortSleeps (dedupFilter items).
Proof.
  induction items as [|item rest IH]; simpl; [sleeps_ret|].
  sleeps_bind; [apply shortSleeps_hasSeen|]. sleeps_bind; [exact IH|sleeps_ret].
Qed.

Lemma shortSleeps_notifyLoop (brand : Config.Brand) (keptItems : list Mercari.Item) :
  keeps shortSleeps (notifyLoop env brand keptItems).
Proof.
  induction keptItems as [|item rest IH]; simpl; [sleeps_ret|].
  sleeps_bind; [apply shortSleeps_tick|].
  sleeps_bind; [apply shortSleeps_telegram|].
  destruct a0; [exact IH|].
  sleeps_bind; [apply shortSleeps_markSeen|].
  sleeps_bind; [apply shortSleeps_sleep; unfold Millisecond, Second; lia|].
  sleeps_bind; [exact IH|sleeps_ret].
Qed.

Lemma shortSleeps_scanKeyword (brand : Config.Brand) (pMin pMax : Z) (keyword : string) :
  keeps shortSleeps (scanKeyword cfg filter env fuel brand pMin pMax keyword).
Proof.
  unfold scanKeyword. sleeps_bind; [apply shortSleeps_searchWithRetry|].
  destruct a; [sleeps_ret|].
  sleeps_bind; [apply shortSleeps_ageFilter|].
  sleeps_bind; [apply shortSleeps_dedupFilter|].
  destruct a0; [sleeps_ret|].
  sleeps_bind; [apply shortSleeps_capDeals|].
  sleeps_bind; [apply shortSleeps_filterItems|].
  sleeps_bind; [apply shortSleeps_notifyLoop|sleeps_ret].
Qed.

Lemma shortSleeps_keywordLoop (brand : Config.Brand) (pMin pMax : Z) (keywords : list string) :
  forall acc, keeps shortSleeps (keywordLoop cfg filter env fuel brand pMin pMax keywords acc).
Proof.
  induction keywords as [|keyword rest IH]; intros acc; simpl; [sleeps_ret|].
  sleeps_bind; [apply shortSleeps_scanKeyword|apply IH].
Qed.

Lemma shortSleeps_scanBrand (brand : Config.Brand) :
  keeps shortSleeps (scanBrand cfg filter env fuel brand).
Proof.
  unfold scanBrand. destruct (Config.GetPriceRange cfg brand). apply shortSleeps_keywordLoop.
Qed.

(** The pause after a brand: 500 milliseconds plus rand.Intn(1500). *)
Lemma brand_pause (raw : Z) :
  wrap64 (wrap64 (500 + Intn raw 1500) * Millisecond) = (500 + raw mod 1500) * Millisecond
  /\ 500 * Millisecond <= (500 + raw mod 1500) * Millisecond < 2000 * Millisecond.
Proof.
  unfold Intn, Millisecond. pose proof (Z.mod_pos_bound raw 1500 ltac:(lia)) as Hr.
  rewrite (wrap64_small (500 + raw mod 1500)) by lia.
  rewrite wrap64_small by lia. lia.
Qed.

Lemma shortSleeps_brandLoop (brands : list Config.Brand) :
  forall totals, keeps shortSleeps (brandLoop cfg filter env fuel brands totals).
Proof.
  induction brands as [|brand rest IH]; intros totals; simpl; [sleeps_ret|].
  sleeps_bind; [apply shortSleeps_scanBrand|].
  intros w t w' H. unfold bind at 1 in H. unfold randIntn in H. unfold bind at 1 in H.
  unfold sleep in H. pose proof (IH _ _ _ _ H) as Hrest.
  eapply shortSleeps_trans; [|exact Hrest].
  eexists [_]. simpl. split; [reflexivity|]. constructor; [|constructor].
  destruct (brand_pause (randSource env (draws w))) as [-> Hb].
  unfold Millisecond, Second in *. lia.
Qed.

(** *** Brands and the cycle *)

Lemma addStats_noStats (s : Stats) : addStats noStats s = s.
Proof. destruct s. reflexivity. Qed.

Lemma addStats_assoc (a b c : Stats) : addStats (addStats a b) c = addStats a (addStats b c).
Proof. unfold addStats. simpl. f_equal; lia. Qed.

(** What the keywords of a brand add to the counters and to the world. *)
Lemma keywordLoop_adds (brand : Config.Brand) (pMin pMax : Z) (keywords : list string) :
  forall (acc : Stats) (w w' : World) (s : Stats),
    keywordLoop cfg filter env fuel brand pMin pMax keywords acc w = Done s w' ->
    exists t deals,
      s = addStats acc t
      /\ length deals = kept t
      /\ outbox w' = outbox w ++ map Telegram.dealRequest deals
      /\ posts w' = (posts w + kept t)%nat
      /\ storeGrows (sent t) w w'.
Proof.
  induction keywords as [|keyword rest IH]; intros acc w w' s H; simpl in H.
  - apply ret_Done in H as [<- <-]. exists noStats, []. simpl. rewrite app_nil_r.
    split; [destruct acc; unfold addStats; simpl; f_equal; lia|].
    split; [reflexivity|]. split; [reflexivity|]. split; [lia|apply storeGrows_refl].
  - apply bind_Done in H as (s1 & w1 & Hkw & H).
    destruct (scanKeyword_deals _ _ _ _ _ _ _ Hkw) as (deals1 & Ho & Hp & Hl & _ & _ & _ & Hg).
    destruct (IH _ _ _ _ H) as (t & deals2 & -> & Hl' & Ho' & Hp' & Hg').
    exists (addStats s1 t), (deals1 ++ deals2). split; [apply addStats_assoc|].
    split; [rewrite length_app; simpl; lia|].
    split; [rewrite Ho', Ho, map_app, app_assoc; reflexivity|].
    split; [simpl; lia|]. simpl. eapply storeGrows_trans; eassumption.
Qed.

Lemma brandLoop_adds (brands : list Config.Brand) :
  forall (totals : Stats) (w w' : World) (s : Stats),
    brandLoop cfg filter env fuel brands totals w = Done s w' ->
    exists t deals,
      s = addStats totals t
      /\ length deals = kept t
      /\ outbox w' = outbox w ++ map Telegram.dealRequest deals
      /\ posts w' = (posts w + kept t)%nat
      /\ storeGrows (sent t) w w'.
Proof.
  induction brands as [|brand rest IH]; intros totals w w' s H; simpl in H.
  - apply ret_Done in H as [<- <-]. exists noStats, []. simpl. rewrite app_nil_r.
    split; [destruct totals; unfold addStats; simpl; f_equal; lia|].
    split; [reflexivity|]. split; [reflexivity|]. split; [lia|apply storeGrows_refl].
  - apply bind_Done in H as (s1 & w1 & Hbrand & H).
    unfold scanBrand in Hbrand. destruct (Config.GetPriceRange cfg brand) as [pMin pMax].
    destruct (keywordLoop_adds _ _ _ _ _ _ _ _ Hbrand) as (t1 & deals1 & Hs1 & Hl1 & Ho1 & Hp1 & Hg1).
    rewrite addStats_noStats in Hs1. subst t1.
    apply bind_Done in H as (r & w2 & Hrand & H).
    pose proof (quiet_randIntn _ _ _ _ Hrand) as Hq2.
    apply bind_Done in H as (u & w3 & Hsleep & H).
    pose proof (quiet_sleep _ _ _ _ Hsleep) as Hq3.
    destruct (IH _ _ _ _ H) as (t & deals2 & -> & Hl' & Ho' & Hp' & Hg').
    pose proof (quiet_trans _ _ _ Hq2 Hq3) as (Hs & Hob & Hpo).
    exists (addStats s1 t), (deals1 ++ deals2). split; [apply addStats_assoc|].
    split; [rewrite length_app; simpl; lia|].
    split; [rewrite Ho', Hob, Ho1, map_app, app_assoc; reflexivity|].
    split; [simpl; lia|]. simpl. eapply storeGrows_trans; [exact Hg1|].
    unfold storeGrows in *. rewrite Hs in Hg'. exact Hg'.
Qed.

(** A cycle step by step: the brands, then the summary when something was
    new, then the status fields. *)
Lemma runScanCycle_steps (w w' : World) (totals : Stats) :
  runScanCycle cfg filter env fuel w = Done totals w' ->
  exists w1 w2 w3,
    brandLoop cfg filter env fuel (Config.Brands cfg) noStats w1 = Done totals w2
    /\ store w1 = store w /\ outbox w1 = outbox w /\ posts w1 = posts w
    /\ slept w1 = slept w /\ runCount w1 = runCount w
    /\ store w3 = store w2 /\ slept w3 = slept w2
    /\ outbox w3 = outbox w2 ++ (if (0 <? unseen totals)%nat
                                 then [Telegram.sendSummary (found totals) (unseen totals)
                                                            (sent totals)]
                                 else [])
    /\ posts w3 = (posts w2 + (if (0 <? unseen totals)%nat then 1 else 0))%nat
    /\ store w' = store w3 /\ outbox w' = outbox w3 /\ posts w' = posts w3
    /\ slept w' = slept w3
    /\ (runCount w2 = runCount w1 -> runCount w' = S (runCount w))
    /\ lastScanTime w' = Some (clock env (ticks w' - 1))
    /\ (1 <= ticks w')%nat.
Proof.
  unfold runScanCycle. intros H.
  apply bind_Done in H as (start & w1 & Htick1 & H).
  apply bind_Done in H as (t & w2 & Hbrands & H).
  apply bind_Done in H as (finish & w2' & Htick2 & H).
  apply bind_Done in H as (r & w3 & Hsum & H).
  apply bind_Done in H as (now & w4 & Htick3 & H).
  inversion H; subst totals w'. clear H. cbn [store outbox posts slept runCount lastScanTime ticks].
  unfold tick in Htick1, Htick2, Htick3.
  inversion Htick1; subst start w1. inversion Htick2; subst finish w2'.
  inversion Htick3; subst now w4. clear Htick1 Htick2 Htick3.
  cbn [store outbox posts slept runCount lastScanTime ticks] in *.
  eexists _, w2, w3. split; [exact Hbrands|]. cbn [store outbox posts slept runCount].
  assert (Hs : store w3 = store w2 /\ slept w3 = slept w2
               /\ outbox w3 = outbox w2 ++ (if (0 <? unseen t)%nat
                                            then [Telegram.sendSummary (found t) (unseen t) (sent t)]
                                            else [])
               /\ posts w3 = (posts w2 + (if (0 <? unseen t)%nat then 1 else 0))%nat
               /\ runCount w3 = runCount w2).
  { destruct (unseen t) as [|k] eqn:E; simpl in Hsum.
    - apply ret_Done in Hsum as [_ <-]. simpl. rewrite app_nil_r. repeat split; lia.
    - unfold telegram in Hsum. inversion Hsum; subst. simpl. repeat split; lia. }
  destruct Hs as (Hs1 & Hs2 & Hs3 & Hs4 & Hs5).
  repeat (split; [first [reflexivity|assumption]|]).
  split; [intros Hrc; simpl in Hrc; congruence|].
  split; [f_equal; f_equal; f_equal; lia|lia].
Qed.

(** *** Panics *)

Lemma safe_returns {A : Type} (m : M A) : returns m -> safe m.
Proof. intros Hm w msg H. destruct (Hm w) as (a & w' & E). congruence. Qed.

Lemma safe_bind {A B : Type} (m : M A) (k : A -> M B) :
  safe m -> (forall a, safe (k a)) -> safe (bind m k).
Proof.
  intros Hm Hk w msg H. unfold bind in H. destruct (m w) as [a w1|msg1|] eqn:E.
  - exact (Hk a w1 msg H).
  - exact (Hm w msg1 E).
  - discriminate.
Qed.

Lemma safe_filterItems (items : list Mercari.Item) : safe (filterItems filter env fuel items).
Proof.
  intros w msg H. unfold filterItems in H. destruct (Mercari.FilterItems _ _ _ _); discriminate.
Qed.

Lemma safe_scanKeyword (brand : Config.Brand) (pMin pMax : Z) (keyword : string) :
  0 <= Config.MaxDealsPerBrand cfg ->
  safe (scanKeyword cfg filter env fuel brand pMin pMax keyword).
Proof.
  intros Hcap. unfold scanKeyword.
  apply safe_bind; [apply safe_returns, returns_searchWithRetry|].
  intros [err|items]; [apply safe_returns, returns_ret|].
  apply safe_bind; [apply safe_returns, returns_ageFilter|]. intros freshItems.
  apply safe_bind; [apply safe_returns, returns_dedupFilter|].
  intros [|u us]; [apply safe_returns, returns_ret|].
  apply safe_bind; [apply safe_returns, returns_capDeals; exact Hcap|]. intros capped.
  apply safe_bind; [apply safe_filterItems|]. intros keptItems.
  apply safe_bind; [apply safe_returns, returns_notifyLoop|]. intros n.
  apply safe_returns, returns_ret.
Qed.

Lemma safe_runScanCycle :
  0 <= Config.MaxDealsPerBrand cfg -> safe (runScanCycle cfg filter env fuel).
Proof.
  intros Hcap.
  assert (Hkws : forall brand pMin pMax keywords acc,
             safe (keywordLoop cfg filter env fuel brand pMin pMax keywords acc)).
  { intros brand pMin pMax keywords.
    induction keywords as [|keyword rest IH]; intros acc; simpl; [apply safe_returns, returns_ret|].
    apply safe_bind; [now apply safe_scanKeyword|]. intros s. apply IH. }
  assert (Hbrands : forall brands totals, safe (brandLoop cfg filter env fuel brands totals)).
  { intros brands. induction brands as [|brand rest IH]; intros totals; simpl;
      [apply safe_returns, returns_ret|].
    apply safe_bind.
    - unfold scanBrand. destruct (Config.GetPriceRange cfg brand). apply Hkws.
    - intros s. apply safe_bind; [apply safe_returns, returns_randIntn|]. intros r.
      apply safe_bind; [apply safe_returns, returns_sleep|]. intros _. apply IH. }
  unfold runScanCycle.
  apply safe_bind; [apply safe_returns, returns_tick|]. intros start.
  apply safe_bind; [apply Hbrands|]. intros totals.
  apply safe_bind; [apply safe_returns, returns_tick|]. intros finish.
  apply safe_bind.
  - destruct (0 <? unseen totals)%nat; [|apply safe_returns, returns_ret].
    unfold SendScanSummary. destruct (unseen totals);
      [apply safe_returns, returns_ret|apply safe_returns, returns_telegram].
  - intros _. apply safe_bind; [apply safe_returns, returns_tick|].
    intros now w msg H. discriminate.
Qed.

End CycleInvariants.

Section CycleInvariantResults.

Import Go Bot Scenario.

(** The notification loop, request by request.  It makes one Telegram
    request per kept listing, in the order of the list, each carrying the
    listing's name, price, first image and URL and the brand's name; the
    count it returns is the number of requests answered ok; it sleeps 200
    milliseconds after each of those and after no other; and on a store
    whose statements succeed every listing whose request was answered ok
    reads as seen afterwards. *)
Theorem notifyLoop_accounting (env : Env) (brand : Config.Brand)
        (keptItems : list Mercari.Item) (w w' : World) (n : nat) :
  notifyLoop env brand keptItems w = Done n w' ->
  exists deals,
    Forall2 (dealOf brand) keptItems deals
    /\ outbox w' = outbox w ++ map Telegram.dealRequest deals
    /\ posts w' = (posts w + length keptItems)%nat
    /\ n = deliveries env (posts w) (map Telegram.dealRequest deals)
    /\ slept w' = slept w ++ replicate n (200 * Millisecond)
    /\ (Store.fault (store w) = None ->
        forall i item deal,
          keptItems !! i = Some item -> deals !! i = Some deal ->
          delivered env (posts w + i) (Telegram.dealRequest deal) = true ->
          Store.HasSeen (store w') (Mercari.ID item) = true).
Proof.
  intros H. destruct (notifyLoop_deals env brand keptItems w w' n H)
    as (deals & Hd & Ho & Hp & Hn & Hsl & _ & Hm).
  exists deals. auto 10.
Qed.

Lemma notifyLoop_accounting_witness :
  exists deals,
    Forall2 (dealOf gucci) [bag; wallet] deals
    /\ outbox afterNotify = outbox start ++ map Telegram.dealRequest deals
    /\ posts afterNotify = (posts start + length [bag; wallet])%nat
    /\ 1%nat = deliveries allUp (posts start) (map Telegram.dealRequest deals)
    /\ slept afterNotify = slept start ++ replicate 1 (200 * Millisecond)
    /\ (Store.fault (store start) = None ->
        forall i item deal,
          [bag; wallet] !! i = Some item -> deals !! i = Some deal ->
          delivered allUp (posts start + i) (Telegram.dealRequest deal) = true ->
          Store.HasSeen (store afterNotify) (Mercari.ID item) = true).
Proof.
  apply (notifyLoop_accounting allUp gucci [bag; wallet] start afterNotify 1).
  vm_compute. reflexivity.
Defined.



(** A cycle never forgets.  Over a scan cycle the store keeps its state of
    health and every row it had, so that an id that read as seen before
    reads as seen after; it gains at most one row per deal sent, and Count
    moves accordingly. *)
Theorem cycle_store_grows (cfg : Config.Config) (filter : Mercari.AIFilter)
        (env : Env) (fuel : nat) (w w' : World) (totals : Stats) :
  runScanCycle cfg filter env fuel w = Done totals w' ->
  Store.fault (store w') = Store.fault (store w)
  /\ Store.seen_items (store w) ⊆ Store.seen_items (store w')
  /\ (forall itemID, Store.HasSeen (store w) itemID = true ->
                     Store.HasSeen (store w') itemID = true)
  /\ Store.Count (store w) <= Store.Count (store w')
     <= Store.Count (store w) + Z.of_nat (sent totals).
Proof.
  intros H.
  destruct (runScanCycle_steps cfg filter env fuel w w' totals H)
    as (w1 & w2 & w3 & Hb & Hs1 & _ & _ & _ & _ & Hs3 & _ & _ & _ & Hs' & _).
  destruct (brandLoop_adds cfg filter env fuel _ _ _ _ _ Hb) as (t & deals & Ht & _ & _ & _ & Hg).
  rewrite addStats_noStats in Ht. subst t.
  destruct Hg as (Hf & Hsub & Hsize). rewrite Hs1 in *. rewrite Hs', Hs3.
  split; [exact Hf|]. split; [exact Hsub|]. split.
  - intros itemID. now apply HasSeen_mono.
  - unfold Store.Count. rewrite Hf. destruct (Store.fault (store w)); [lia|].
    pose proof (map_subseteq_size _ _ Hsub). lia.
Qed.

Lemma cycle_store_grows_witness :
  Store.fault (store afterFirstCycle) = Store.fault (store start)
  /\ Store.seen_items (store start) ⊆ Store.seen_items (store afterFirstCycle)
  /\ (forall itemID, Store.HasSeen (store start) itemID = true ->
                     Store.HasSeen (store afterFirstCycle) itemID = true)
  /\ Store.Count (store start) <= Store.Count (store afterFirstCycle)
     <= Store.Count (store start)
        + Z.of_nat (sent {| found := 3; fresh := 2; unseen := 2; kept := 2; sent := 1 |}).
Proof.
  apply (cycle_store_grows Scenario.cfg clip allUp 1 start afterFirstCycle
           {| found := 3; fresh := 2; unseen := 2; kept := 2; sent := 1 |}).
  vm_compute. reflexivity.
Defined.

(** The Telegram traffic of a cycle.  A cycle makes one request per kept
    listing and then, exactly when at least one listing was new, one
    summary that carries the found, new and sent totals; a cycle in which
    nothing was new sends nothing at all. *)
Theorem cycle_requests (cfg : Config.Config) (filter : Mercari.AIFilter)
        (env : Env) (fuel : nat) (w w' : World) (totals : Stats) :
  runScanCycle cfg filter env fuel w = Done totals w' ->
  exists deals,
    length deals = kept totals
    /\ outbox w'
       = outbox w ++ map Telegram.dealRequest deals
         ++ (if (0 <? unseen totals)%nat
             then [Telegram.sendSummary (found totals) (unseen totals) (sent totals)]
             else [])
    /\ posts w' = (posts w + kept totals + (if (0 <? unseen totals)%nat then 1 else 0))%nat
    /\ (unseen totals = 0%nat -> outbox w' = outbox w /\ posts w' = posts w).
Proof.
  intros H.
  destruct (runScanCycle_steps cfg filter env fuel w w' totals H)
    as (w1 & w2 & w3 & Hb & _ & Ho1 & Hp1 & _ & _ & _ & _ & Ho3 & Hp3 & _ & Ho' & Hp' & _).
  pose proof (brandLoop_monotone cfg filter env fuel _ _ _ _ _ (monotone_noStats) Hb)
    as (_ & Hku & _).
  destruct (brandLoop_adds cfg filter env fuel _ _ _ _ _ Hb) as (t & deals & Ht & Hl & Ho & Hp & _).
  rewrite addStats_noStats in Ht. subst t.
  assert (Hout : outbox w'
                 = outbox w ++ map Telegram.dealRequest deals
                   ++ (if (0 <? unseen totals)%nat
                       then [Telegram.sendSummary (found totals) (unseen totals) (sent totals)]
                       else [])).
  { rewrite Ho', Ho3, Ho, Ho1, app_assoc. reflexivity. }
  assert (Hposts : posts w'
                   = (posts w + kept totals + (if (0 <? unseen totals)%nat then 1 else 0))%nat).
  { rewrite Hp', Hp3, Hp, Hp1. reflexivity. }
  exists deals. split; [exact Hl|]. split; [exact Hout|]. split; [exact Hposts|].
  intros Hz. rewrite Hout, Hposts, Hz. simpl.
  assert (kept totals = 0%nat) as Hk by lia. rewrite Hk in *.
  destruct deals; [|discriminate]. simpl. rewrite app_nil_r. split; [reflexivity|lia].
Qed.

Lemma cycle_requests_witness :
  let totals := {| found := 3; fresh := 2; unseen := 2; kept := 2; sent := 1 |} in
  exists deals,
    length deals = kept totals
    /\ outbox afterFirstCycle
       = outbox start ++ map Telegram.dealRequest deals
         ++ (if (0 <? unseen totals)%nat
             then [Telegram.sendSummary (found totals) (unseen totals) (sent totals)]
             else [])
    /\ posts afterFirstCycle
       = (posts start + kept totals + (if (0 <? unseen totals)%nat then 1 else 0))%nat
    /\ (unseen totals = 0%nat -> outbox afterFirstCycle = outbox start
                                 /\ posts afterFirstCycle = posts start).
Proof.
  apply (cycle_requests Scenario.cfg clip allUp 1 start afterFirstCycle
           {| found := 3; fresh := 2; unseen := 2; kept := 2; sent := 1 |}).
  vm_compute. reflexivity.
Defined.

(** The pauses of a cycle.  Every sleep that runScanCycle, scanBrand and
    searchWithRetry take lasts at least 200 milliseconds and less than
    five seconds: 200 milliseconds after a deal sent, one, two or four
    seconds plus a jitter under one second before a retry, and from 500 to
    under 2000 milliseconds after a brand; no wait is negative or wraps
    around. *)
Theorem cycle_sleeps_short (cfg : Config.Config) (filter : Mercari.AIFilter)
        (env : Env) (fuel : nat) (w w' : World) (totals : Stats) :
  runScanCycle cfg filter env fuel w = Done totals w' ->
  (exists ds, slept w' = slept w ++ ds
              /\ Forall (fun d => 200 * Millisecond <= d < 5 * Second) ds)
  /\ (forall raw,
        wrap64 (wrap64 (500 + Intn raw 1500) * Millisecond) = (500 + raw mod 1500) * Millisecond
        /\ 500 * Millisecond <= (500 + raw mod 1500) * Millisecond < 2000 * Millisecond).
Proof.
  intros H. split; [|exact brand_pause].
  destruct (runScanCycle_steps cfg filter env fuel w w' totals H)
    as (w1 & w2 & w3 & Hb & _ & _ & _ & Hsl1 & _ & _ & Hsl3 & _ & _ & _ & _ & _ & Hsl' & _).
  destruct (shortSleeps_brandLoop cfg filter env fuel _ _ _ _ _ Hb) as (ds & Hds & Hall).
  exists ds. rewrite Hsl', Hsl3, Hds, Hsl1. auto.
Qed.

Lemma cycle_sleeps_short_witness :
  (exists ds, slept afterFirstCycle = slept start ++ ds
              /\ Forall (fun d => 200 * Millisecond <= d < 5 * Second) ds)
  /\ (forall raw,
        wrap64 (wrap64 (500 + Intn raw 1500) * Millisecond) = (500 + raw mod 1500) * Millisecond
        /\ 500 * Millisecond <= (500 + raw mod 1500) * Millisecond < 2000 * Millisecond).
Proof.
  apply (cycle_sleeps_short Scenario.cfg clip allUp 1 start afterFirstCycle
           {| found := 3; fresh := 2; unseen := 2; kept := 2; sent := 1 |}).
  vm_compute. reflexivity.
Defined.

End CycleInvariantResults.

(** ** The configuration *)

Section ConfigResults.

Import Go Bot Scenario.




(** What LoadConfig refuses: a file that cannot be read or decoded, and a
    config without bot token, chat id or brand, each with its own error. *)
Example LoadConfig_refuses :
  let noToken :=
    Config.Decoded {| Config.Telegram := {| Config.BotToken := ""; Config.ChatID := "1" |};
                      Config.HuggingFace := {| Config.APIKey := ""; Config.Model := "" |};
                      Config.Scan := Scenario.cfg |} in
  Config.LoadConfig "config.json" (Config.Unreadable (errorString "no such file"))
  = inl (wrapError "cannot read config file config.json" (errorString "no such file"))
  /\ Config.LoadConfig "config.json" (Config.Malformed (errorString "unexpected end of JSON input"))
     = inl (wrapError "invalid config JSON" (errorString "unexpected end of JSON input"))
  /\ Config.LoadConfig "config.json" noToken
     = inl (errorString "telegram.bot_token is required").
Proof. repeat split. Qed.

(** A cycle on a loaded config never panics.  The only slice expression
    of a cycle that can be out of range is unseen[:MaxDealsPerBrand], and
    LoadConfig makes the cap positive; so with any filter and whatever the
    outside does, runScanCycle does not panic, and it completes when the
    filter is off or no first reply of the classifier is the loading
    signal. *)
Theorem loaded_config_never_panics (path : string) (file : Config.ConfigFile)
        (settings : Config.Settings) (filter : Mercari.AIFilter) (env : Env) (fuel : nat) :
  Config.LoadConfig path file = inr settings ->
  (forall w msg, runScanCycle (Config.Scan settings) filter env fuel w <> Panicked msg)
  /\ (Mercari.enabled filter = false
      \/ ((1 <= fuel)%nat
          /\ forall n i req, Mercari.loading (clipNet env n i req 0%nat) = false) ->
      forall w, exists totals w',
        runScanCycle (Config.Scan settings) filter env fuel w = Done totals w').
Proof.
  intros H.
  assert (Hcap : 0 <= Config.MaxDealsPerBrand (Config.Scan settings)).
  { unfold Config.LoadConfig in H. destruct file as [err|err|c]; try discriminate.
    cbv zeta in H. cbn [Config.Telegram Config.Scan] in H.
    destruct (String.eqb _ ""); [discriminate|].
    destruct (String.eqb _ ""); [discriminate|].
    destruct (_ =? 0)%nat; [discriminate|].
    inversion H; subst settings. cbn -[Z.leb].
    destruct (Z.leb_spec (Config.MaxDealsPerBrand (Config.Scan c)) 0); lia. }
  split.
  - apply safe_runScanCycle. exact Hcap.
  - intros Hfilt. apply runScanCycle_returns; assumption.
Qed.

Lemma loaded_config_never_panics_witness :
  (forall w msg,
      runScanCycle (Config.Scan minimalSettings) passthrough allUp 1 w <> Panicked msg)
  /\ (Mercari.enabled passthrough = false
      \/ ((1 <= 1)%nat
          /\ forall n i req, Mercari.loading (clipNet allUp n i req 0%nat) = false) ->
      forall w, exists totals w',
        runScanCycle (Config.Scan minimalSettings) passthrough allUp 1 w = Done totals w').
Proof.
  apply (loaded_config_never_panics "config.json" minimalFile minimalSettings passthrough allUp 1).
  reflexivity.
Defined.

(** Without LoadConfig's default a negative cap does make the cycle panic
    as soon as a listing is new. *)
Example negative_cap_panics :
  let cfg := {| Config.Brands := [gucci]; Config.PriceMin := 3000; Config.PriceMax := 15000;
                Config.ScanIntervalMin := 10; Config.MaxAgeMinutes := 180;
                Config.MaxDealsPerBrand := -1; Config.DefaultCategories := [1; 2];
                Config.EnableAIFilter := false |} in
  runScanCycle cfg passthrough allUp 1 start = Panicked "slice bounds out of range".
Proof. vm_compute. reflexivity. Qed.

End ConfigResults.

(** ** The token generator's helpers and the search client's errors *)

Section ScannerFacts.

Import Go Mercari.

Lemma length_copy {A : Type} (dst src : list A) (off : nat) :
  (off <= length dst)%nat -> length (copy dst off src) = length dst.
Proof.
  intros H. unfold copy. rewrite !length_app, !length_take, length_drop. lia.
Qed.

Lemma bigEndian_app (a b : list Z) :
  bigEndian (a ++ b) = bigEndian a * 256 ^ Z.of_nat (length b) + bigEndian b.
Proof.
  unfold bigEndian. rewrite fold_left_app. generalize (fold_left (fun acc x => acc * 256 + x) a 0).
  induction b as [|x b IH]; intros z; simpl fold_left.
  - simpl. lia.
  - rewrite IH, (IH (0 * 256 + x)). cbn [length]. rewrite Nat2Z.inj_succ, Z.pow_succ_r by lia. lia.
Qed.

Lemma bigEndian_zeros (n : nat) : bigEndian (replicate n 0) = 0.
Proof.
  unfold bigEndian. induction n as [|n IH]; [reflexivity|]. simpl. exact IH.
Qed.

(** A property of bytes that holds of each of the 256 holds of all. *)
Lemma byte_forall (P : Z -> bool) :
  forallb P (map Z.of_nat (seq 0 256)) = true ->
  forall x, 0 <= x < 256 -> P x = true.
Proof.
  intros H x Hx. rewrite forallb_forall in H. apply H.
  apply in_map_iff. exists (Z.to_nat x). split; [lia|]. apply in_seq. lia.
Qed.

Lemma hexBytes_plain (x : Z) :
  0 <= x < 256 ->
  isHex (hexDigit (Z.shiftr x 4)) = true /\ isHex (hexDigit (Z.land x 15)) = true.
Proof.
  intros Hx. apply andb_true_iff.
  apply (byte_forall (fun x => isHex (hexDigit (Z.shiftr x 4)) && isHex (hexDigit (Z.land x 15))));
    [vm_compute; reflexivity|exact Hx].
Qed.

Lemma hexBytes_version (x : Z) :
  0 <= x < 256 ->
  hexDigit (Z.shiftr (Z.lor (Z.land x 15) 64) 4) = "4"%char
  /\ isHex (hexDigit (Z.land (Z.lor (Z.land x 15) 64) 15)) = true.
Proof.
  intros Hx.
  pose proof (byte_forall
                (fun x => Ascii.eqb (hexDigit (Z.shiftr (Z.lor (Z.land x 15) 64) 4)) "4"
                          && isHex (hexDigit (Z.land (Z.lor (Z.land x 15) 64) 15)))
                ltac:(vm_compute; reflexivity) x Hx) as H.
  apply andb_true_iff in H as [H1 H2]. apply Ascii.eqb_eq in H1. auto.
Qed.

Lemma hexBytes_variant (x : Z) :
  0 <= x < 256 ->
  hexDigit (Z.shiftr (Z.lor (Z.land x 63) 128) 4) ∈ ["8"; "9"; "a"; "b"]%char
  /\ isHex (hexDigit (Z.land (Z.lor (Z.land x 63) 128) 15)) = true.
Proof.
  intros Hx.
  pose proof (byte_forall
                (fun x => existsb (Ascii.eqb (hexDigit (Z.shiftr (Z.lor (Z.land x 63) 128) 4)))
                                  ["8"; "9"; "a"; "b"]%char
                          && isHex (hexDigit (Z.land (Z.lor (Z.land x 63) 128) 15)))
                ltac:(vm_compute; reflexivity) x Hx) as H.
  apply andb_true_iff in H as [H1 H2]. split; [|exact H2].
  apply existsb_exists in H1 as (c & Hin & Hc). apply Ascii.eqb_eq in Hc. subst c.
  now apply list_elem_of_In.
Qed.

Lemma copy_zero_bytes (n : nat) (rnd : list Z) :
  Forall (fun x => 0 <= x < 256) rnd ->
  length (copy (replicate n 0) 0 rnd) = n
  /\ Forall (fun x => 0 <= x < 256) (copy (replicate n 0) 0 rnd).
Proof.
  intros Hr. split; [rewrite length_copy; [apply length_replicate|lia]|].
  unfold copy. simpl. apply Forall_app. split.
  - apply Forall_take. exact Hr.
  - apply Forall_drop. apply Forall_replicate. lia.
Qed.

(** *** truncate *)

Lemma length_string_of_list_ascii (l : list ascii) :
  String.length (string_of_list_ascii l) = length l.
Proof. induction l as [|c l IH]; simpl; auto. Qed.

Lemma length_append (a b : string) :
  String.length (a +:+ b) = (String.length a + String.length b)%nat.
Proof. induction a as [|c a IH]; [reflexivity|]. rewrite append_String. simpl. now rewrite IH. Qed.

Lemma inRange_printable (lo hi : nat) (c : ascii) :
  (32 <= lo)%nat -> inRange lo hi c = true -> printable c = true.
Proof.
  unfold inRange, printable. intros Hlo H. apply andb_true_iff in H as [H _].
  apply Nat.leb_le in H. destruct (Nat.ltb_spec (nat_of_ascii c) 32); [lia|reflexivity].
Qed.

Lemma printable_high (c : ascii) : inRange 0 127 c = false -> printable c = true.
Proof.
  unfold inRange, printable. simpl. intros H. apply Nat.leb_gt in H.
  destruct (Nat.ltb_spec (nat_of_ascii c) 32); [lia|reflexivity].
Qed.

(** Case analysis on the tests and the lookahead of cleanRunes and
    ValidString. *)
Ltac rune_cases :=
  repeat match goal with
         | |- context [if ?b then _ else _] => destruct b eqn:?
         | |- context [match ?l with [] => _ | _ :: _ => _ end] => destruct l
         | H : context [if ?b then _ else _] |- _ => destruct b eqn:?
         | H : context [match ?l with [] => _ | _ :: _ => _ end] |- _ => destruct l
         end.

(** The cleaned text holds no control character to drop. *)
Lemma cleanRunes_printable (cs : list ascii) :
  Forall (fun c => printable c = true) (cleanRunes cs).
Proof.
  remember (length cs) as n eqn:Hn. revert cs Hn.
  induction n as [n IH] using lt_wf_ind. intros cs Hn. subst n.
  assert (Hrec : forall l, (length l < length cs)%nat ->
                           Forall (fun c => printable c = true) (cleanRunes l)).
  { intros l Hl. exact (IH _ Hl l eq_refl). }
  assert (Herr : forall l, Forall (fun c => printable c = true) l ->
                           Forall (fun c => printable c = true) (runeError ++ l)).
  { intros l Hl. apply Forall_app. split; [repeat constructor|exact Hl]. }
  clear IH. destruct cs as [|c rest]; [constructor|].
  cbn [cleanRunes]. cbn [length] in Hrec.
  rune_cases;
    repeat match goal with
           | H : (_ && _) = true |- _ => apply andb_true_iff in H as [? ?]
           end;
    try apply Herr;
    repeat (apply Forall_cons; split);
    try (apply Hrec; cbn [length]; lia);
    try assumption;
    try reflexivity;
    try (apply printable_high; assumption);
    try (eapply inRange_printable; [|eassumption]; rune_cases; lia).
Qed.

(** On a well-formed text without such a character it changes nothing. *)
Lemma cleanRunes_valid (cs : list ascii) :
  ValidString cs = true -> Forall (fun c => printable c = true) cs -> cleanRunes cs = cs.
Proof.
  remember (length cs) as n eqn:Hn. revert cs Hn.
  induction n as [n IH] using lt_wf_ind. intros cs Hn Hv Hp. subst n.
  assert (Hrec : forall l, (length l < length cs)%nat -> ValidString l = true ->
                           Forall (fun c => printable c = true) l -> cleanRunes l = l).
  { intros l Hl. exact (IH _ Hl l eq_refl). }
  clear IH. destruct cs as [|c rest]; [reflexivity|].
  cbn [cleanRunes ValidString] in *. cbn [length] in Hrec.
  repeat match goal with
         | H : Forall _ (_ :: _) |- _ => apply Forall_cons in H as [? ?]
         end.
  destruct (inRange 0 127 c).
  { replace (printable c) with true by (symmetry; assumption).
    f_equal. apply Hrec; [lia|assumption..]. }
  destruct (inRange 194 223 c).
  { destruct rest as [|c1 rest1]; [discriminate|].
    apply andb_true_iff in Hv as [H1 Hv]. rewrite H1.
    repeat match goal with
           | H : Forall _ (_ :: _) |- _ => apply Forall_cons in H as [? ?]
           end.
    do 2 f_equal. apply Hrec; [cbn [length]; lia|assumption..]. }
  destruct (inRange 224 239 c).
  { destruct rest as [|c1 [|c2 rest2]]; try discriminate.
    apply andb_true_iff in Hv as [H12 Hv]. rewrite H12.
    repeat match goal with
           | H : Forall _ (_ :: _) |- _ => apply Forall_cons in H as [? ?]
           end.
    do 3 f_equal. apply Hrec; [cbn [length]; lia|assumption..]. }
  destruct (inRange 240 244 c); [|discriminate].
  destruct rest as [|c1 [|c2 [|c3 rest3]]]; try discriminate.
  apply andb_true_iff in Hv as [H123 Hv]. rewrite H123.
  repeat match goal with
         | H : Forall _ (_ :: _) |- _ => apply Forall_cons in H as [? ?]
         end.
  do 4 f_equal. apply Hrec; [cbn [length]; lia|assumption..].
Qed.

Lemma truncate_facts (s : string) (maxLen : nat) :
  (String.length (truncate s maxLen) <= maxLen + 3)%nat
  /\ Forall (fun c => printable c = true) (list_ascii_of_string (truncate s maxLen))
  /\ (ValidString (list_ascii_of_string s) = true ->
      Forall (fun c => printable c = true) (list_ascii_of_string s) ->
      (String.length s <= maxLen)%nat -> truncate s maxLen = s).
Proof.
  unfold truncate.
  set (cleaned := cleanRunes (list_ascii_of_string s)).
  assert (Hclean : Forall (fun c => printable c = true) cleaned) by apply cleanRunes_printable.
  destruct (Nat.ltb_spec maxLen (length cleaned)) as [Hlt|Hge].
  - split; [|split].
    + rewrite length_append, length_string_of_list_ascii, length_take. simpl. lia.
    + rewrite list_ascii_of_string_app, list_ascii_of_string_of_list_ascii.
      apply Forall_app. split; [now apply Forall_take|repeat constructor].
    + intros Hv Hs Hlen. exfalso. unfold cleaned in Hlt.
      rewrite (cleanRunes_valid _ Hv Hs) in Hlt.
      rewrite length_list_ascii_of_string in Hlt. lia.
  - split; [|split].
    + rewrite length_string_of_list_ascii. lia.
    + now rewrite list_ascii_of_string_of_list_ascii.
    + intros Hv Hs _. unfold cleaned. rewrite (cleanRunes_valid _ Hv Hs).
      apply string_of_list_ascii_of_string.
Qed.

End ScannerFacts.

Section ScannerResults.

Import Go Mercari.

(** padTo32 yields exactly 32 bytes.  A slice of at most 32 bytes is
    padded with zeros on the left, so that it spells the same big-endian
    number; a longer one keeps its first 32 bytes.  The signature of the
    token, r and s padded and joined, is therefore always 64 bytes. *)
Theorem padTo32_fixed_width (b : list Z) :
  length (padTo32 b) = 32%nat
  /\ ((length b <= 32)%nat ->
      padTo32 b = replicate (32 - length b) 0 ++ b
      /\ bigEndian (padTo32 b) = bigEndian b)
  /\ ((32 <= length b)%nat -> padTo32 b = take 32 b)
  /\ (forall r s, length (padTo32 r ++ padTo32 s) = 64%nat).
Proof.
  assert (Hlen : forall x, length (padTo32 x) = 32%nat).
  { intros x. unfold padTo32. destruct (Nat.leb_spec 32 (length x)).
    - unfold slice. rewrite length_take, length_drop. lia.
    - rewrite length_copy; rewrite length_replicate; lia. }
  split; [apply Hlen|]. split; [|split].
  - intros Hle.
    assert (E : padTo32 b = replicate (32 - length b) 0 ++ b).
    { unfold padTo32. destruct (Nat.leb_spec 32 (length b)) as [Hge|Hlt].
      - assert (length b = 32%nat) as Hb by lia. rewrite Hb. unfold slice. simpl.
        rewrite <- Hb. now rewrite firstn_all.
      - unfold copy. rewrite length_replicate, take_replicate.
        rewrite Nat.min_l by lia.
        rewrite take_ge by lia. rewrite drop_ge by (rewrite length_replicate; lia).
        now rewrite app_nil_r. }
    split; [exact E|]. rewrite E, bigEndian_app, bigEndian_zeros. lia.
  - intros Hge. unfold padTo32. apply Nat.leb_le in Hge. rewrite Hge. reflexivity.
  - intros r s. rewrite length_app, !Hlen. reflexivity.
Qed.

(** generateUUID always yields the textual form of a version 4 UUID:
    five groups of 8, 4, 4, 4 and 12 lower-case hexadecimal digits joined
    by hyphens, 36 bytes in all, the third group starting with 4 and the
    fourth with 8, 9, a or b, whatever bytes rand.Read delivered. *)
Theorem generateUUID_v4 (rnd : list Z) :
  Forall (fun x => 0 <= x < 256) rnd ->
  exists g1 g2 g3 g4 g5 : string,
    generateUUID rnd = g1 +:+ "-" +:+ g2 +:+ "-" +:+ g3 +:+ "-" +:+ g4 +:+ "-" +:+ g5
    /\ String.length g1 = 8%nat /\ String.length g2 = 4%nat /\ String.length g3 = 4%nat
    /\ String.length g4 = 4%nat /\ String.length g5 = 12%nat
    /\ Forall (fun c => isHex c = true)
              (list_ascii_of_string (g1 +:+ g2 +:+ g3 +:+ g4 +:+ g5))
    /\ String.get 0 g3 = Some "4"%char
    /\ (exists c, String.get 0 g4 = Some c /\ c ∈ ["8"; "9"; "a"; "b"]%char)
    /\ String.length (generateUUID rnd) = 36%nat.
Proof.
  intros Hr. unfold generateUUID.
  destruct (copy_zero_bytes 16 rnd Hr) as [Hlen Hall].
  set (b := copy (replicate 16 0) 0 rnd) in *. clearbody b.
  do 16 (destruct b as [|? b]; [discriminate Hlen|]). destruct b; [|discriminate Hlen].
  clear Hlen. repeat match goal with H : Forall _ (_ :: _) |- _ => apply Forall_cons in H as [? H] end.
  cbv zeta. cbn [lookup list_lookup default list_insert insert slice drop take Nat.sub hexBytes].
  do 5 eexists. split; [reflexivity|]. cbn [String.length].
  repeat (split; [reflexivity|]).
  split.
  { cbv [String.append list_ascii_of_string].
    repeat match goal with
    | |- Forall _ (hexDigit (Z.shiftr (Z.lor (Z.land ?x 15) 64) 4) :: _ :: _) =>
        destruct (hexBytes_version x ltac:(assumption)) as [-> ?];
        apply Forall_cons; split; [reflexivity|]; apply Forall_cons; split; [assumption|]
    | |- Forall _ (hexDigit (Z.shiftr (Z.lor (Z.land ?x 63) 128) 4) :: _ :: _) =>
        let H1 := fresh in let H2 := fresh in
        destruct (hexBytes_variant x ltac:(assumption)) as [H1 H2];
        apply Forall_cons; split;
        [ rewrite !elem_of_cons in H1; destruct H1 as [->|[->|[->|[->|H1]]]];
          [reflexivity..|inversion H1]
        | apply Forall_cons; split; [assumption|] ]
    | |- Forall _ (hexDigit (Z.shiftr ?x 4) :: _ :: _) =>
        let H1 := fresh in let H2 := fresh in
        destruct (hexBytes_plain x ltac:(assumption)) as [H1 H2];
        apply Forall_cons; split; [assumption|]; apply Forall_cons; split; [assumption|]
    end.
    constructor. }
  split.
  { cbn [String.get]. f_equal. now apply hexBytes_version. }
  split.
  { eexists. cbn [String.get]. split; [reflexivity|]. now apply hexBytes_variant. }
  cbn. reflexivity.
Qed.

Lemma generateUUID_v4_witness :
  exists g1 g2 g3 g4 g5 : string,
    generateUUID [255; 1; 2; 3; 4; 5; 255; 7; 255; 9; 10; 11; 12; 13; 14; 15]
    = g1 +:+ "-" +:+ g2 +:+ "-" +:+ g3 +:+ "-" +:+ g4 +:+ "-" +:+ g5
    /\ String.length g1 = 8%nat /\ String.length g2 = 4%nat /\ String.length g3 = 4%nat
    /\ String.length g4 = 4%nat /\ String.length g5 = 12%nat
    /\ Forall (fun c => isHex c = true)
              (list_ascii_of_string (g1 +:+ g2 +:+ g3 +:+ g4 +:+ g5))
    /\ String.get 0 g3 = Some "4"%char
    /\ (exists c, String.get 0 g4 = Some c /\ c ∈ ["8"; "9"; "a"; "b"]%char)
    /\ String.length
         (generateUUID [255; 1; 2; 3; 4; 5; 255; 7; 255; 9; 10; 11; 12; 13; 14; 15]) = 36%nat.
Proof.
  apply (generateUUID_v4 [255; 1; 2; 3; 4; 5; 255; 7; 255; 9; 10; 11; 12; 13; 14; 15]).
  repeat (apply Forall_cons; split; [lia|]). constructor.
Defined.

(** The identifiers of the witness and of a buffer left at zero. *)
Example generateUUID_runs :
  generateUUID [255; 1; 2; 3; 4; 5; 255; 7; 255; 9; 10; 11; 12; 13; 14; 15]
  = "ff010203-0405-4f07-bf09-0a0b0c0d0e0f"
  /\ generateUUID [] = "00000000-0000-4000-8000-000000000000".
Proof. vm_compute. repeat split. Qed.

(** Search on a reply whose status is not 200.  The call fails whatever
    the body holds, even a body that would decode; the error names the
    status and quotes the body through truncate: at most 300 bytes of it
    and three dots, without control bytes other than tab, line feed and
    carriage return, and the whole body when it is clean and at most 300
    bytes long.  (The body is valid UTF-8, where dropping bytes below 32
    and dropping runes below 32 are the same.) *)
Theorem Search_non200_error (status : Z) (body : string) (decoded : error + searchAPIResponse) :
  status <> 200 ->
  ValidString (list_ascii_of_string body) = true ->
  Search (SearchReceived status body decoded)
  = inl (errorString ("mercari API returned " +:+ pretty status +:+ ": " +:+ truncate body 300))
  /\ (String.length (truncate body 300) <= 303)%nat
  /\ Forall (fun c => printable c = true) (list_ascii_of_string (truncate body 300))
  /\ (Forall (fun c => printable c = true) (list_ascii_of_string body) ->
      (String.length body <= 300)%nat -> truncate body 300 = body).
Proof.
  intros Hs Hv. split.
  - simpl. destruct (Z.eqb_spec status 200); [contradiction|reflexivity].
  - destruct (truncate_facts body 300) as (Hlen & Hclean & Hsame).
    split; [exact Hlen|]. split; [exact Hclean|]. intros Hp. now apply Hsame.
Qed.

Lemma Search_non200_error_witness :
  Search (SearchReceived 403 "403 アクセス拒否" (inl (errorString "unused")))
  = inl (errorString ("mercari API returned " +:+ pretty 403 +:+ ": "
                        +:+ truncate "403 アクセス拒否" 300))
  /\ (String.length (truncate "403 アクセス拒否" 300) <= 303)%nat
  /\ Forall (fun c => printable c = true) (list_ascii_of_string (truncate "403 アクセス拒否" 300))
  /\ (Forall (fun c => printable c = true) (list_ascii_of_string "403 アクセス拒否") ->
      (String.length "403 アクセス拒否" <= 300)%nat -> truncate "403 アクセス拒否" 300 = "403 アクセス拒否").
Proof.
  apply (Search_non200_error 403 "403 アクセス拒否" (inl (errorString "unused"))).
  - lia.
  - reflexivity.
Defined.

(** truncate beyond well-formed text: a byte that starts no encoding
    comes back as U+FFFD, a control character goes, and a multi-byte
    rune stays. *)
Example truncate_runs :
  truncate (String (ascii_of_nat 255) "a") 300
  = string_of_list_ascii (runeError ++ ["a"%char])
  /\ truncate (String "a" (String (ascii_of_nat 1) "b")) 300 = "ab"
  /\ truncate "é" 300 = "é"
  /\ truncate "abcdef" 3 = "abc...".
Proof. vm_compute. repeat split. Qed.

End ScannerResults.

(** ** The image filter: what a classification sends *)

Section FilterRequests.

Import Go Mercari.


End FilterRequests.

Section FilterTraffic.

Import Go Mercari.



End FilterTraffic.

(** ** Decimal spellings decode to their integer *)

Section DecimalFacts.

Import Go Mercari.

Lemma digitVal_pretty_N_char (d : N) :
  (d < 10)%N -> strconv.digitVal (pretty_N_char d) = Some (Z.of_N d).
Proof.
  intros H.
  assert (d = 0 \/ d = 1 \/ d = 2 \/ d = 3 \/ d = 4 \/ d = 5 \/ d = 6 \/ d = 7 \/ d = 8 \/ d = 9)%N
    as Hd by lia.
  repeat (destruct Hd as [->|Hd]; [reflexivity|]). subst. reflexivity.
Qed.

(** The digit loop reads back what pretty_N_go wrote. *)
Lemma parseUintLoop_pretty_N_go (x : N) :
  Z.of_N x <= maxUint64 ->
  forall s, strconv.parseUintLoop (list_ascii_of_string (pretty_N_go x s)) 0
            = strconv.parseUintLoop (list_ascii_of_string s) (Z.of_N x).
Proof.
  induction (N.lt_wf_0 x) as [x _ IH]; intros Hx s.
  destruct (decide (x = 0)%N) as [->|H0]; [reflexivity|].
  rewrite pretty_N_go_step by lia.
  assert (Hdiv : (x `div` 10 < x)%N) by (apply N.div_lt; lia).
  assert (Hmod : (x `mod` 10 < 10)%N) by (apply N.mod_lt; lia).
  assert (Hq : Z.of_N (x `div` 10) = Z.of_N x / 10) by (rewrite N2Z.inj_div; reflexivity).
  assert (Hr : Z.of_N (x `mod` 10) = Z.of_N x mod 10) by (rewrite N2Z.inj_mod; reflexivity).
  unfold maxUint64 in *.
  rewrite IH; [|exact Hdiv|rewrite Hq; Z.div_mod_to_equations; lia].
  cbn [list_ascii_of_string strconv.parseUintLoop].
  rewrite digitVal_pretty_N_char by exact Hmod.
  unfold maxUint64.
  replace (Z.of_N (x `div` 10) * 10 + Z.of_N (x `mod` 10)) with (Z.of_N x)
    by (rewrite Hq, Hr; Z.div_mod_to_equations; lia).
  rewrite Hq.
  destruct (Z.leb_spec ((2 ^ 64 - 1) / 10 + 1) (Z.of_N x / 10));
    [Z.div_mod_to_equations; lia|].
  destruct (Z.ltb_spec (2 ^ 64 - 1) (Z.of_N x)); [lia|]. reflexivity.
Qed.

Lemma parseUintLoop_pretty (p : Z) :
  0 <= p <= maxUint64 ->
  strconv.parseUintLoop (list_ascii_of_string (pretty p)) 0 = (p, None).
Proof.
  intros Hp. rewrite pretty_Z_nonneg by lia. unfold pretty, pretty_N.
  case_decide as H0.
  - replace p with 0 by lia. reflexivity.
  - rewrite parseUintLoop_pretty_N_go by (rewrite Z2N.id; lia).
    simpl. rewrite Z2N.id by lia. reflexivity.
Qed.

(** A text the digit loop accepts starts with neither sign. *)
Lemma parseUintLoop_no_sign (c : ascii) (cs : list ascii) (v : Z) :
  strconv.parseUintLoop (c :: cs) 0 = (v, None) ->
  strconv.isPlus c = false /\ strconv.isMinus c = false.
Proof.
  intros H. simpl in H. unfold strconv.isPlus, strconv.isMinus.
  split.
  - destruct (Ascii.eqb_spec c "+"%char) as [->|]; [discriminate|reflexivity].
  - destruct (Ascii.eqb_spec c "-"%char) as [->|]; [discriminate|reflexivity].
Qed.

Lemma ParseInt_pretty (v : Z) :
  minInt64 <= v <= maxInt64 -> strconv.ParseInt (pretty v) = (v, None).
Proof.
  unfold minInt64, maxInt64. intros Hv. unfold strconv.ParseInt.
  destruct (Z_lt_le_dec v 0) as [Hneg|Hpos].
  - rewrite pretty_Z_neg by lia. rewrite list_ascii_of_string_app.
    change (list_ascii_of_string "-") with ["-"%char]. cbn [app].
    change (strconv.isMinus "-") with true. change (strconv.isPlus "-") with false.
    cbn [orb negb andb].
    pose proof (parseUintLoop_pretty (- v)) as Hu. unfold maxUint64 in Hu.
    specialize (Hu ltac:(lia)).
    destruct (pretty_Z_nonempty (- v) ltac:(lia)) as (c & cs & E).
    rewrite E in Hu |- *. unfold strconv.ParseUint. rewrite Hu.
    destruct (Z.ltb_spec (2 ^ 63) (- v)); [lia|]. f_equal. lia.
  - pose proof (parseUintLoop_pretty v) as Hu. unfold maxUint64 in Hu.
    specialize (Hu ltac:(lia)).
    destruct (pretty_Z_nonempty v ltac:(lia)) as (c & cs & E).
    rewrite E in Hu |- *.
    destruct (parseUintLoop_no_sign _ _ _ Hu) as [-> ->]. cbn [orb negb andb].
    unfold strconv.ParseUint. rewrite Hu.
    destruct (Z.leb_spec (2 ^ 63) v); [lia|]. reflexivity.
Qed.

Lemma pretty_Z_not_empty (v : Z) : String.eqb (pretty v) "" = false.
Proof.
  destruct (String.eqb_spec (pretty v) "") as [E|]; [|reflexivity].
  destruct (Z_lt_le_dec v 0).
  - rewrite pretty_Z_neg in E by lia. discriminate.
  - destruct (pretty_Z_nonempty v ltac:(lia)) as (c & cs & E'). rewrite E in E'. discriminate.
Qed.

End DecimalFacts.

Section DecimalResults.

Import Go Mercari.

(** A number spelled in plain decimal decodes to exactly that integer,
    for every value of an int64 and on every build: Int64 succeeds on
    it, so jsonNumberToInt64 returns it, and a raw item whose creation or
    update time is spelled so carries it unchanged.  (No int is involved:
    the three are int64 throughout.) *)
Theorem jsonNumberToInt64_decimal (v : Z) :
  minInt64 <= v <= maxInt64 ->
  Int64 (pretty v) = (v, None)
  /\ jsonNumberToInt64 (pretty v) = v
  /\ (forall raw, rawCreated raw = pretty v -> Created (convertItem raw) = v)
  /\ (forall raw, rawUpdated raw = pretty v -> Updated (convertItem raw) = v).
Proof.
  intros Hv. pose proof (ParseInt_pretty v Hv) as H.
  assert (Hi64 : jsonNumberToInt64 (pretty v) = v).
  { unfold jsonNumberToInt64, Int64. now rewrite pretty_Z_not_empty, H. }
  repeat split; try assumption.
  - intros raw E. simpl. now rewrite E.
  - intros raw E. simpl. now rewrite E.
Qed.

Lemma jsonNumberToInt64_decimal_witness :
  Int64 (pretty (-15000)) = (-15000, None)
  /\ jsonNumberToInt64 (pretty (-15000)) = -15000
  /\ (forall raw, rawCreated raw = pretty (-15000) -> Created (convertItem raw) = -15000)
  /\ (forall raw, rawUpdated raw = pretty (-15000) -> Updated (convertItem raw) = -15000).
Proof. apply (jsonNumberToInt64_decimal (-15000)). unfold minInt64, maxInt64. lia. Defined.

End DecimalResults.

(** ** Whole numbers with a decimal point *)

Section FloatFacts.

Import Go Mercari.

Lemma digits2_pos_size (p : positive) : digits2_pos p = Pos.size p.
Proof. induction p as [p IH|p IH|]; simpl; congruence. Qed.

Lemma size_53 (m : positive) : 2 ^ 52 <= Z.pos m < 2 ^ 53 -> Z.pos (Pos.size m) = 53.
Proof.
  intros [Hlo Hhi].
  pose proof (Pos.size_gt m) as Hgt. pose proof (Pos.size_le m) as Hle.
  apply Pos2Z.pos_lt_pos in Hgt. apply Pos2Z.pos_le_pos in Hle.
  rewrite Pos2Z.inj_pow in Hgt, Hle.
  assert (52 < Z.pos (Pos.size m)).
  { apply (Z.pow_lt_mono_r_iff 2); lia. }
  assert (Z.pos (Pos.size m) < 54).
  { apply (Z.pow_lt_mono_r_iff 2); [lia|lia|]. change (2 ^ 54) with (2 * 2 ^ 53). lia. }
  lia.
Qed.

Lemma valid_finite (s : bool) (m : positive) (e : Z) :
  2 ^ 52 <= Z.pos m < 2 ^ 53 -> - 1074 <= e <= 971 ->
  Prim2SF (SF2Prim (S754_finite s m e)) = S754_finite s m e.
Proof.
  intros Hm He. apply Prim2SF_SF2Prim.
  unfold valid_binary, SpecFloat.valid_binary, bounded, canonical_mantissa, fexp, emin.
  rewrite digits2_pos_size, (size_53 m Hm).
  unfold prec, emax. apply andb_true_intro. split.
  - apply Zeq_bool_eq_iff || apply Z.eqb_eq. lia.
  - apply Z.leb_le. lia.
Qed.

Lemma roundHalfEven_exact (n q : Z) : 0 < q -> roundHalfEven (n * q) q = n.
Proof.
  intros Hq. unfold roundHalfEven. rewrite Z.mod_mul, Z.div_mul by lia.
  change (2 * 0) with 0. destruct (Z.compare_spec 0 q); try lia; reflexivity.
Qed.

Lemma log2_times_ten (x : Z) :
  0 < x -> Z.log2 (10 * x) = Z.log2 x + 3 \/ Z.log2 (10 * x) = Z.log2 x + 4.
Proof.
  intros Hx. destruct (Z.log2_spec x Hx) as [Hlo Hhi].
  pose proof (Z.log2_nonneg x) as Hl.
  assert (H3 : Z.log2 x + 3 <= Z.log2 (10 * x)).
  { apply Z.log2_le_pow2; [lia|]. rewrite Z.pow_add_r by lia. change (2 ^ 3) with 8. lia. }
  assert (H5 : Z.log2 (10 * x) < Z.log2 x + 5).
  { apply Z.log2_lt_pow2; [lia|].
    replace (Z.log2 x + 5) with (Z.succ (Z.log2 x) + 4) by lia.
    rewrite Z.pow_add_r by lia. change (2 ^ 4) with 16. lia. }
  lia.
Qed.

(** The nearest binary64 of an integer below 2^53, given as tenths, is
    the integer itself, with a normalised mantissa. *)
Lemma nearest64_tenths (x : Z) :
  0 < x < 2 ^ 53 ->
  exists k, 0 <= k <= 52 /\ 2 ^ 52 <= x * 2 ^ k < 2 ^ 53
            /\ nearest64 (10 * x) 10 = (x * 2 ^ k, - k, false).
Proof.
  intros [Hx Hhi]. destruct (Z.log2_spec x Hx) as [Hlo Hup].
  pose proof (Z.log2_nonneg x) as Hl.
  assert (Hl52 : Z.log2 x < 53) by (apply Z.log2_lt_pow2; lia).
  set (l := Z.log2 x) in *. exists (52 - l).
  assert (Hpow : 2 ^ l * 2 ^ (52 - l) = 2 ^ 52) by (rewrite <- Z.pow_add_r by lia; f_equal; lia).
  assert (Hk : 0 < 2 ^ (52 - l)) by (apply Z.pow_pos_nonneg; lia).
  rewrite Z.pow_succ_r in Hup by lia.
  split; [lia|]. split; [change (2 ^ 53) with (2 * 2 ^ 52); nia|].
  unfold nearest64. change (Z.log2 10) with 3.
  assert (He2 : (let '(p1, q1) := scale2 (10 * x) 10 (Z.log2 (10 * x) - 3 - 52) in
                 if p1 <? q1 * 2 ^ 52 then Z.log2 (10 * x) - 3 - 52 - 1
                 else Z.log2 (10 * x) - 3 - 52) = l - 52).
  { unfold scale2. destruct (log2_times_ten x Hx) as [-> | ->]; fold l.
    - destruct (Z.leb_spec 0 (l + 3 - 3 - 52)).
      + assert (l = 52) as -> by lia. change (52 + 3 - 3 - 52) with 0.
        change (10 * 2 ^ 0 * 2 ^ 52) with (10 * 2 ^ 52).
        destruct (Z.ltb_spec (10 * x) (10 * 2 ^ 52)); lia.
      + replace (- (l + 3 - 3 - 52)) with (52 - l) by lia.
        destruct (Z.ltb_spec (10 * x * 2 ^ (52 - l)) (10 * 2 ^ 52)); [nia|lia].
    - destruct (Z.leb_spec 0 (l + 4 - 3 - 52)).
      + assert (l = 51 \/ l = 52) as [-> | ->] by lia.
        * change (51 + 4 - 3 - 52) with 0. change (10 * 2 ^ 0 * 2 ^ 52) with (10 * 2 ^ 52).
          change (2 * 2 ^ 51) with (2 ^ 52) in Hup.
          destruct (Z.ltb_spec (10 * x) (10 * 2 ^ 52)); lia.
        * change (52 + 4 - 3 - 52) with 1. change (10 * 2 ^ 1 * 2 ^ 52) with (10 * 2 ^ 53).
          destruct (Z.ltb_spec (10 * x) (10 * 2 ^ 53)); lia.
      + replace (- (l + 4 - 3 - 52)) with (51 - l) by lia.
        assert (Hpow' : 2 ^ (52 - l) = 2 * 2 ^ (51 - l)).
        { rewrite <- Z.pow_succ_r by lia. f_equal. lia. }
        destruct (Z.ltb_spec (10 * x * 2 ^ (51 - l)) (10 * 2 ^ 52)); [lia|nia]. }
  destruct (scale2 (10 * x) 10 (Z.log2 (10 * x) - 3 - 52)) as [p1 q1].
  rewrite He2. rewrite Z.max_l by lia.
  destruct (Z.eq_dec l 52) as [Hl'|Hl'].
  - rewrite Hl'. change (scale2 (10 * x) 10 (52 - 52)) with (10 * x, 10 * 2 ^ 0).
    change (10 * 2 ^ 0) with 10. replace (10 * x) with (x * 10) by lia.
    rewrite roundHalfEven_exact by lia.
    change (2 ^ (52 - 52)) with 1. rewrite Z.mul_1_r.
    destruct (Z.eqb_spec x (2 ^ 53)); [lia|]. reflexivity.
  - unfold scale2. destruct (Z.leb_spec 0 (l - 52)); [lia|].
    replace (- (l - 52)) with (52 - l) by lia.
    replace (10 * x * 2 ^ (52 - l)) with (x * 2 ^ (52 - l) * 10) by lia.
    rewrite roundHalfEven_exact by lia.
    destruct (Z.eqb_spec (x * 2 ^ (52 - l)) (2 ^ 53)); [nia|].
    replace (- (52 - l)) with (l - 52) by lia.
    destruct (Z.ltb_spec 971 (l - 52)); [lia|]. reflexivity.
Qed.

End FloatFacts.

Section PointFacts.

Import Go Mercari.

Lemma pretty_N_char_no_point (d : N) :
  (d < 10)%N -> Ascii.eqb (pretty_N_char d) "."%char = false.
Proof.
  intros H.
  assert (d = 0 \/ d = 1 \/ d = 2 \/ d = 3 \/ d = 4 \/ d = 5 \/ d = 6 \/ d = 7 \/ d = 8 \/ d = 9)%N
    as Hd by lia.
  repeat (destruct Hd as [->|Hd]; [reflexivity|]). subst. reflexivity.
Qed.

(** The mantissa loop reads back what pretty_N_go wrote. *)
Lemma readMantissa_pretty_N_go (x : N) :
  (0 < x)%N ->
  forall s, strconv.readMantissa (list_ascii_of_string (pretty_N_go x s)) false 0 0 false
            = strconv.readMantissa (list_ascii_of_string s) false (Z.of_N x) 0 true.
Proof.
  induction (N.lt_wf_0 x) as [x _ IH]; intros Hx s.
  rewrite pretty_N_go_step by lia.
  assert (Hdiv : (x `div` 10 < x)%N) by (apply N.div_lt; lia).
  assert (Hmod : (x `mod` 10 < 10)%N) by (apply N.mod_lt; lia).
  assert (Hq : Z.of_N (x `div` 10) = Z.of_N x / 10) by (rewrite N2Z.inj_div; reflexivity).
  assert (Hr : Z.of_N (x `mod` 10) = Z.of_N x mod 10) by (rewrite N2Z.inj_mod; reflexivity).
  destruct (decide (x `div` 10 = 0)%N) as [H0|H0].
  - rewrite H0. change (pretty_N_go 0 ?t) with t.
    cbn [list_ascii_of_string strconv.readMantissa].
    rewrite pretty_N_char_no_point, digitVal_pretty_N_char by exact Hmod.
    f_equal. rewrite Hr. rewrite H0 in Hq. Z.div_mod_to_equations. lia.
  - assert (Hpos : (0 < x `div` 10)%N) by (apply N.neq_0_lt_0; exact H0).
    rewrite (IH _ Hdiv Hpos).
    cbn [list_ascii_of_string strconv.readMantissa].
    rewrite pretty_N_char_no_point, digitVal_pretty_N_char by exact Hmod.
    f_equal. rewrite Hq, Hr. Z.div_mod_to_equations. lia.
Qed.

Lemma pretty_point_chars (p : Z) :
  0 < p ->
  list_ascii_of_string (pretty p +:+ ".0")
  = list_ascii_of_string (pretty_N_go (Z.to_N p) ".0").
Proof.
  intros Hp. rewrite pretty_Z_nonneg by lia. unfold pretty, pretty_N.
  rewrite decide_False by lia. now rewrite (pretty_N_go_app _ ".0").
Qed.

Lemma pretty_point_nonempty (p : Z) :
  0 <= p <= maxUint64 ->
  exists c cs, list_ascii_of_string (pretty p +:+ ".0") = c :: cs
               /\ strconv.isPlus c = false /\ strconv.isMinus c = false.
Proof.
  intros Hp. rewrite list_ascii_of_string_app.
  destruct (pretty_Z_nonempty p ltac:(lia)) as (c & cs & E).
  pose proof (parseUintLoop_pretty p Hp) as Hu. rewrite E in Hu |- *.
  exists c, (cs ++ list_ascii_of_string ".0"). split; [reflexivity|].
  exact (parseUintLoop_no_sign _ _ _ Hu).
Qed.

Lemma readMantissa_point (p : Z) :
  0 < p ->
  strconv.readMantissa (list_ascii_of_string (pretty p +:+ ".0")) false 0 0 false
  = (10 * p, 1, true, []).
Proof.
  intros Hp. rewrite pretty_point_chars, readMantissa_pretty_N_go by lia.
  rewrite Z2N.id by lia. replace (10 * p) with (p * 10 + 0) by lia. reflexivity.
Qed.

Lemma parseUintLoop_point (p : Z) :
  0 <= p <= maxUint64 ->
  strconv.parseUintLoop (list_ascii_of_string (pretty p +:+ ".0")) 0 = (0, Some strconv.ErrSyntax).
Proof.
  intros Hp. destruct (Z.eq_dec p 0) as [->|H0]; [reflexivity|].
  rewrite pretty_point_chars, parseUintLoop_pretty_N_go by (rewrite ?Z2N.id; lia).
  reflexivity.
Qed.

(** What ParseInt and ParseFloat make of the body [p.0] behind a sign. *)
Lemma float64_of_tenths (neg : bool) (p : Z) :
  0 < p < 2 ^ 53 ->
  exists f, float64_of_ratio neg (10 * p) 10 = (f, false)
            /\ strconv.int_of_float64 f = (if neg then - p else p)
            /\ forall intSize outOfRange,
                p < 2 ^ (intSize - 1) ->
                Sized.int_of_float64 intSize outOfRange f = if neg then - p else p.
Proof.
  intros Hp. destruct (nearest64_tenths p Hp) as (k & Hk & Hm & Hn).
  unfold float64_of_ratio. destruct (Z.eqb_spec (10 * p) 0); [lia|]. rewrite Hn.
  destruct (p * 2 ^ k) as [|mp|mp] eqn:E; [lia| |lia].
  eexists. split; [reflexivity|].
  assert (Hmag : (if 0 <=? - k then Z.pos mp * 2 ^ (- k) else Z.pos mp / 2 ^ (- - k)) = p).
  { destruct (Z.leb_spec 0 (- k)).
    - assert (k = 0) as -> by lia. simpl in E |- *. lia.
    - rewrite Z.opp_involutive, <- E. apply Z.div_mul.
      apply Z.pow_nonzero; lia. }
  split.
  - unfold strconv.int_of_float64. rewrite valid_finite by lia.
    rewrite Hmag. unfold minInt64, maxInt64.
    assert (2 ^ 53 < 2 ^ 63) by reflexivity.
    destruct neg.
    + destruct (Z.leb_spec (- 2 ^ 63) (- p)); [|lia].
      destruct (Z.leb_spec (- p) (2 ^ 63 - 1)); [reflexivity|lia].
    + destruct (Z.leb_spec (- 2 ^ 63) p); [|lia].
      destruct (Z.leb_spec p (2 ^ 63 - 1)); [reflexivity|lia].
  - intros intSize outOfRange Hfit.
    unfold Sized.int_of_float64. rewrite valid_finite by lia. rewrite Hmag.
    destruct neg.
    + destruct (Z.leb_spec (- 2 ^ (intSize - 1)) (- p)); [|lia].
      destruct (Z.ltb_spec (- p) (2 ^ (intSize - 1))); [reflexivity|lia].
    + destruct (Z.leb_spec (- 2 ^ (intSize - 1)) p); [|lia].
      destruct (Z.ltb_spec p (2 ^ (intSize - 1))); [reflexivity|lia].
Qed.

Lemma Int64_point (v : Z) :
  - 2 ^ 53 < v < 2 ^ 53 -> Int64 (pretty v +:+ ".0") = (0, Some strconv.ErrSyntax).
Proof.
  intros Hv. assert (2 ^ 53 < maxUint64) by reflexivity.
  unfold Int64, strconv.ParseInt. destruct (Z_lt_le_dec v 0) as [Hneg|Hpos].
  - rewrite pretty_Z_neg by lia. rewrite append_assoc, list_ascii_of_string_app.
    change (list_ascii_of_string "-") with ["-"%char]. cbn [app].
    change (strconv.isMinus "-") with true. change (strconv.isPlus "-") with false.
    cbn [orb]. pose proof (parseUintLoop_point (- v) ltac:(lia)) as Hu.
    destruct (pretty_point_nonempty (- v) ltac:(lia)) as (c & cs & E & _).
    rewrite E in Hu |- *. unfold strconv.ParseUint. now rewrite Hu.
  - pose proof (parseUintLoop_point v ltac:(lia)) as Hu.
    destruct (pretty_point_nonempty v ltac:(lia)) as (c & cs & E & Hplus & Hminus).
    rewrite E in Hu |- *. rewrite Hplus, Hminus. cbn [orb].
    unfold strconv.ParseUint. now rewrite Hu.
Qed.

Lemma Float64_point (v : Z) :
  - 2 ^ 53 < v < 2 ^ 53 ->
  exists f, Float64 (pretty v +:+ ".0") = (f, None)
            /\ strconv.int_of_float64 f = v
            /\ forall intSize outOfRange,
                - 2 ^ (intSize - 1) < v < 2 ^ (intSize - 1) ->
                Sized.int_of_float64 intSize outOfRange f = v.
Proof.
  intros Hv. assert (2 ^ 53 < maxUint64) by reflexivity.
  destruct (Z.eq_dec v 0) as [->|H0].
  { exists (SF2Prim (S754_zero false)). split; [vm_compute; reflexivity|].
    split; [vm_compute; reflexivity|]. intros intSize outOfRange _. reflexivity. }
  unfold Float64, strconv.ParseFloat. destruct (Z_lt_le_dec v 0) as [Hneg|Hpos].
  - rewrite pretty_Z_neg by lia. rewrite append_assoc, list_ascii_of_string_app.
    change (list_ascii_of_string "-") with ["-"%char]. cbn [app].
    change (strconv.isMinus "-") with true. change (strconv.isPlus "-") with false.
    cbn [orb]. rewrite readMantissa_point by lia. cbn [negb strconv.readExponent].
    change (0 <=? 0 - 1) with false. cbv iota beta.
    destruct (float64_of_tenths true (- v) ltac:(lia)) as (f & Hf & Hi & Hw).
    change (10 ^ (- (0 - 1))) with 10. rewrite Hf. exists f. split; [reflexivity|].
    split; [rewrite Hi; lia|]. intros intSize outOfRange Hfit.
    rewrite Hw by lia. lia.
  - destruct (pretty_point_nonempty v ltac:(lia)) as (c & cs & E & Hplus & Hminus).
    pose proof (readMantissa_point v ltac:(lia)) as Hm. rewrite E in Hm |- *.
    rewrite Hplus, Hminus. cbn [orb]. rewrite Hm. cbn [negb strconv.readExponent].
    change (0 <=? 0 - 1) with false. cbv iota beta.
    destruct (float64_of_tenths false v ltac:(lia)) as (f & Hf & Hi & Hw).
    change (10 ^ (- (0 - 1))) with 10. rewrite Hf. exists f. split; [reflexivity|].
    split; [exact Hi|]. intros intSize outOfRange Hfit. apply Hw. lia.
Qed.

Lemma point_not_empty (v : Z) : String.eqb (pretty v +:+ ".0") "" = false.
Proof.
  destruct (String.eqb_spec (pretty v +:+ ".0") "") as [E|]; [|reflexivity].
  apply (f_equal String.length) in E. rewrite length_append in E. simpl in E. lia.
Qed.

End PointFacts.

Section PointResults.

Import Go Mercari.

(** A whole number spelled with a decimal point, as in 15000.0, takes
    the float path of jsonNumberToInt64 and still decodes to exactly that
    integer, for every value of magnitude below 2^53 and on every build:
    Int64 refuses the text with a syntax error, Float64 reads it without
    rounding, and int64(f) gives the integer back. *)
Theorem jsonNumberToInt64_decimal_point (v : Z) :
  - 2 ^ 53 < v < 2 ^ 53 ->
  Int64 (pretty v +:+ ".0") = (0, Some strconv.ErrSyntax)
  /\ (exists f, Float64 (pretty v +:+ ".0") = (f, None) /\ strconv.int_of_float64 f = v)
  /\ jsonNumberToInt64 (pretty v +:+ ".0") = v
  /\ (forall raw, rawCreated raw = pretty v +:+ ".0" -> Created (convertItem raw) = v).
Proof.
  intros Hv. pose proof (Int64_point v Hv) as Hi.
  destruct (Float64_point v Hv) as (f & Hf & Ht & _).
  assert (H64 : jsonNumberToInt64 (pretty v +:+ ".0") = v).
  { unfold jsonNumberToInt64. rewrite point_not_empty, Hi, Hf. exact Ht. }
  split; [exact Hi|]. split; [eauto|]. split; [exact H64|].
  intros raw E. simpl. now rewrite E.
Qed.

Lemma jsonNumberToInt64_decimal_point_witness :
  Int64 (pretty (-15000) +:+ ".0") = (0, Some strconv.ErrSyntax)
  /\ (exists f, Float64 (pretty (-15000) +:+ ".0") = (f, None)
                /\ strconv.int_of_float64 f = -15000)
  /\ jsonNumberToInt64 (pretty (-15000) +:+ ".0") = -15000
  /\ (forall raw, rawCreated raw = pretty (-15000) +:+ ".0" ->
                  Created (convertItem raw) = -15000).
Proof. apply (jsonNumberToInt64_decimal_point (-15000)). lia. Defined.

End PointResults.

(** ** The width of int *)

Section WidthFacts.

Import Go Mercari.

Lemma toInt_range (intSize v : Z) :
  0 < intSize ->
  - 2 ^ (intSize - 1) <= Sized.toInt intSize v < 2 ^ (intSize - 1).
Proof.
  intros Hw. unfold Sized.toInt.
  assert (Hp : 0 < 2 ^ (intSize - 1)) by (apply Z.pow_pos_nonneg; lia).
  assert (H2 : 2 ^ intSize = 2 * 2 ^ (intSize - 1)).
  { rewrite <- Z.pow_succ_r by lia. f_equal. lia. }
  pose proof (Z.mod_pos_bound (v + 2 ^ (intSize - 1)) (2 ^ intSize) ltac:(lia)). lia.
Qed.

Lemma toInt_small (intSize v : Z) :
  0 < intSize ->
  - 2 ^ (intSize - 1) <= v < 2 ^ (intSize - 1) -> Sized.toInt intSize v = v.
Proof.
  intros Hw Hv. unfold Sized.toInt.
  assert (H2 : 2 ^ intSize = 2 * 2 ^ (intSize - 1)).
  { rewrite <- Z.pow_succ_r by lia. f_equal. lia. }
  rewrite Z.mod_small by lia. lia.
Qed.

Lemma digitVal_range (c : ascii) (d : Z) : strconv.digitVal c = Some d -> 0 <= d <= 9.
Proof.
  unfold strconv.digitVal.
  destruct (Z.leb_spec 48 (Z.of_nat (nat_of_ascii c))); simpl; [|discriminate].
  destruct (Z.leb_spec (Z.of_nat (nat_of_ascii c)) 57); [|discriminate].
  intros [= <-]. lia.
Qed.

Lemma parseUintLoop_nonneg (cs : list ascii) :
  forall n, 0 <= n -> 0 <= fst (strconv.parseUintLoop cs n).
Proof.
  induction cs as [|c cs IH]; intros n Hn; simpl; [exact Hn|].
  destruct (strconv.digitVal c) as [d|] eqn:D; [|simpl; lia].
  apply digitVal_range in D.
  destruct (maxUint64 / 10 + 1 <=? n); [unfold maxUint64; simpl; lia|].
  destruct (maxUint64 <? n * 10 + d); [unfold maxUint64; simpl; lia|].
  apply IH. lia.
Qed.

(** Whatever the text, ParseInt(s, 10, 64) returns a value of an int64. *)
Lemma ParseInt_range (s : string) : minInt64 <= fst (strconv.ParseInt s) <= maxInt64.
Proof.
  unfold strconv.ParseInt, minInt64, maxInt64.
  destruct (list_ascii_of_string s) as [|c rest]; [simpl; lia|].
  set (body := if strconv.isPlus c || strconv.isMinus c then rest else c :: rest).
  assert (Hun : 0 <= fst (strconv.ParseUint body)).
  { unfold strconv.ParseUint. destruct body; [simpl; lia|]. now apply parseUintLoop_nonneg. }
  destruct (strconv.ParseUint body) as [un [[|]|]]; simpl in Hun; [simpl; lia| |];
    destruct (strconv.isMinus c); cbn [negb andb];
    try destruct (Z.leb_spec (2 ^ 63) un); try destruct (Z.ltb_spec (2 ^ 63) un);
    simpl; lia.
Qed.

Lemma Sized_parseUintLoop_64 (cs : list ascii) :
  forall n, Sized.parseUintLoop (2 ^ 64 - 1) cs n = strconv.parseUintLoop cs n.
Proof.
  induction cs as [|c cs IH]; intros n; [reflexivity|].
  cbn [Sized.parseUintLoop strconv.parseUintLoop].
  destruct (strconv.digitVal c); [|reflexivity].
  change (2 ^ 64 - 1) with maxUint64 in *. now rewrite IH.
Qed.

Lemma Sized_ParseInt_64 (s : string) : Sized.ParseInt 64 s = strconv.ParseInt s.
Proof.
  unfold Sized.ParseInt, strconv.ParseInt, Sized.ParseUint, strconv.ParseUint.
  destruct (list_ascii_of_string s) as [|c rest]; [reflexivity|].
  destruct (if strconv.isPlus c || strconv.isMinus c then rest else c :: rest) as [|b body];
    [reflexivity|].
  now rewrite Sized_parseUintLoop_64.
Qed.

Lemma Sized_int_of_float64_64 (f : float) :
  Sized.int_of_float64 64 (fun _ => minInt64) f = strconv.int_of_float64 f.
Proof.
  unfold Sized.int_of_float64, strconv.int_of_float64.
  destruct (Prim2SF f) as [sg| | |sg m e]; try reflexivity.
  change (2 ^ (64 - 1)) with (2 ^ 63). unfold minInt64, maxInt64.
  set (v := if sg then _ else _).
  destruct (Z.leb_spec (- 2 ^ 63) v); [|reflexivity].
  destruct (Z.ltb_spec v (2 ^ 63)), (Z.leb_spec v (2 ^ 63 - 1)); try reflexivity; lia.
Qed.

(** With an int of 64 bits the sized function is the one of the 64-bit
    build. *)
Lemma Sized_jsonNumberToInt_64 (n : Number) :
  Sized.jsonNumberToInt 64 (fun _ => minInt64) n = jsonNumberToInt n.
Proof.
  unfold Sized.jsonNumberToInt, jsonNumberToInt.
  destruct (String.eqb n ""); [reflexivity|].
  pose proof (ParseInt_range n) as Hr. unfold Int64 in *.
  destruct (strconv.ParseInt n) as [v [e|]] eqn:E.
  - destruct (Float64 n) as [f [e'|]].
    + unfold Sized.Atoi, strconv.Atoi. rewrite Sized_ParseInt_64, E. simpl.
      apply toInt_small; [lia|]. simpl in Hr. unfold minInt64, maxInt64 in Hr.
      change (2 ^ (64 - 1)) with (2 ^ 63). lia.
    + apply Sized_int_of_float64_64.
  - apply toInt_small; [lia|]. simpl in Hr. unfold minInt64, maxInt64 in Hr.
    change (2 ^ (64 - 1)) with (2 ^ 63). lia.
Qed.

End WidthFacts.

Section WidthResults.

Import Go Mercari.

(** jsonNumberToInt and the width of int.  With an int of 32 or 64 bits
    and whatever the platform does on an overflowing float conversion, a
    plain decimal spelling of an int64 [v] decodes to int(v), the low
    bits of [v]: that is [v] exactly when [v] fits the int, so that on a
    32-bit build a number from 2^31 on comes back as another number.
    Spelled with a decimal point, a whole number of magnitude below 2^53
    that fits the int decodes to itself.  With 64 bits, and an overflowing
    conversion yielding the minimum as on amd64, the function is the
    jsonNumberToInt of the 64-bit build. *)
Theorem jsonNumberToInt_width (intSize : Z) (outOfRange : float -> Z) (v : Z) :
  intSize = 32 \/ intSize = 64 ->
  minInt64 <= v <= maxInt64 ->
  Sized.jsonNumberToInt intSize outOfRange (pretty v) = Sized.toInt intSize v
  /\ (Sized.toInt intSize v = v <-> - 2 ^ (intSize - 1) <= v < 2 ^ (intSize - 1))
  /\ (- 2 ^ 53 < v < 2 ^ 53 -> - 2 ^ (intSize - 1) < v < 2 ^ (intSize - 1) ->
      Sized.jsonNumberToInt intSize outOfRange (pretty v +:+ ".0") = v)
  /\ (forall n, Sized.jsonNumberToInt 64 (fun _ => minInt64) n = jsonNumberToInt n).
Proof.
  intros Hw Hv. assert (Hpos : 0 < intSize) by lia.
  split; [|split; [|split]].
  - unfold Sized.jsonNumberToInt, Int64.
    now rewrite pretty_Z_not_empty, (ParseInt_pretty v Hv).
  - split.
    + intros <-. now apply toInt_range.
    + now apply toInt_small.
  - intros H53 Hfit. unfold Sized.jsonNumberToInt.
    destruct (Float64_point v H53) as (f & Hf & _ & Hsized).
    rewrite point_not_empty, (Int64_point v H53), Hf. now apply Hsized.
  - apply Sized_jsonNumberToInt_64.
Qed.

Lemma jsonNumberToInt_width_witness :
  Sized.jsonNumberToInt 32 (fun _ => 0) (pretty 3000000000) = Sized.toInt 32 3000000000
  /\ (Sized.toInt 32 3000000000 = 3000000000
      <-> - 2 ^ (32 - 1) <= 3000000000 < 2 ^ (32 - 1))
  /\ (- 2 ^ 53 < 3000000000 < 2 ^ 53 -> - 2 ^ (32 - 1) < 3000000000 < 2 ^ (32 - 1) ->
      Sized.jsonNumberToInt 32 (fun _ => 0) (pretty 3000000000 +:+ ".0") = 3000000000)
  /\ (forall n, Sized.jsonNumberToInt 64 (fun _ => minInt64) n = jsonNumberToInt n).
Proof.
  apply (jsonNumberToInt_width 32 (fun _ => 0) 3000000000).
  - left. reflexivity.
  - unfold minInt64, maxInt64. lia.
Defined.

(** On a 32-bit build: three thousand million comes back negative, the
    largest int32 comes back as it is, with or without a decimal point,
    and four hundred nines clamp at the largest int32, where a 64-bit
    build clamps at the largest int64. *)
Example jsonNumberToInt_narrow_runs :
  Sized.jsonNumberToInt 32 (fun _ => 0) "3000000000" = -1294967296
  /\ Sized.jsonNumberToInt 32 (fun _ => 0) "2147483647" = 2147483647
  /\ Sized.jsonNumberToInt 32 (fun _ => 0) "2147483647.0" = 2147483647
  /\ Sized.jsonNumberToInt 32 (fun _ => 0) Scenario.nines400 = 2147483647
  /\ Sized.jsonNumberToInt 64 (fun _ => minInt64) Scenario.nines400 = 9223372036854775807.
Proof. vm_compute. repeat split. Qed.

End WidthResults.

(** ** The command listener *)

Section ListenerFacts.

Import Go Telegram.

Variable chatID : string.
Variable getStatus : nat -> string.
Variable net : nat -> Z -> UpdatesExchange.

(** What the range loop leaves: the offset, the polls and the sleeps as
    they were, and one reply per call of getStatus, in the order of the
    calls. *)
Lemma handleUpdates_steps (updates : list update) :
  forall st st', handleUpdates chatID getStatus updates st = Some st' ->
    offset st' = offset st /\ polls st' = polls st /\ naps st' = naps st
    /\ exists k, statusCalls st' = (statusCalls st + k)%nat
                 /\ replies st' = replies st ++ map getStatus (seq (statusCalls st) k)
                 /\ k = answered chatID updates.
Proof.
  induction updates as [|up rest IH]; intros st st' H; simpl in H.
  - inversion H; subst. repeat split; auto. exists 0%nat. simpl.
    rewrite Nat.add_0_r, app_nil_r. auto.
  - destruct (command chatID up) eqn:E; [| |discriminate].
    + destruct (IH _ _ H) as (Ho & Hp & Hn & k & Hk & Hr & Hc).
      repeat split; auto. exists k. repeat split; auto.
      unfold answered. simpl. rewrite E. exact Hc.
    + destruct (IH _ _ H) as (Ho & Hp & Hn & k & Hk & Hr & Hc). simpl in *.
      repeat split; auto. exists (S k). repeat split.
      * lia.
      * rewrite Hr, <- app_assoc. reflexivity.
      * unfold answered. simpl. rewrite E. simpl. now rewrite Hc.
Qed.

Lemma answered_none (updates : list update) :
  (forall up, up ∈ updates -> command chatID up <> Answer) -> answered chatID updates = 0%nat.
Proof.
  unfold answered. induction updates as [|u us IH]; intros Hall; [reflexivity|].
  simpl. destruct (command chatID u) eqn:Eu;
    try (apply IH; intros; apply Hall; now right).
  destruct (Hall u ltac:(left) Eu).
Qed.

Lemma handleUpdates_NilChat (updates : list update) (up : update) :
  up ∈ updates -> command chatID up = NilChat ->
  forall st, handleUpdates chatID getStatus updates st = None.
Proof.
  induction updates as [|u rest IH]; intros Hin Hc st; [inversion Hin|].
  simpl. apply elem_of_cons in Hin as [<-|Hin].
  - now rewrite Hc.
  - destruct (command chatID u); auto.
Qed.

Lemma handleUpdates_None (updates : list update) :
  forall st, handleUpdates chatID getStatus updates st = None ->
             exists up, up ∈ updates /\ command chatID up = NilChat.
Proof.
  induction updates as [|u rest IH]; intros st H; simpl in H; [discriminate|].
  destruct (command chatID u) eqn:E.
  - destruct (IH _ H) as (up & Hin & Hc). exists up. split; [now right|exact Hc].
  - destruct (IH _ H) as (up & Hin & Hc). exists up. split; [now right|exact Hc].
  - exists u. split; [now left|exact E].
Qed.

Lemma command_NilChat (up : update) :
  command chatID up = NilChat <->
  exists m, Message up = Some m /\ Text m <> "" /\ Chat m = None.
Proof.
  unfold command. split.
  - destruct (Message up) as [m|]; [|discriminate].
    destruct (String.eqb_spec (Text m) ""); [discriminate|].
    destruct (Chat m) as [c|] eqn:Ec; [|intros _; eauto].
    destruct (negb _); [discriminate|]. destruct (_ || _); discriminate.
  - intros (m & -> & Ht & ->). destruct (String.eqb_spec (Text m) ""); [contradiction|reflexivity].
Qed.

Lemma getUpdates_polled (off : Z) (x : UpdatesExchange) :
  exists newOffset err,
    getUpdates off x = (polled off x, newOffset, err)
    /\ newOffset = match last (polled off x) with
                   | Some up => wrap64 (UpdateID up + 1)
                   | None => off
                   end
    /\ (err <> None -> polled off x = []).
Proof.
  unfold polled. destruct (getUpdates off x) as [[ups no] err] eqn:E.
  unfold getUpdates in E.
  destruct x as [e|status [e|r]].
  - inversion E; subst. eauto 6.
  - destruct (negb (status =? 200)); inversion E; subst; eauto 6.
  - destruct (negb (status =? 200)); [inversion E; subst; eauto 6|].
    destruct (negb (OK r)); [inversion E; subst; eauto 6|].
    destruct (Result r) as [e|us]; inversion E; subst; [eauto 6|].
    eexists _, _. split; [reflexivity|]. split; [reflexivity|]. congruence.
Qed.

(** One pass, whatever the poll met. *)
Lemma pollOnce_steps (st st' : Listener) :
  pollOnce chatID getStatus net st = Some st' ->
  let updates := polled (offset st) (net (polls st) (offset st)) in
  polls st' = S (polls st)
  /\ offset st' = match last updates with
                  | Some up => wrap64 (UpdateID up + 1)
                  | None => offset st
                  end
  /\ (exists d, naps st' = naps st ++ [d] /\ (d = 1 * Second \/ d = 5 * Second /\ updates = []))
  /\ exists k, statusCalls st' = (statusCalls st + k)%nat
               /\ replies st' = replies st ++ map getStatus (seq (statusCalls st) k)
               /\ k = answered chatID updates.
Proof.
  intros H updates. unfold pollOnce in H. subst updates.
  destruct (getUpdates_polled (offset st) (net (polls st) (offset st)))
    as (no & err & -> & Hno & Herr) in H.
  destruct err as [e|].
  - inversion H; subst st'; simpl. rewrite (Herr ltac:(discriminate)). simpl.
    repeat split; eauto.
    exists 0%nat. simpl. rewrite Nat.add_0_r, app_nil_r. auto.
  - destruct handleUpdates as [st1|] eqn:E; [|discriminate].
    inversion H; subst st'; simpl.
    destruct (handleUpdates_steps _ _ _ E) as (Ho & Hp & Hn & k & Hk & Hr & Hc). simpl in *.
    repeat split; eauto. congruence. rewrite Hn. eauto.
Qed.

(** What getUpdates returns, by what the poll delivered. *)
Lemma getUpdates_delivered (off : Z) (x : UpdatesExchange) :
  match delivered x with
  | Some updates =>
      getUpdates off x
      = (updates,
         match last updates with Some up => wrap64 (UpdateID up + 1) | None => off end,
         None)
  | None => exists e, getUpdates off x = ([], off, Some e)
  end.
Proof.
  unfold delivered, getUpdates. destruct x as [e|status [e|tgResp]]; [eauto| |].
  - destruct (status =? 200); simpl; eauto.
  - destruct (Result tgResp) as [e|updates] eqn:R.
    + destruct (status =? 200); simpl; [|eauto]. destruct (OK tgResp); simpl; eauto.
    + destruct (status =? 200); simpl; [|eauto]. destruct (OK tgResp); simpl; eauto.
Qed.

(** One pass, by what its poll delivered. *)
Lemma pollOnce_pass (st st' : Listener) :
  pollOnce chatID getStatus net st = Some st' ->
  let x := net (polls st) (offset st) in
  let k := answered chatID (default [] (delivered x)) in
  polls st' = S (polls st)
  /\ naps st' = naps st ++ [match delivered x with
                            | Some _ => 1 * Second
                            | None => 5 * Second
                            end]
  /\ statusCalls st' = (statusCalls st + k)%nat
  /\ replies st' = replies st ++ map getStatus (seq (statusCalls st) k)
  /\ offset st' = match delivered x with
                  | Some updates =>
                      match last updates with
                      | Some up => wrap64 (UpdateID up + 1)
                      | None => offset st
                      end
                  | None => offset st
                  end.
Proof.
  intros H. cbv zeta. unfold pollOnce in H.
  pose proof (getUpdates_delivered (offset st) (net (polls st) (offset st))) as G.
  destruct (delivered (net (polls st) (offset st))) as [updates|].
  - rewrite G in H.
    destruct handleUpdates as [st1|] eqn:E; [|discriminate].
    inversion H; subst st'; simpl.
    destruct (handleUpdates_steps _ _ _ E) as (Ho & Hp & Hn & k & Hk & Hr & Hc). simpl in *.
    subst k. rewrite Hn. auto.
  - destruct G as [e G]. rewrite G in H. inversion H; subst st'; simpl.
    unfold answered. simpl. rewrite Nat.add_0_r, app_nil_r. auto.
Qed.

End ListenerFacts.

Section ListenerResults.

Import Go Telegram Scenario.

(** The listener answers an update exactly when it carries a message
    from the configured chat whose text starts with /check or /status.
    With a chat id that is the decimal spelling of [owner], only the chat
    [owner] is answered; with one that is no decimal spelling of an
    integer, nothing is. *)
Theorem command_owner_only (owner : Z) (up : update) :
  (command (pretty owner) up = Answer <->
   exists m, Message up = Some m /\ Chat m = Some {| ID := owner |}
             /\ (HasPrefix (Text m) "/check" = true \/ HasPrefix (Text m) "/status" = true))
  /\ (forall chatID, (forall z : Z, pretty z <> chatID) -> command chatID up <> Answer).
Proof.
  split; [split|].
  - unfold command. destruct (Message up) as [m|]; [|discriminate].
    destruct (String.eqb (Text m) ""); [discriminate|].
    destruct (Chat m) as [[c]|] eqn:Ec; [|discriminate]. simpl.
    destruct (String.eqb_spec (pretty c) (pretty owner)) as [E|]; [|discriminate].
    apply (inj pretty) in E. subst c. simpl.
    destruct (HasPrefix (Text m) "/check") eqn:E1; [intros _; eauto 6|].
    destruct (HasPrefix (Text m) "/status") eqn:E2; [intros _; eauto 6|].
    simpl. discriminate.
  - intros (m & Hm & Hc & Hp). unfold command. rewrite Hm, Hc. simpl.
    rewrite String.eqb_refl. simpl.
    destruct (String.eqb_spec (Text m) "") as [E|].
    + rewrite E in Hp. destruct Hp; discriminate.
    + destruct Hp as [->| ->]; [reflexivity|]. now rewrite orb_true_r.
  - intros chatID Hno. unfold command. destruct (Message up) as [m|]; [|discriminate].
    destruct (String.eqb (Text m) ""); [discriminate|].
    destruct (Chat m) as [[c]|]; [|discriminate]. simpl.
    destruct (String.eqb_spec (pretty c) chatID) as [E|]; [|discriminate].
    destruct (Hno c E).
Qed.

(** As long as no polled update comes from the configured chat, the
    listener sends nothing and never calls getStatus, however many passes
    it makes and whatever the texts say. *)
Theorem listener_ignores_strangers (chatID : string) (getStatus : nat -> string)
        (net : nat -> Z -> UpdatesExchange) (rounds : nat) (st st' : Listener) :
  (forall p off up m c, up ∈ polled off (net p off) -> Message up = Some m ->
                        Chat m = Some c -> pretty (ID c) <> chatID) ->
  listenLoop chatID getStatus net rounds st = Some st' ->
  replies st' = replies st /\ statusCalls st' = statusCalls st
  /\ polls st' = (polls st + rounds)%nat.
Proof.
  intros Hstr. revert st. induction rounds as [|rounds IH]; intros st H; simpl in H.
  - inversion H; subst. repeat split; auto.
  - destruct (pollOnce chatID getStatus net st) as [st1|] eqn:E; [|discriminate].
    destruct (IH _ H) as (Hr & Hs & Hp).
    destruct (pollOnce_steps _ _ _ _ _ E) as (Hp1 & _ & _ & k & Hk & Hr1 & Hc).
    assert (k = 0%nat) as ->.
    { rewrite Hc. apply answered_none. intros up Hin Ha. unfold command in Ha.
      destruct (Message up) as [m|] eqn:Em; [|discriminate].
      destruct (String.eqb (Text m) ""); [discriminate|].
      destruct (Chat m) as [c|] eqn:Ec; [|discriminate].
      destruct (String.eqb_spec (pretty (ID c)) chatID) as [Eq|]; [|discriminate].
      exact (Hstr _ _ _ _ _ Hin Em Ec Eq). }
    simpl in Hr1. rewrite app_nil_r in Hr1. repeat split; try congruence; lia.
Qed.

Lemma listener_ignores_strangers_witness :
  replies (afterTwoPolls 0 []) = replies listening
  /\ statusCalls (afterTwoPolls 0 []) = statusCalls listening
  /\ polls (afterTwoPolls 0 []) = (polls listening + 2)%nat.
Proof.
  apply (listener_ignores_strangers "1001" (fun _ => "up") (batchNet [stranger]) 2 listening).
  - intros p off up m c Hin Hm Hc. vm_compute in Hin.
    apply list_elem_of_singleton in Hin. subst up.
    inversion Hm; subst m. inversion Hc; subst c. vm_compute. discriminate.
  - vm_compute. reflexivity.
Defined.

(** A pass of the listener panics exactly when the poll hands it an
    update whose message has a text but no chat: the chat is read before
    it is checked.  The listener goroutine ends there, whatever else the
    batch holds and however many passes were still to come. *)
Theorem listener_panics_without_chat (chatID : string) (getStatus : nat -> string)
        (net : nat -> Z -> UpdatesExchange) (st : Listener) :
  (pollOnce chatID getStatus net st = None <->
   exists up m, up ∈ polled (offset st) (net (polls st) (offset st))
                /\ Message up = Some m /\ Text m <> "" /\ Chat m = None)
  /\ (pollOnce chatID getStatus net st = None ->
      forall rounds, listenLoop chatID getStatus net (S rounds) st = None).
Proof.
  split; [split|].
  - unfold pollOnce.
    destruct (getUpdates_polled (offset st) (net (polls st) (offset st)))
      as (no & err & -> & Hno & Herr).
    destruct err as [e|]; [discriminate|].
    destruct handleUpdates as [st1|] eqn:E; [discriminate|]. intros _.
    destruct (handleUpdates_None _ _ _ _ E) as (up & Hin & Hc).
    apply command_NilChat in Hc as (m & Hm & Ht & Hc). eauto 8.
  - intros (up & m & Hin & Hm & Ht & Hc). unfold pollOnce.
    destruct (getUpdates_polled (offset st) (net (polls st) (offset st)))
      as (no & err & -> & Hno & Herr).
    destruct err as [e|].
    + rewrite (Herr ltac:(discriminate)) in Hin. inversion Hin.
    + rewrite (handleUpdates_NilChat chatID getStatus _ up Hin); [reflexivity|].
      apply command_NilChat. eauto.
  - intros Hp rounds. simpl. now rewrite Hp.
Qed.

Example listener_panics_run :
  listenLoop "42" (fun _ => "up") (batchNet [stranger; chatless]) 3 listening = None
  /\ listenLoop "42" (fun _ => "up") (batchNet [stranger]) 2 listening
     = Some (afterTwoPolls 2 ["up"; "up"]).
Proof. split; vm_compute; reflexivity. Qed.

(** The listener paces itself and acknowledges what it was handed.  Let
    the passes of the loop meet the exchanges [xs], one per pass.  A poll
    delivers updates when its reply has status 200, decodes, says ok and
    carries a result that unmarshals, and fails otherwise.  Then the
    listener sleeps once per pass, one second after a poll that delivered
    and five seconds after one that failed; it calls getStatus once per
    command among the delivered updates and no more, and its replies are
    the results of those calls in order; and its offset ends one past the
    id of the last update delivered, or where it started when none was
    (for ids from -2^31 to below 2^31 - 1, where the addition wraps at no
    width of int). *)
Theorem listener_paces (chatID : string) (getStatus : nat -> string)
        (net : nat -> Z -> UpdatesExchange) (rounds : nat) (st st' : Listener) :
  listenLoop chatID getStatus net rounds st = Some st' ->
  let xs := met chatID getStatus net rounds st in
  let k := sum_list_with (fun x => answered chatID (default [] (delivered x))) xs in
  length xs = rounds
  /\ polls st' = (polls st + rounds)%nat
  /\ naps st' = naps st ++ map (fun x => match delivered x with
                                         | Some _ => 1 * Second
                                         | None => 5 * Second
                                         end) xs
  /\ statusCalls st' = (statusCalls st + k)%nat
  /\ replies st' = replies st ++ map getStatus (seq (statusCalls st) k)
  /\ ((forall x updates up, x ∈ xs -> delivered x = Some updates -> up ∈ updates ->
                            - 2 ^ 31 <= UpdateID up < 2 ^ 31 - 1) ->
      offset st' = foldl (fun off x => match delivered x with
                                       | Some updates =>
                                           match last updates with
                                           | Some up => UpdateID up + 1
                                           | None => off
                                           end
                                       | None => off
                                       end) (offset st) xs).
Proof.
  cbv zeta. revert st. induction rounds as [|rounds IH]; intros st H; simpl in H.
  - inversion H; subst. simpl. rewrite Nat.add_0_r, !app_nil_r. auto 10.
  - destruct (pollOnce chatID getStatus net st) as [st1|] eqn:E; [|discriminate].
    destruct (IH _ H) as (Hlen & Hp & Hn & Hc & Hr & Ho). clear IH.
    destruct (pollOnce_pass chatID getStatus net st st1 E) as (Hp1 & Hn1 & Hc1 & Hr1 & Ho1).
    cbn [met]. rewrite E. cbn [length map sum_list_with foldl].
    set (x := net (polls st) (offset st)) in *.
    set (xs := met chatID getStatus net rounds st1) in *.
    split; [now rewrite Hlen|]. split; [lia|]. split; [|split; [|split]].
    + rewrite Hn, Hn1, <- app_assoc. reflexivity.
    + lia.
    + rewrite Hr, Hr1, Hc1, <- app_assoc, seq_app, map_app. reflexivity.
    + intros Hids. rewrite Ho.
      2:{ intros y updates up Hy. apply Hids. now right. }
      f_equal. rewrite Ho1. destruct (delivered x) as [updates|] eqn:D; [|reflexivity].
      destruct (last updates) as [up|] eqn:L; [|reflexivity].
      apply wrap64_small.
      assert (Hin : up ∈ updates).
      { apply last_Some in L as [l' ->]. apply elem_of_app. right. now left. }
      specialize (Hids x updates up ltac:(now left) D Hin). lia.
Qed.

Lemma listener_paces_witness :
  let xs := met "42" (fun _ => "up") (batchNet [stranger]) 2 listening in
  let k := sum_list_with (fun x => answered "42" (default [] (delivered x))) xs in
  length xs = 2%nat
  /\ polls (afterTwoPolls 2 ["up"; "up"]) = (polls listening + 2)%nat
  /\ naps (afterTwoPolls 2 ["up"; "up"])
     = naps listening ++ map (fun x => match delivered x with
                                       | Some _ => 1 * Second
                                       | None => 5 * Second
                                       end) xs
  /\ statusCalls (afterTwoPolls 2 ["up"; "up"]) = (statusCalls listening + k)%nat
  /\ replies (afterTwoPolls 2 ["up"; "up"])
     = replies listening ++ map (fun _ : nat => "up") (seq (statusCalls listening) k)
  /\ ((forall x updates up, x ∈ xs -> delivered x = Some updates -> up ∈ updates ->
                            - 2 ^ 31 <= UpdateID up < 2 ^ 31 - 1) ->
      offset (afterTwoPolls 2 ["up"; "up"])
      = foldl (fun off x => match delivered x with
                            | Some updates =>
                                match last updates with
                                | Some up => UpdateID up + 1
                                | None => off
                                end
                            | None => off
                            end) (offset listening) xs).
Proof.
  apply (listener_paces "42" (fun _ => "up") (batchNet [stranger]) 2 listening).
  vm_compute. reflexivity.
Defined.

(** Two passes, the first of which finds the server down: five seconds,
    then one second and the reply to the command. *)
Example listener_paces_run :
  listenLoop "42" (fun _ => "up") downThenBatch 2 listening
  = Some {| offset := 8; polls := 2; statusCalls := 1; replies := ["up"];
            naps := [5 * Second; 1 * Second] |}.
Proof. vm_compute. reflexivity. Qed.

End ListenerResults.
